(** * A shallow embedding of the vett CLI: identity resolution, path safety,
      name sanitisation, agent installation, registry validation, the
      signature gate of [add] and the install index. *)

From Stdlib Require Import Ascii String Bool Arith NArith ZArith Lia DecimalString.
From stdpp Require Import base list gmap strings.

Local Open Scope bool_scope.

(* ================================================================== *)
(** ** Characters and strings

    JavaScript strings are sequences of UTF-16 code units.  The model
    uses [string] from the Standard Library, whose characters are the
    code units U+0000 .. U+00FF (ASCII and Latin-1); code units above
    U+00FF are not represented. *)
(* ================================================================== *)

Module JS.

Definition code (c : ascii) : nat := nat_of_ascii c.

Definition in_range (lo hi : nat) (c : ascii) : bool :=
  (lo <=? code c) && (code c <=? hi).

Definition is_upper (c : ascii) : bool := in_range 65 90 c.
Definition is_lower_az (c : ascii) : bool := in_range 97 122 c.
Definition is_digit (c : ascii) : bool := in_range 48 57 c.
Definition is_alpha (c : ascii) : bool := is_upper c || is_lower_az c.
Definition is_alnum (c : ascii) : bool := is_alpha c || is_digit c.

(** [\w] in a JavaScript regular expression without the [u] flag. *)
Definition is_word (c : ascii) : bool := is_alnum c || Ascii.eqb c "_"%char.

(** [String.prototype.toLowerCase] on one code unit of U+0000 .. U+00FF:
    A-Z and the Latin-1 capitals U+00C0 .. U+00DE except U+00D7 move by 32;
    every other code unit is its own lower case. *)
Definition lower_char (c : ascii) : ascii :=
  if is_upper c || (in_range 192 222 c && negb (code c =? 215))
  then ascii_of_nat (code c + 32) else c.

Fixpoint toLowerCase (s : string) : string :=
  match s with
  | EmptyString => EmptyString
  | String c t => String (lower_char c) (toLowerCase t)
  end.

(** A string is in lower case when [toLowerCase] leaves it unchanged. *)
Definition is_lowercase (s : string) : Prop := toLowerCase s = s.

(** JavaScript [WhiteSpace] and [LineTerminator] code units below U+0100:
    TAB, LF, VT, FF, CR, SPACE and NO-BREAK SPACE. *)
Definition is_js_space (c : ascii) : bool :=
  in_range 9 13 c || (code c =? 32) || (code c =? 160).

Fixpoint trim_start (s : string) : string :=
  match s with
  | EmptyString => EmptyString
  | String c t => if is_js_space c then trim_start t else s
  end.

Fixpoint rev_str (s : string) : string :=
  match s with
  | EmptyString => EmptyString
  | String c t => rev_str t +:+ String c EmptyString
  end.

Definition trim_end (s : string) : string := rev_str (trim_start (rev_str s)).

(** [String.prototype.trim]. *)
Definition trim (s : string) : string := trim_end (trim_start s).

(** [s.startsWith(p)]. *)
Definition startsWith (s p : string) : bool := String.prefix p s.

(** [s.endsWith(p)]. *)
Definition endsWith (s p : string) : bool :=
  String.prefix (rev_str p) (rev_str s).

(** [s.includes(needle)]. *)
Fixpoint includes (s needle : string) : bool :=
  String.prefix needle s ||
  match s with
  | EmptyString => false
  | String _ t => includes t needle
  end.

Fixpoint forall_chars (p : ascii -> bool) (s : string) : bool :=
  match s with
  | EmptyString => true
  | String c t => p c && forall_chars p t
  end.

(** [s.split(sep)] for a one-character separator. *)
Fixpoint split_on (sep : ascii -> bool) (s : string) : list string :=
  match s with
  | EmptyString => [EmptyString]
  | String c t =>
      if sep c then EmptyString :: split_on sep t
      else match split_on sep t with
           | [] => [String c EmptyString]
           | w :: ws => String c w :: ws
           end
  end.

Definition split (s : string) (sep : ascii) : list string :=
  split_on (fun c => Ascii.eqb c sep) s.

(** [parts.join(sep)]. *)
Fixpoint join (parts : list string) (sep : string) : string :=
  match parts with
  | [] => EmptyString
  | [w] => w
  | w :: ws => w +:+ sep +:+ join ws sep
  end.

(** [.filter(Boolean)] on a list of strings: drop the empty ones. *)
Definition filter_nonempty (parts : list string) : list string :=
  List.filter (fun w => negb (String.eqb w "")) parts.

(** [s.replace(/<suffix>$/, '')] for a literal suffix. *)
Definition strip_suffix (suffix s : string) : string :=
  if endsWith s suffix
  then String.substring 0 (String.length s - String.length suffix) s
  else s.

(** [s.replace(/^<prefix>/, '')] for a literal prefix. *)
Definition strip_prefix (pre s : string) : string :=
  if startsWith s pre
  then String.substring (String.length pre) (String.length s - String.length pre) s
  else s.

End JS.

Import JS.

(* ================================================================== *)
(** ** Path Safety Guard *)
(* ================================================================== *)

(** [packages/core/src/schemas.ts], [isSafePathSegment]: the predicate
    behind [safePathSegmentSchema], used for owner, repo and name fields
    of registry responses. *)
Module Schemas.

Definition seg_char (c : ascii) : bool :=
  is_alnum c || Ascii.eqb c "."%char || Ascii.eqb c "_"%char
  || Ascii.eqb c "-"%char.

(** [/^[a-zA-Z0-9._-]+$/.test(value)] *)
Definition allowlist (value : string) : bool :=
  match value with
  | EmptyString => false
  | _ => forall_chars seg_char value
  end.

Definition isSafePathSegment (value : string) : bool :=
  if String.eqb value "" then false
  else if String.eqb value "." || String.eqb value ".." then false
  else if includes value ".." then false
  else if negb (allowlist value) then false
  else true.

End Schemas.

(** The manifest module of [packages/core] (unnamed part_018), [isPathSafe]: the
    predicate checking the relative path of each file of a skill
    manifest. *)
Module Manifest.

Definition safe_path_char (c : ascii) : bool :=
  Schemas.seg_char c || Ascii.eqb c "/"%char || Ascii.eqb c "\"%char.

(** [/^(?!.*\.\.)(?![/\\])[a-zA-Z0-9._\-/\\]+$/]: the class excludes line
    terminators, so the look-ahead [.*] sees the whole string whenever the
    class matches. *)
Definition SAFE_PATH_REGEX_test (s : string) : bool :=
  negb (includes s "..")
  && negb (startsWith s "/" || startsWith s "\")
  && match s with EmptyString => false | _ => forall_chars safe_path_char s end.

(** [/^[a-zA-Z]:/.test(filePath)] *)
Definition drive_letter (s : string) : bool :=
  match s with
  | String c (String d _) => is_alpha c && Ascii.eqb d ":"%char
  | _ => false
  end.

Definition is_path_sep (c : ascii) : bool :=
  Ascii.eqb c "/"%char || Ascii.eqb c "\"%char.

Definition isPathSafe (filePath : string) : bool :=
  if String.eqb filePath "" then false
  else if includes filePath (String (ascii_of_nat 0) EmptyString) then false
  else if startsWith filePath "/" || startsWith filePath "\" then false
  else if drive_letter filePath then false
  else if includes filePath ".." then false
  else if existsb (fun s => String.eqb s "..") (split_on is_path_sep filePath)
  then false
  else SAFE_PATH_REGEX_test filePath.

End Manifest.

(* ================================================================== *)
(** ** Name Sanitizer: [sanitizeName] of the installer (unnamed part_010) *)
(* ================================================================== *)

Module Sanitize.

(** The class [[a-z0-9._]]. *)
Definition name_char (c : ascii) : bool :=
  is_lower_az c || is_digit c || Ascii.eqb c "."%char || Ascii.eqb c "_"%char.

(** [.replace(/[^a-z0-9._]+/g, '-')]: the global replacement scans left to
    right; at a code unit outside the class the greedy [+] consumes the
    whole run, which becomes one hyphen.  [in_run] records that the
    previous code unit belonged to a run already replaced. *)
Fixpoint replace_runs (in_run : bool) (s : string) : string :=
  match s with
  | EmptyString => EmptyString
  | String c t =>
      if name_char c then String c (replace_runs false t)
      else if in_run then replace_runs true t
      else String "-"%char (replace_runs true t)
  end.

Definition dot_or_hyphen (c : ascii) : bool :=
  Ascii.eqb c "."%char || Ascii.eqb c "-"%char.

Fixpoint drop_leading (p : ascii -> bool) (s : string) : string :=
  match s with
  | EmptyString => EmptyString
  | String c t => if p c then drop_leading p t else s
  end.

(** Second alternative [[.\-]+$]: the leftmost position from which the rest
    of the string is a non-empty run of dots and hyphens. *)
Fixpoint remove_trailing_run (s : string) : string :=
  match s with
  | EmptyString => EmptyString
  | String c t =>
      if forall_chars dot_or_hyphen s then EmptyString
      else String c (remove_trailing_run t)
  end.

(** [.replace(/^[.\-]+|[.\-]+$/g, '')]: the first alternative can only match
    at index 0; the scan then continues where that match ended, where only
    the second alternative can match. *)
Definition strip_dots_hyphens (s : string) : string :=
  remove_trailing_run
    (match s with
     | String c _ => if dot_or_hyphen c then drop_leading dot_or_hyphen s else s
     | EmptyString => s
     end).

Definition MAX_NAME_LENGTH : nat := 255.
Definition FALLBACK_NAME : string := "unnamed-skill".

Definition sanitizeName (name : string) : string :=
  let sanitized := strip_dots_hyphens (replace_runs false (toLowerCase name)) in
  match String.substring 0 MAX_NAME_LENGTH sanitized with
  | EmptyString => FALLBACK_NAME
  | r => r
  end.

(** The same pipeline in the words of the specification: map every code unit
    outside [[a-z0-9._]] to a hyphen and merge adjacent hyphens (they all
    come from one run, since the hyphen itself is outside the class), strip
    the dots and hyphens at both ends, truncate to 255 code units, and fall
    back to the placeholder when the result is empty. *)
Definition to_hyphen (c : ascii) : ascii := if name_char c then c else "-"%char.

Fixpoint map_str (f : ascii -> ascii) (s : string) : string :=
  match s with
  | EmptyString => EmptyString
  | String c t => String (f c) (map_str f t)
  end.

(** Merge each group of adjacent hyphens into one; [prev] is whether the
    previous code unit written was a hyphen. *)
Fixpoint squeeze_hyphens (prev : bool) (s : string) : string :=
  match s with
  | EmptyString => EmptyString
  | String c t =>
      if Ascii.eqb c "-"%char
      then (if prev then squeeze_hyphens true t
            else String c (squeeze_hyphens true t))
      else String c (squeeze_hyphens false t)
  end.

Definition strip_both_ends (s : string) : string :=
  rev_str (drop_leading dot_or_hyphen (rev_str (drop_leading dot_or_hyphen s))).

Definition sanitize_spec (name : string) : string :=
  let collapsed := squeeze_hyphens false (map_str to_hyphen (toLowerCase name)) in
  let truncated := String.substring 0 255 (strip_both_ends collapsed) in
  if String.eqb truncated "" then "unnamed-skill" else truncated.

End Sanitize.

(* ================================================================== *)
(** ** The WHATWG URL parser, for the strings [parseSkillUrl] hands it

    [parseSkillUrl] only calls [new URL] on strings starting with
    [http://] or [https://].  The model follows the WHATWG state machine for
    these special schemes: leading/trailing C0-or-space code units are
    trimmed and TAB/LF/CR removed, the slashes after the scheme are skipped,
    the authority runs to the first [/], [\], [?] or [#], credentials end at
    the last [@], the port is decimal with the scheme's default dropped, the
    host is ASCII-lowercased and checked for forbidden code points, the path
    is split on [/] and [\] with dot segments resolved and the path
    percent-encode set applied, and the query gets the special-query
    percent-encode set.  The host parser follows the standard: a bracketed
    host is an IPv6 address, serialized in its compressed form; a domain is
    percent-decoded, lowercased when it is ASCII without an [xn--] label and
    otherwise mapped by the UTS #46 ToASCII of the IDNA library (a
    parameter, [DomainToASCII]), checked for forbidden code points, and
    read as an IPv4 address when its last label is a number. *)
(* ================================================================== *)

Module URL.

Record url := mk_url {
  url_scheme : string;
  url_host : string;      (** [URL.host]: hostname and non-default port *)
  url_pathname : string;  (** [URL.pathname] *)
  url_query : string      (** the query without its [?] *)
}.

Definition is_c0_or_space (c : ascii) : bool := code c <=? 32.

Definition is_tab_or_newline (c : ascii) : bool :=
  (code c =? 9) || (code c =? 10) || (code c =? 13).

Fixpoint remove_chars (p : ascii -> bool) (s : string) : string :=
  match s with
  | EmptyString => EmptyString
  | String c t => if p c then remove_chars p t else String c (remove_chars p t)
  end.

Definition trim_c0 (s : string) : string :=
  rev_str (Sanitize.drop_leading is_c0_or_space
             (rev_str (Sanitize.drop_leading is_c0_or_space s))).

(** The prefix of [s] before the first code unit satisfying [stop], and the
    rest, starting with that code unit. *)
Fixpoint break_at (stop : ascii -> bool) (s : string) : string * string :=
  match s with
  | EmptyString => (EmptyString, EmptyString)
  | String c t =>
      if stop c then (EmptyString, s)
      else let (a, b) := break_at stop t in (String c a, b)
  end.

(** The part of [s] after its last [@], if it has one. *)
Fixpoint after_last_at (s : string) : option string :=
  match s with
  | EmptyString => None
  | String c t =>
      match after_last_at t with
      | Some r => Some r
      | None => if Ascii.eqb c "@"%char then Some t else None
      end
  end.

Definition hex_digit (n : nat) : ascii :=
  if n <? 10 then ascii_of_nat (48 + n) else ascii_of_nat (55 + n).

Definition pct_byte (n : nat) : string :=
  String "%"%char (String (hex_digit (n / 16)) (String (hex_digit (n mod 16)) EmptyString)).

(** UTF-8 percent-encoding of one code unit [c] when [in_set c]. *)
Definition pct_encode_char (in_set : ascii -> bool) (c : ascii) : string :=
  if in_set c then
    if code c <? 128 then pct_byte (code c)
    else pct_byte (192 + code c / 64) +:+ pct_byte (128 + code c mod 64)
  else String c EmptyString.

Fixpoint pct_encode (in_set : ascii -> bool) (s : string) : string :=
  match s with
  | EmptyString => EmptyString
  | String c t => pct_encode_char in_set c +:+ pct_encode in_set t
  end.

(** C0 control percent-encode set: C0 controls and code units above U+007E. *)
Definition c0_control_set (c : ascii) : bool := (code c <? 32) || (126 <? code c).

Definition query_set (c : ascii) : bool :=
  c0_control_set c || (code c =? 32) || Ascii.eqb c (ascii_of_nat 34)
  || Ascii.eqb c "#"%char || Ascii.eqb c "<"%char || Ascii.eqb c ">"%char.

Definition special_query_set (c : ascii) : bool := query_set c || Ascii.eqb c "'"%char.

Definition path_set (c : ascii) : bool :=
  query_set c || Ascii.eqb c "?"%char || Ascii.eqb c "`"%char
  || Ascii.eqb c "{"%char || Ascii.eqb c "}"%char.

Definition hex_value (c : ascii) : option nat :=
  if is_digit c then Some (code c - 48)
  else if in_range 65 70 c then Some (code c - 55)
  else if in_range 97 102 c then Some (code c - 87)
  else None.

(** Percent-decoding; a two-byte UTF-8 sequence for U+0080 .. U+00FF is read
    back as that code unit. *)
Fixpoint pct_decode_bytes (s : string) : list nat :=
  match s with
  | EmptyString => []
  | String c t =>
      if Ascii.eqb c "%"%char then
        match t with
        | String h (String l t') =>
            match hex_value h, hex_value l with
            | Some a, Some b => (16 * a + b) :: pct_decode_bytes t'
            | _, _ => code c :: pct_decode_bytes t
            end
        | _ => code c :: pct_decode_bytes t
        end
      else code c :: pct_decode_bytes t
  end.

Fixpoint utf8_latin1 (bs : list nat) : string :=
  match bs with
  | [] => EmptyString
  | b :: rest =>
      match rest with
      | b2 :: rest' =>
          if ((b =? 194) || (b =? 195)) && (128 <=? b2) && (b2 <? 192)
          then String (ascii_of_nat ((b - 192) * 64 + (b2 - 128))) (utf8_latin1 rest')
          else String (ascii_of_nat b) (utf8_latin1 rest)
      | [] => String (ascii_of_nat b) EmptyString
      end
  end.

Definition pct_decode (s : string) : string := utf8_latin1 (pct_decode_bytes s).

(** Single-dot and double-dot path segments. *)
Definition single_dot (b : string) : bool :=
  String.eqb b "." || String.eqb (toLowerCase b) "%2e".

Definition double_dot (b : string) : bool :=
  let l := toLowerCase b in
  String.eqb l ".." || String.eqb l ".%2e" || String.eqb l "%2e." || String.eqb l "%2e%2e".

(** The path state, one buffer at a time; [last] says the buffer was ended by
    EOF, [?] or [#] rather than by a slash.  [acc] is the path so far, last
    segment first. *)
Definition path_step (acc : list string) (b : string) (last : bool) : list string :=
  if double_dot b then
    let acc' := match acc with [] => [] | _ :: r => r end in
    if last then EmptyString :: acc' else acc'
  else if single_dot b then
    (if last then EmptyString :: acc else acc)
  else b :: acc.

Fixpoint path_segments (acc : list string) (bufs : list string) : list string :=
  match bufs with
  | [] => acc
  | [b] => path_step acc b true
  | b :: bs => path_segments (path_step acc b false) bs
  end.

Definition is_slash (c : ascii) : bool := Ascii.eqb c "/"%char || Ascii.eqb c "\"%char.

Definition parse_pathname (p : string) : string :=
  let p' := match p with
            | String c t => if is_slash c then t else p
            | EmptyString => p
            end in
  let bufs := List.map (pct_encode path_set) (split_on is_slash p') in
  "/" +:+ join (List.rev (path_segments [] bufs)) "/".

(** [domain to ASCII] of a domain that is not plain ASCII or has a label
    starting with [xn--]: UTS #46 ToASCII (CheckHyphens, UseSTD3ASCIIRules,
    Transitional_Processing and VerifyDnsLength off; CheckBidi and
    CheckJoiners on) of the UTF-8 decoding of the percent-decoded host
    bytes; [None] is a failure.  The URL parser takes it from its IDNA
    library, not from this repository, so it is a parameter of the model. *)
Class DomainToASCII := domain_to_ascii : list nat -> option string.

(** The UTF-8 encoding of one code unit of U+0000 .. U+00FF. *)
Definition utf8_unit (c : ascii) : list nat :=
  if code c <? 128 then [code c] else [192 + code c / 64; 128 + code c mod 64].

(** [percent-decode] of a string: the bytes of its UTF-8 encoding, with
    each [%XX] read as one byte. *)
Fixpoint pct_decode_utf8 (s : string) : list nat :=
  match s with
  | EmptyString => []
  | String c t =>
      if Ascii.eqb c "%"%char then
        match t with
        | String h (String l t') =>
            match hex_value h, hex_value l with
            | Some a, Some b => (16 * a + b) :: pct_decode_utf8 t'
            | _, _ => code c :: pct_decode_utf8 t
            end
        | _ => code c :: pct_decode_utf8 t
        end
      else utf8_unit c ++ pct_decode_utf8 t
  end.

Definition string_of_bytes (bs : list nat) : string :=
  string_of_list_ascii (List.map ascii_of_nat bs).

Definition forbidden_domain_char (c : ascii) : bool :=
  (code c <=? 32) || (code c =? 127) || Ascii.eqb c "#"%char || Ascii.eqb c "%"%char
  || Ascii.eqb c "/"%char || Ascii.eqb c ":"%char || Ascii.eqb c "<"%char
  || Ascii.eqb c ">"%char || Ascii.eqb c "?"%char || Ascii.eqb c "@"%char
  || Ascii.eqb c "["%char || Ascii.eqb c "\"%char || Ascii.eqb c "]"%char
  || Ascii.eqb c "^"%char || Ascii.eqb c "|"%char.

(** The IPv4 number parser: after [0x] or [0X] hexadecimal, after a
    leading [0] octal, else decimal; an empty rest after the prefix is 0. *)
Definition radix_digit (R : N) (c : ascii) : option N :=
  match hex_value c with
  | Some d => if (N.of_nat d <? R)%N then Some (N.of_nat d) else None
  | None => None
  end.

Fixpoint radix_value (R acc : N) (s : string) : option N :=
  match s with
  | EmptyString => Some acc
  | String c t =>
      match radix_digit R c with
      | Some d => radix_value R (R * acc + d)%N t
      | None => None
      end
  end.

Definition ipv4_number (s : string) : option N :=
  if String.eqb s "" then None
  else
    let '(R, body) :=
      if (2 <=? String.length s) && (startsWith s "0x" || startsWith s "0X")
      then (16%N, String.substring 2 (String.length s - 2) s)
      else if (2 <=? String.length s) && startsWith s "0"
      then (8%N, String.substring 1 (String.length s - 1) s)
      else (10%N, s) in
    if String.eqb body "" then Some 0%N else radix_value R 0%N body.

(** The ends-in-a-number checker: the last label, ignoring one trailing
    empty label, is all digits or parses as an IPv4 number. *)
Definition number_label (l : string) : bool :=
  (negb (String.eqb l "") && forall_chars is_digit l)
  || match ipv4_number l with Some _ => true | None => false end.

Definition ends_in_number (d : string) : bool :=
  match List.rev (split d "."%char) with
  | [EmptyString] => false
  | EmptyString :: l :: _ => number_label l
  | l :: _ => number_label l
  | [] => false
  end.

(** The IPv4 parser. *)
Fixpoint ipv4_numbers (parts : list string) : option (list N) :=
  match parts with
  | [] => Some []
  | p :: t =>
      match ipv4_number p, ipv4_numbers t with
      | Some n, Some ns => Some (n :: ns)
      | _, _ => None
      end
  end.

(** The first numbers of an address, the [i]-th times [256 ^ (3 - i)]. *)
Fixpoint ipv4_sum (i : N) (ns : list N) : N :=
  match ns with
  | [] => 0%N
  | n :: t => (n * 256 ^ (3 - i) + ipv4_sum (i + 1) t)%N
  end.

Definition ipv4_parse (d : string) : option N :=
  let parts := split d "."%char in
  let parts := match List.rev parts with
               | EmptyString :: (_ :: _) as r => List.rev r
               | _ => parts
               end in
  if 4 <? length parts then None
  else
    match ipv4_numbers parts with
    | None => None
    | Some ns =>
        let last := List.last ns 0%N in
        if existsb (fun n => (255 <? n)%N) (List.removelast ns) then None
        else if (256 ^ N.of_nat (5 - length ns) <=? last)%N then None
        else Some (last + ipv4_sum 0 (List.removelast ns))%N
    end.

Definition ipv4_serialize (a : N) : string :=
  join (List.map (fun k => NilEmpty.string_of_uint (N.to_uint ((a / 256 ^ k) mod 256)))
          [3; 2; 1; 0]%N) ".".

(** The IPv6 parser, on the code units between the brackets: [addr] is the
    eight pieces, [pi] the piece index, [compress] the index after [::]. *)
Fixpoint hex_run (n value len : nat) (cs : list ascii) : nat * nat * list ascii :=
  match n, cs with
  | S n', c :: t =>
      match hex_value c with
      | Some d => hex_run n' (value * 16 + d) (S len) t
      | None => (value, len, cs)
      end
  | _, _ => (value, len, cs)
  end.

(** The decimal digits of one number of an embedded IPv4 address: no
    leading zero, at most 255. *)
Fixpoint dec_run (piece : option nat) (cs : list ascii) : option (option nat * list ascii) :=
  match cs with
  | c :: t =>
      if is_digit c then
        match piece with
        | Some 0 => None
        | _ =>
            let v := match piece with Some p => p * 10 + (code c - 48) | None => code c - 48 end in
            if 255 <? v then None else dec_run (Some v) t
        end
      else Some (piece, cs)
  | [] => Some (piece, [])
  end.

Fixpoint v4_in_v6 (fuel : nat) (addr : list nat) (pi seen : nat) (cs : list ascii)
    : option (list nat * nat) :=
  match fuel with
  | O => None
  | S f =>
      match cs with
      | [] => if seen =? 4 then Some (addr, pi) else None
      | c :: t =>
          let next := if 0 <? seen
                      then if Ascii.eqb c "."%char && (seen <? 4) then Some t else None
                      else Some cs in
          match next with
          | Some ((d :: _) as cs') =>
              if is_digit d then
                match dec_run None cs' with
                | Some (Some piece, rest) =>
                    let addr' := <[pi := List.nth pi addr 0 * 256 + piece]> addr in
                    let pi' := if (S seen =? 2) || (S seen =? 4) then S pi else pi in
                    v4_in_v6 f addr' pi' (S seen) rest
                | _ => None
                end
              else None
          | _ => None
          end
      end
  end.

Fixpoint v6_pieces (fuel : nat) (addr : list nat) (pi : nat) (compress : option nat)
    (cs : list ascii) : option (list nat * nat * option nat) :=
  match fuel with
  | O => None
  | S f =>
      match cs with
      | [] => Some (addr, pi, compress)
      | c :: t =>
          if pi =? 8 then None
          else if Ascii.eqb c ":"%char then
            match compress with
            | Some _ => None
            | None => v6_pieces f addr (S pi) (Some (S pi)) t
            end
          else
            let '(value, len, rest) := hex_run 4 0 0 cs in
            match rest with
            | d :: rest' =>
                if Ascii.eqb d "."%char then
                  if (len =? 0) || (6 <? pi) then None
                  else match v4_in_v6 (S (length cs)) addr pi 0 cs with
                       | Some (addr', pi') => Some (addr', pi', compress)
                       | None => None
                       end
                else if Ascii.eqb d ":"%char then
                  match rest' with
                  | [] => None
                  | _ => v6_pieces f (<[pi := value]> addr) (S pi) compress rest'
                  end
                else None
            | [] => Some (<[pi := value]> addr, S pi, compress)
            end
      end
  end.

(** Move the pieces after [::] to the end. *)
Fixpoint v6_swap (swaps : nat) (addr : list nat) (compress pi : nat) : list nat :=
  match swaps with
  | O => addr
  | S sw =>
      if pi =? 0 then addr
      else
        let j := compress + sw in
        v6_swap sw (<[j := List.nth pi addr 0]> (<[pi := List.nth j addr 0]> addr)) compress (pi - 1)
  end.

Definition ipv6_parse (s : string) : option (list nat) :=
  let cs := list_ascii_of_string s in
  let start :=
    match cs with
    | c :: t =>
        if Ascii.eqb c ":"%char then
          match t with
          | c' :: t' => if Ascii.eqb c' ":"%char then Some (1, Some 1, t') else None
          | [] => None
          end
        else Some (0, None, cs)
    | [] => Some (0, None, cs)
    end in
  match start with
  | None => None
  | Some (pi, compress, cs') =>
      match v6_pieces (S (length cs')) (repeat 0 8) pi compress cs' with
      | None => None
      | Some (addr, pi', Some c) => Some (v6_swap (pi' - c) addr c 7)
      | Some (addr, pi', None) => if pi' =? 8 then Some addr else None
      end
  end.

(** The IPv6 serializer: the first longest run of two or more zero pieces
    becomes [::], the other pieces are lowercase hexadecimal. *)
Fixpoint zero_run (l : list nat) : nat :=
  match l with
  | O :: t => S (zero_run t)
  | _ => 0
  end.

Fixpoint longest_zero_run (i : nat) (l : list nat) (best : option (nat * nat))
    : option (nat * nat) :=
  match l with
  | [] => best
  | _ :: t =>
      let r := zero_run l in
      let best' := match best with
                   | Some (_, len) => if len <? r then Some (i, r) else best
                   | None => if 1 <? r then Some (i, r) else None
                   end in
      longest_zero_run (S i) t best'
  end.

Definition hex_lower (d : nat) : ascii :=
  if d <? 10 then ascii_of_nat (48 + d) else ascii_of_nat (87 + d).

Fixpoint hex_digits (fuel n : nat) (acc : string) : string :=
  match fuel with
  | O => acc
  | S f =>
      let acc' := String (hex_lower (n mod 16)) acc in
      if n <? 16 then acc' else hex_digits f (n / 16) acc'
  end.

Fixpoint v6_serialize_from (i : nat) (pieces : list nat) (compress : option nat)
    (ignore0 : bool) : string :=
  match pieces with
  | [] => EmptyString
  | p :: rest =>
      if ignore0 && (p =? 0) then v6_serialize_from (S i) rest compress true
      else if match compress with Some c => c =? i | None => false end
      then (if i =? 0 then "::" else ":") +:+ v6_serialize_from (S i) rest compress true
      else hex_digits 4 p "" +:+ (if i =? 7 then "" else ":")
           +:+ v6_serialize_from (S i) rest compress false
  end.

Definition ipv6_serialize (a : list nat) : string :=
  v6_serialize_from 0 a (option_map fst (longest_zero_run 0 a None)) false.

(** The host state: a [:] outside [[ ]] starts the port. *)
Fixpoint break_port (inside : bool) (s : string) : string * string :=
  match s with
  | EmptyString => (EmptyString, EmptyString)
  | String c t =>
      if Ascii.eqb c ":"%char && negb inside then (EmptyString, s)
      else
        let inside' := if Ascii.eqb c "["%char then true
                       else if Ascii.eqb c "]"%char then false else inside in
        let (a, b) := break_port inside' t in (String c a, b)
  end.

Fixpoint digits_value (acc : N) (s : string) : N :=
  match s with
  | EmptyString => acc
  | String c t => digits_value (10 * acc + (N.of_nat (code c) - 48))%N t
  end.

Definition default_port (scheme : string) : N :=
  if String.eqb scheme "https" then 443%N else 80%N.

Section Host.
Context {idna : DomainToASCII}.

(** The host parser of a special URL, serialized: an IPv6 address in
    brackets, else the domain (lowercased when it is ASCII without an
    [xn--] label, else by [domain_to_ascii]), read as an IPv4 address when
    it ends in a number. *)
Definition parse_host (h : string) : option string :=
  if startsWith h "[" then
    if endsWith h "]" then
      option_map (fun a => "[" +:+ ipv6_serialize a +:+ "]")
        (ipv6_parse (String.substring 1 (String.length h - 2) h))
    else None
  else
    let bytes := pct_decode_utf8 h in
    let ascii_domain :=
      if forallb (fun b => b <? 128) bytes
         && negb (existsb (fun l => startsWith (toLowerCase l) "xn--")
                    (split (string_of_bytes bytes) "."%char))
      then Some (toLowerCase (string_of_bytes bytes))
      else domain_to_ascii bytes in
    match ascii_domain with
    | None => None
    | Some a =>
        if String.eqb a "" then None
        else if existsb forbidden_domain_char (list_ascii_of_string a) then None
        else if ends_in_number a then option_map ipv4_serialize (ipv4_parse a)
        else Some a
    end.

(** Host and port of the authority after the credentials; [None] is a
    parse failure. *)
Definition parse_host_port (scheme hp : string) : option string :=
  let (h, rest) := break_port false hp in
  match parse_host h with
  | None => None
  | Some host =>
      match rest with
      | EmptyString => Some host
      | String _ port =>
          if negb (forall_chars is_digit port) then None
          else if String.eqb port "" then Some host
          else
            let n := digits_value 0%N port in
            if (65535 <? n)%N then None
            else if (n =? default_port scheme)%N then Some host
            else Some (host +:+ ":" +:+ NilEmpty.string_of_uint (N.to_uint n))
      end
  end.

(** [new URL(input)] for an input starting with [http://] or [https://]. *)
Definition parse (input : string) : option url :=
  let s := remove_chars is_tab_or_newline (trim_c0 input) in
  let scheme_rest :=
    if startsWith s "https:" then Some ("https", String.substring 6 (String.length s - 6) s)
    else if startsWith s "http:" then Some ("http", String.substring 5 (String.length s - 5) s)
    else None in
  match scheme_rest with
  | None => None
  | Some (scheme, rest) =>
      let rest := Sanitize.drop_leading is_slash rest in
      let (authority, after) :=
        break_at (fun c => is_slash c || Ascii.eqb c "?"%char || Ascii.eqb c "#"%char) rest in
      let hp := match after_last_at authority with Some r => r | None => authority end in
      match parse_host_port scheme hp with
      | None => None
      | Some host =>
          let (path_query, _) := break_at (fun c => Ascii.eqb c "#"%char) after in
          let (path, query) := break_at (fun c => Ascii.eqb c "?"%char) path_query in
          let q := match query with
                   | String _ q => pct_encode special_query_set q
                   | EmptyString => EmptyString
                   end in
          Some (mk_url scheme host (parse_pathname path) q)
      end
  end.

End Host.

(** An IDNA mapping that refuses every domain: [parse_host] consults it
    only for a domain with a non-ASCII code unit or an [xn--] label, so on
    the other hosts the parser behaves as with any mapping. *)
Definition no_idna : DomainToASCII := fun _ => None.

(** [url.searchParams.get(name)]: the query is read as
    application/x-www-form-urlencoded ([&]-separated, [+] is a space,
    percent-decoded); the first pair with that name wins. *)
Definition plus_to_space (s : string) : string :=
  Sanitize.map_str (fun c => if Ascii.eqb c "+"%char then " "%char else c) s.

Definition search_get (u : url) (name : string) : option string :=
  let pairs := List.filter (fun w => negb (String.eqb w "")) (split (url_query u) "&"%char) in
  let decoded := List.map (fun w =>
      let (n, v) := break_at (fun c => Ascii.eqb c "="%char) w in
      let v := match v with String _ v' => v' | EmptyString => EmptyString end in
      (pct_decode (plus_to_space n), pct_decode (plus_to_space v))) pairs in
  match List.find (fun nv => String.eqb (fst nv) name) decoded with
  | Some (_, v) => Some v
  | None => None
  end.

End URL.

(* ================================================================== *)
(** ** [getRegistrableDomain]: [psl.parse(host).domain]

    [psl] is a dependency, not code of this repository.  Its behaviour is
    modelled on a fragment of the Public Suffix List: the input is
    lowercased and a trailing dot dropped; a domain with an empty label, a
    label over 63 code units, a label starting or ending with a hyphen, or a
    code unit outside [[a-z0-9-]] is an error (no [domain]); the longest
    listed suffix, else the last label (the default rule [*]), is the public
    suffix, and the registrable domain is that suffix with one more label. *)
(* ================================================================== *)

Module PSL.

Definition public_suffixes : list (list string) :=
  [["com"]; ["org"]; ["net"]; ["io"]; ["ai"]; ["dev"]; ["app"]; ["sh"];
   ["uk"]; ["co"; "uk"]; ["github"; "io"]; ["vercel"; "app"]; ["netlify"; "app"]; ["pages"; "dev"]].

Definition label_char (c : ascii) : bool := is_lower_az c || is_digit c || Ascii.eqb c "-"%char.

Definition valid_label (l : string) : bool :=
  negb (String.eqb l "") && (String.length l <=? 63) && forall_chars label_char l
  && negb (startsWith l "-") && negb (endsWith l "-").

Definition list_suffix_eqb (suf l : list string) : bool :=
  (length suf <=? length l)
  && forallb (fun p => String.eqb (fst p) (snd p)) (combine suf (List.skipn (length l - length suf) l)).

(** Number of labels of the public suffix of [labels]. *)
Definition suffix_length (labels : list string) : nat :=
  fold_left (fun n suf => if list_suffix_eqb suf labels then Nat.max n (length suf) else n)
    public_suffixes 1.

Definition psl_domain (host : string) : option string :=
  let d := toLowerCase host in
  let d := if endsWith d "." then String.substring 0 (String.length d - 1) d else d in
  let labels := split d "."%char in
  if negb (String.length d <=? 253) || negb (forallb valid_label labels) then None
  else
    let k := suffix_length labels in
    if length labels <=? k then None
    else Some (join (List.skipn (length labels - S k) labels) ".").

Definition getRegistrableDomain (host : string) : string :=
  match psl_domain host with
  | Some d => d
  | None => host
  end.

End PSL.

(* ================================================================== *)
(** ** Identity Resolver: [parseSkillUrl] (unnamed part_022, lines 1-402) *)
(* ================================================================== *)

Module Parser.

Record ParsedSkillUrl := mkParsed {
  host : string;
  id : string;
  owner : string;
  repo : option string;
  skill : option string;
  path : option string;
  ref : option string;
  sourceUrl : string
}.

(** A thrown [Error] with its message, or a value. *)
Inductive result (A : Type) := Err (msg : string) | Ok (a : A).
Arguments Err {A} msg.
Arguments Ok {A} a.

(** [convertSshToHttps]: [/^git@([^:]+):(.+)$/]; [.] does not match the
    line terminators LF and CR. *)
Definition is_line_terminator (c : ascii) : bool := (code c =? 10) || (code c =? 13).

Definition convertSshToHttps (sshUrl : string) : result string :=
  if startsWith sshUrl "git@" then
    let rest := String.substring 4 (String.length sshUrl - 4) sshUrl in
    let (h, after) := URL.break_at (fun c => Ascii.eqb c ":"%char) rest in
    match h, after with
    | String _ _, String _ (String c t as p) =>
        if forall_chars (fun c => negb (is_line_terminator c)) p
        then Ok ("https://" +:+ h +:+ "/" +:+ p)
        else Err ("Invalid SSH URL format: " +:+ sshUrl)
    | _, _ => Err ("Invalid SSH URL format: " +:+ sshUrl)
    end
  else Err ("Invalid SSH URL format: " +:+ sshUrl).

(** [/^https?:\/\//] *)
Definition has_http_scheme (s : string) : bool :=
  startsWith s "http://" || startsWith s "https://".

Definition word_or_hyphen (c : ascii) : bool := is_word c || Ascii.eqb c "-"%char.

(** [/^[\w-]+\/[\w-]+/]: the greedy first run stops at the first code unit
    outside the class, which has to be the slash. *)
Definition shorthand_match (s : string) : bool :=
  let (run, rest) := URL.break_at (fun c => negb (word_or_hyphen c)) s in
  match run, rest with
  | String _ _, String sl (String c _) => Ascii.eqb sl "/"%char && word_or_hyphen c
  | _, _ => false
  end.

Definition inferProtocol (url : string) : string :=
  if startsWith url "github.com/" then "https://" +:+ url
  else if shorthand_match url then "https://github.com/" +:+ url
  else "https://" +:+ url.

(** [host.toLowerCase().replace(/^www\./, '')] *)
Definition normalizeHost (h : string) : string := strip_prefix "www." (toLowerCase h).

Definition stripGitSuffix (name : string) : string := strip_suffix ".git" name.

(** [.replace(/\.md$/i, '')] *)
Definition strip_md_ci (p : string) : string :=
  if endsWith (toLowerCase p) ".md"
  then String.substring 0 (String.length p - 3) p else p.

(** Replace the last element of a list ([a[a.length - 1] = f(last)]). *)
Definition map_last (f : string -> string) (l : list string) : list string :=
  match List.rev l with
  | [] => []
  | x :: r => List.rev r ++ [f x]
  end.

Definition normalizeSkillPath (parts : list string) : string :=
  match parts with
  | [] => ""
  | _ =>
      let normalized := map_last (strip_suffix ".md") (List.map toLowerCase parts) in
      match normalized with
      | w :: (_ :: _) as rest => if String.eqb w "skills" then join rest "/" else join normalized "/"
      | _ => join normalized "/"
      end
  end.

Definition parseGitHostUrl (h : string) (pathParts : list string) (src : string)
  : result ParsedSkillUrl :=
  match pathParts with
  | p0 :: p1 :: more =>
      let owner := toLowerCase p0 in
      let repo := toLowerCase (stripGitSuffix p1) in
      let '(ref, skillPath) :=
        match more with
        | [] => (None, [])
        | refType :: after =>
            if String.eqb refType "tree" || String.eqb refType "blob"
            then (List.head after, List.tl after)
            else (None, more)
        end in
      let path := match skillPath with
                  | [] => None
                  | _ => Some (join (List.map strip_md_ci skillPath) "/")
                  end in
      let skill := normalizeSkillPath skillPath in
      let idParts := [h; owner; repo] ++ (if String.eqb skill "" then [] else [skill]) in
      Ok (mkParsed h (join idParts "/") owner (Some repo)
            (if String.eqb skill "" then None else Some skill) path ref src)
  | _ => Err ("Invalid " +:+ h +:+ " URL: need at least owner/repo")
  end.

Definition parseClawHubUrl (u : URL.url) (src : string) : result ParsedSkillUrl :=
  let pathParts := filter_nonempty (split (URL.url_pathname u) "/"%char) in
  (* Download URL: clawhub.ai/api/v1/download?slug=...&tag=... *)
  let download :=
    match option_map toLowerCase (URL.search_get u "slug") with
    | None | Some EmptyString =>
        Err "Invalid ClawHub URL: expected clawhub.ai/{publisher}/{slug} or download URL with ?slug="
    | Some slug =>
        let tag := match URL.search_get u "tag" with
                   | Some EmptyString | None => None | Some t => Some t end in
        Ok (mkParsed "clawhub.ai" ("clawhub.ai/clawhub/" +:+ slug) "clawhub.ai"
              (Some "clawhub") (Some slug) None tag src)
    end in
  match pathParts with
  | [p0; p1] =>
      if negb (String.eqb p0 "api") then
        (* Site URL: clawhub.ai/{publisher}/{slug} *)
        let publisher := toLowerCase p0 in
        let slug := toLowerCase p1 in
        Ok (mkParsed "clawhub.ai" ("clawhub.ai/" +:+ publisher +:+ "/" +:+ slug)
              "clawhub.ai" (Some publisher) (Some slug) None None src)
      else download
  | _ => download
  end.

Definition parseHttpPath (owner h : string) (normalized : list string) (src : string)
  : ParsedSkillUrl :=
  let hostBase := match split owner "."%char with w :: _ => w | [] => "" end in
  let '(repo, skill) :=
    match normalized with
    | [] => (None, hostBase)
    | [w] => (None, if String.eqb w "skill" then hostBase else w)
    | _ =>
        let filename := List.last normalized "" in
        let parentPath := List.removelast normalized in
        if String.eqb filename "skill" then
          match parentPath with
          | [d] => (Some d, d)
          | _ => (Some (join (List.removelast parentPath) "/"), List.last parentPath "")
          end
        else (Some (join parentPath "/"), filename)
    end in
  let repo_part := match repo with Some (String _ _ as r) => [r] | _ => [] end in
  mkParsed h (join ([h; owner] ++ repo_part ++ [skill]) "/") owner repo (Some skill) None None src.

(** [normalized.indexOf('.well-known')] *)
Fixpoint index_of (x : string) (l : list string) : option nat :=
  match l with
  | [] => None
  | y :: r => if String.eqb x y then Some 0 else option_map S (index_of x r)
  end.

Definition parseHttpUrl (h : string) (pathParts : list string) (src : string) : ParsedSkillUrl :=
  let owner := PSL.getRegistrableDomain h in
  let normalized := map_last (strip_suffix ".md") (List.map toLowerCase pathParts) in
  match index_of ".well-known" normalized with
  | Some i =>
      if String.eqb (List.nth (S i) normalized "") "skills" && (S i <? length normalized)
      then parseHttpPath owner h (List.skipn (S (S i)) normalized) src
      else parseHttpPath owner h normalized src
  | None => parseHttpPath owner h normalized src
  end.

Section Skill.
Context {idna : URL.DomainToASCII}.

Definition parseSkillUrl (url : string) : result ParsedSkillUrl :=
  let normalized := trim url in
  let ssh := if startsWith normalized "git@" then convertSshToHttps normalized else Ok normalized in
  match ssh with
  | Err m => Err m
  | Ok normalized =>
      let normalized := if has_http_scheme normalized then normalized else inferProtocol normalized in
      match URL.parse normalized with
      | None => Err ("Invalid skill URL: " +:+ url)
      | Some parsed =>
          let h := normalizeHost (URL.url_host parsed) in
          let pathParts := filter_nonempty (split (URL.url_pathname parsed) "/"%char) in
          if String.eqb h "github.com" then parseGitHostUrl h pathParts url
          else if String.eqb h "clawhub.ai" then parseClawHubUrl parsed url
          else Ok (parseHttpUrl h pathParts url)
      end
  end.

End Skill.

End Parser.

(* ================================================================== *)
(* ================================================================== *)
(** ** Untrusted response validator (apps/cli/src/lib/registry-safety.ts,
       apps/cli/src/lib/api-schemas.ts)

    A JSON payload is checked by a zod schema; the validator throws an
    [Error] whose message is built by [formatZodIssues] from the issues.  The
    model keeps of zod what decides the issue paths: an object schema
    parses each key of its shape at [path ++ [key]] (unknown keys pass
    through), an array schema each element at [path ++ [index]], a
    discriminated union the option selected by the discriminator, and a leaf
    (string, number, enum, literal, unknown, coerced date) reports one issue
    per failed check at its own path.  JSON numbers are modelled by the
    integers. *)
(* ================================================================== *)

Module Registry.

Local Set Warnings "-register-all".

Inductive json :=
  | JNull
  | JBool (b : bool)
  | JNum (n : Z)
  | JStr (s : string)
  | JArr (xs : list json)
  | JObj (fields : list (string * json)).

(** A property read [obj[k]] of a parsed JSON object: [JSON.parse] keeps the
    last of duplicate keys; [None] is [undefined]. *)
Fixpoint get_field (k : string) (fields : list (string * json)) : option json :=
  match fields with
  | [] => None
  | (k', v) :: rest =>
      match get_field k rest with
      | Some w => Some w
      | None => if String.eqb k k' then Some v else None
      end
  end.

Inductive PathElem := PKey (k : string) | PIdx (i : nat).

Record ZodIssue := mkIssue { issue_path : list PathElem; issue_code : string }.

(** A leaf reports the codes of its failed checks on a value ([None] is
    [undefined]). *)
Inductive schema :=
  | SLeaf (checks : option json -> list string)
  | SOptional (s : schema)
  | SNullable (s : schema)
  | SDefault (s : schema)
  | SObject (shape : list (string * schema))
  | SArray (s : schema)
  | SDiscUnion (disc : string) (options : list (string * schema)).

Fixpoint imap_from {A B} (f : nat -> A -> B) (i : nat) (l : list A) : list B :=
  match l with
  | [] => []
  | x :: t => f i x :: imap_from f (S i) t
  end.

Definition type_issue (path : list PathElem) : list ZodIssue :=
  [mkIssue path "invalid_type"].

(** The issues of [schema.safeParse(v)] at [path]. *)
Fixpoint issues (sc : schema) (path : list PathElem) (v : option json) {struct sc}
    : list ZodIssue :=
  match sc with
  | SLeaf checks => List.map (mkIssue path) (checks v)
  | SOptional s => match v with None => [] | Some _ => issues s path v end
  | SNullable s => match v with Some JNull => [] | _ => issues s path v end
  | SDefault s => match v with None => [] | Some _ => issues s path v end
  | SObject shape =>
      match v with
      | Some (JObj fs) =>
          (fix go (sh : list (string * schema)) : list ZodIssue :=
             match sh with
             | [] => []
             | (k, s) :: rest => issues s (path ++ [PKey k]) (get_field k fs) ++ go rest
             end) shape
      | _ => type_issue path
      end
  | SArray s =>
      match v with
      | Some (JArr xs) =>
          List.concat (imap_from (fun i x => issues s (path ++ [PIdx i]) (Some x)) 0 xs)
      | _ => type_issue path
      end
  | SDiscUnion d opts =>
      match v with
      | Some (JObj fs) =>
          (** the option whose literal [disc] equals the payload's *)
          let picked := (fix find (os : list (string * schema)) : option (list ZodIssue) :=
                           match os with
                           | [] => None
                           | (tag, s) :: rest =>
                               match get_field d fs with
                               | Some (JStr t) =>
                                   if String.eqb t tag then Some (issues s path v) else find rest
                               | _ => None
                               end
                           end) opts in
          match picked with
          | Some is => is
          | None => [mkIssue (path ++ [PKey d]) "invalid_union_discriminator"]
          end
      | _ => type_issue path
      end
  end.

(** [path.join('.')]: a number prints in decimal. *)
Definition elem_to_string (e : PathElem) : string :=
  match e with
  | PKey k => k
  | PIdx i => NilEmpty.string_of_uint (N.to_uint (N.of_nat i))
  end.

(** [[...new Set(paths)]]: the first occurrence of each string, in order. *)
Fixpoint dedupe_from (seen : list string) (l : list string) : list string :=
  match l with
  | [] => []
  | x :: t =>
      if existsb (String.eqb x) seen then dedupe_from seen t
      else x :: dedupe_from (seen ++ [x]) t
  end.

Definition formatZodIssues (is : list ZodIssue) : string :=
  let paths := filter_nonempty
                 (List.map (fun i => JS.join (List.map elem_to_string (issue_path i)) ".") is) in
  let uniquePaths := dedupe_from [] paths in
  if 0 <? length uniquePaths
  then "Registry returned an invalid response (invalid fields: "
         +:+ JS.join uniquePaths ", " +:+ ")."
  else "Registry returned an invalid response.".

Inductive Validated := Valid | Thrown (message : string).

(** [validateSkillDetail] and its siblings: [safeParse], then throw
    [new Error(formatZodIssues(result.error.issues))] on failure. *)
Definition validate (sc : schema) (raw : json) : Validated :=
  match issues sc [] (Some raw) with
  | [] => Valid
  | is => Thrown (formatZodIssues is)
  end.

(** Leaf schemas.  [z.string()] with its checks, each a failure code and the
    test it makes. *)
Definition zstring (checks : list (string * (string -> bool))) (v : option json) : list string :=
  match v with
  | Some (JStr s) => List.map fst (List.filter (fun c => negb (snd c s)) checks)
  | _ => ["invalid_type"]
  end.

Definition min_len (n : nat) (s : string) : bool := n <=? String.length s.
Definition max_len (n : nat) (s : string) : bool := String.length s <=? n.
Definition exact_len (n : nat) (s : string) : bool := String.length s =? n.

Definition is_hex (c : ascii) : bool :=
  is_digit c || in_range 97 102 c || in_range 65 70 c.

(** zod's [uuid] pattern: five groups of 8, 4, 4, 4 and 12 hex digits
    separated by hyphens. *)
Definition uuid_ok (s : string) : bool :=
  match split s "-"%char with
  | [a; b; c; d; e] =>
      (String.length a =? 8) && (String.length b =? 4) && (String.length c =? 4)
      && (String.length d =? 4) && (String.length e =? 12)
      && forall_chars is_hex (a +:+ b +:+ c +:+ d +:+ e)
  | _ => false
  end.

(** [z.number().int().min(0)] on the integers. *)
Definition znonneg (v : option json) : list string :=
  match v with
  | Some (JNum n) => if (n <? 0)%Z then ["too_small"] else []
  | _ => ["invalid_type"]
  end.

Definition zenum (values : list string) (v : option json) : list string :=
  match v with
  | Some (JStr s) => if existsb (String.eqb s) values then [] else ["invalid_enum_value"]
  | _ => ["invalid_type"]
  end.

Definition zunknown (v : option json) : list string := [].

Definition RISK_LEVELS : list string := ["none"; "low"; "medium"; "high"; "critical"].
Definition SCAN_STATUSES : list string := ["pending"; "analyzing"; "completed"; "failed"].

Definition safePathSegmentSchema : schema :=
  SLeaf (zstring [("too_small", min_len 1); ("too_big", max_len 200);
                  ("custom", Schemas.isSafePathSegment)]).

Definition nullable_string_default (checks : list (string * (string -> bool))) : schema :=
  SDefault (SOptional (SNullable (SLeaf (zstring checks)))).

Definition optional_uuid : schema := SOptional (SLeaf (zstring [("invalid_string", uuid_ok)])).

(** [z.coerce.date()] decides by [new Date(value)], whose parsing of strings
    is the engine's; it is a parameter of the schemas. *)
Section ApiSchemas.
Variable coerce_date : option json -> list string.

Definition apiSkill_shape : list (string * schema) :=
  [("slug", SLeaf (zstring [("too_small", min_len 1)]));
   ("owner", safePathSegmentSchema);
   ("repo", SNullable safePathSegmentSchema);
   ("name", safePathSegmentSchema);
   ("id", optional_uuid);
   ("description", nullable_string_default [("too_big", max_len 1000)]);
   ("sourceUrl", nullable_string_default []);
   ("installCount", SDefault (SOptional (SLeaf znonneg)));
   ("createdAt", SOptional (SLeaf coerce_date));
   ("updatedAt", SOptional (SLeaf coerce_date))].

Definition apiSkillVersionSchema : schema :=
  SObject
    [("version", SLeaf (zstring [("too_small", min_len 1); ("too_big", max_len 50)]));
     ("hash", SLeaf (zstring [("too_small", exact_len 64)]));
     ("risk", SNullable (SLeaf (zenum RISK_LEVELS)));
     ("analysis", SNullable (SLeaf zunknown));
     ("sigstoreBundle", SNullable (SLeaf zunknown));
     ("id", optional_uuid);
     ("skillId", optional_uuid);
     ("size", SDefault (SOptional (SLeaf znonneg)));
     ("summary", nullable_string_default []);
     ("gitRef", nullable_string_default [("too_big", max_len 255)]);
     ("commitSha", nullable_string_default [("too_small", exact_len 40)]);
     ("sourceUrl", nullable_string_default []);
     ("sourceFingerprint", nullable_string_default [("too_big", max_len 64)]);
     ("analyzedAt", SDefault (SOptional (SNullable (SLeaf coerce_date))));
     ("scanStatus", SDefault (SOptional (SLeaf (zenum SCAN_STATUSES))));
     ("createdAt", SOptional (SLeaf coerce_date))].

(** [apiSkillSchema.extend({ versions: z.array(apiSkillVersionSchema) })]. *)
Definition apiSkillDetailSchema : schema :=
  SObject (apiSkill_shape ++ [("versions", SArray apiSkillVersionSchema)]).

Definition validateSkillDetail (raw : json) : Validated :=
  validate apiSkillDetailSchema raw.

End ApiSchemas.

End Registry.

(* ================================================================== *)
(** ** Install index: [addInstalledSkill] and [removeInstalledSkill]
       (apps/cli/src/config.ts)

    Each call loads the index, changes [installedSkills] and saves it; the
    model threads the list of records from one call to the next.  [repo] is
    [string | null] at the call sites of [removeInstalledSkill]; the
    comparison [===] on it is equality of [option string]. *)
(* ================================================================== *)

Module Index.

Record InstalledSkill := mkInstalledSkill {
  owner : string;
  repo : option string;
  name : string;
  version : string;
  installedAt : string;
  path : string
}.

(** The key [(owner, repo, name)] compared by [===]. *)
Definition skill_key (s : InstalledSkill) : string * option string * string :=
  (owner s, repo s, name s).

Definition same_key (o : string) (r : option string) (n : string)
    (s : InstalledSkill) : bool :=
  bool_decide (owner s = o) && bool_decide (repo s = r) && bool_decide (name s = n).

(** [Array.prototype.findIndex], [None] for [-1]. *)
Fixpoint findIndex {A} (p : A -> bool) (l : list A) : option nat :=
  match l with
  | [] => None
  | x :: t => if p x then Some 0 else option_map S (findIndex p t)
  end.

(** [index.installedSkills[existingIndex] = skill] with [existingIndex] in
    range is [<[i := skill]>]; [push] appends. *)
Definition addInstalledSkill (skill : InstalledSkill) (installedSkills : list InstalledSkill)
    : list InstalledSkill :=
  match findIndex (same_key (owner skill) (repo skill) (name skill)) installedSkills with
  | Some existingIndex => <[existingIndex := skill]> installedSkills
  | None => installedSkills ++ [skill]
  end.

Definition removeInstalledSkill (o : string) (r : option string) (n : string)
    (installedSkills : list InstalledSkill) : list InstalledSkill :=
  List.filter (fun s => negb (same_key o r n s)) installedSkills.

(** A sequence of calls against the index. *)
Inductive IndexCall :=
  | CallAdd (skill : InstalledSkill)
  | CallRemove (o : string) (r : option string) (n : string).

Definition run_call (c : IndexCall) (l : list InstalledSkill) : list InstalledSkill :=
  match c with
  | CallAdd s => addInstalledSkill s l
  | CallRemove o r n => removeInstalledSkill o r n l
  end.

Definition run_calls (cs : list IndexCall) (l : list InstalledSkill) : list InstalledSkill :=
  fold_left (fun acc c => run_call c acc) cs l.

End Index.

(* ================================================================== *)
(** ** The signature gate of [vett add] (apps/cli/src/commands/add.ts from
       [Download and verify] on, unnamed part_013 [verifyManifestOrThrow])

    The steps after the user's confirmation: download, manifest parse and
    schema check, signature verification, then the writes (the canonical
    files, the agent links, the index).  The network, [JSON.parse] with the
    manifest schema and the Sigstore library are parameters; the effects
    are recorded in a trace. *)
(* ================================================================== *)

Module Add.

Record VersionInfo := mkVersionInfo {
  version : string;
  hash : string;
  sigstoreBundle : option Registry.json   (* [None] is [undefined] *)
}.

Record SkillManifestFile := mkManifestFile { file_path : string; file_content : string }.
Record SkillManifest := mkManifest { files : list SkillManifestFile }.

(** [!value] on a JSON value: [undefined], [null], [false], [0] and [""] are
    falsy. *)
Definition falsy (v : option Registry.json) : bool :=
  match v with
  | None | Some Registry.JNull | Some (Registry.JBool false) => true
  | Some (Registry.JNum n) => (n =? 0)%Z
  | Some (Registry.JStr s) => String.eqb s ""
  | Some _ => false
  end.

Definition NO_BUNDLE_MESSAGE : string :=
  "No Sigstore bundle found - skill is unsigned or uses deprecated legacy signing.".

Inductive Event :=
  | Downloaded (bytes : list Byte.byte)
  | SignatureVerified (bytes : list Byte.byte)
  | LoggedError (message : string)
  | WroteCanonical (skillDir : string) (path : string)
  | InstalledToAgent (agent : string)
  | IndexUpdated.

Inductive Outcome := Exited (code : nat) | Completed.

Section Pipeline.
(** What [downloadArtifact] returns ([None] when it throws). *)
Variable downloadArtifact : option (list Byte.byte).
(** [JSON.parse] of the bytes and [createSkillManifestSchema(...).safeParse]. *)
Variable parseManifest : list Byte.byte -> option SkillManifest.
(** [verify] of the sigstore library on the bundle and the bytes: [None]
    when it resolves, the message of its error when it rejects. *)
Variable sigstoreVerify : list Byte.byte -> Registry.json -> option string.
Variable skillDir : string.
Variable targetAgents : list string.

(** [verifySigstoreBundle]: [None] on success, the message it throws otherwise. *)
Definition verifySigstoreBundle (manifestBytes : list Byte.byte) (bundle : Registry.json)
    : option string :=
  match sigstoreVerify manifestBytes bundle with
  | None => None
  | Some message => Some ("Sigstore verification failed: " +:+ message)
  end.

Definition verifyManifestOrThrow (manifestBytes : list Byte.byte) (v : VersionInfo)
    : option string :=
  if falsy (sigstoreBundle v) then Some NO_BUNDLE_MESSAGE
  else match sigstoreBundle v with
       | Some bundle => verifySigstoreBundle manifestBytes bundle
       | None => Some NO_BUNDLE_MESSAGE
       end.

(** [installSkillFiles(manifest, skillDir)]: one write per manifest file. *)
Definition installSkillFiles (manifest : SkillManifest) : list Event :=
  List.map (fun f => WroteCanonical skillDir (file_path f)) (files manifest).

(** [add] from [if (!detail.id)] to [addInstalledSkill]. *)
Definition add_install (detail_id : option string) (v : VersionInfo) : list Event * Outcome :=
  match detail_id with
  | None => ([LoggedError "Server did not return a skill ID required for download"], Exited 1)
  | Some _ =>
      match downloadArtifact with
      | None => ([], Exited 1)
      | Some manifestContent =>
          match parseManifest manifestContent with
          | None => ([Downloaded manifestContent], Exited 1)
          | Some manifest =>
              match verifyManifestOrThrow manifestContent v with
              | Some err => ([Downloaded manifestContent; LoggedError err], Exited 1)
              | None =>
                  ([Downloaded manifestContent; SignatureVerified manifestContent]
                     ++ installSkillFiles manifest
                     ++ List.map InstalledToAgent targetAgents
                     ++ [IndexUpdated], Completed)
              end
          end
      end
  end.
End Pipeline.

(** The effects that write to the canonical store or an agent directory. *)
Definition is_write (e : Event) : bool :=
  match e with
  | WroteCanonical _ _ | InstalledToAgent _ => true
  | _ => false
  end.

End Add.

(* ================================================================== *)
(** ** Agent installer (unnamed part_010, apps/cli/src/agents.ts)

    The installer calls node's [path] functions (posix flavour) and its
    file system.  The path functions below follow node's [path.posix]:
    [normalizeString] is its segment loop (a segment [..] removes the last
    kept segment unless that is itself [..]), [resolve] joins its arguments
    from the right up to the first absolute one and [process.cwd()],
    [relative] is computed on the segments of the two resolved paths.

    The file system maps a resolved path, as its list of segments, to an
    entry; a path with no entry and no symlink on it does not exist.
    Symlinks are followed where the operating system follows them (for
    [stat]) but not in the middle of a path: the entries below a directory
    are the keys that extend its key. *)
(* ================================================================== *)

Module Installer.

Inductive Entry := Dir | File (content : string) | Link (target : string).

Abbreviation FS := (gmap (list string) Entry).

(** A JavaScript computation on the file system: it returns or throws an
    error (its code), and the changes it made before throwing remain. *)
Inductive Res (A : Type) := Ok (a : A) | Throw (code : string).
Arguments Ok {A} a.
Arguments Throw {A} code.

Definition M (A : Type) : Type := FS -> Res A * FS.

Definition ret {A} (a : A) : M A := fun fs => (Ok a, fs).
Definition throw {A} (code : string) : M A := fun fs => (Throw code, fs).
Definition bind {A B} (m : M A) (k : A -> M B) : M B :=
  fun fs => match m fs with
            | (Ok a, fs') => k a fs'
            | (Throw c, fs') => (Throw c, fs')
            end.
(** [try { m } catch (e) { h(e) }]. *)
Definition try_catch {A} (m : M A) (h : string -> M A) : M A :=
  fun fs => match m fs with
            | (Throw c, fs') => h c fs'
            | r => r
            end.

Section Node.
(** [process.cwd()]. *)
Variable process_cwd : string.
(** Whether the file system lets [symlink] create links (it fails with
    [EPERM] on one that does not). *)
Variable symlinks_supported : bool.

Definition is_abs (p : string) : bool :=
  match p with String c _ => Ascii.eqb c "/"%char | EmptyString => false end.

(** One segment of [normalizeString]; [stack] holds the kept segments, the
    last one first. *)
Definition norm_step (allowAboveRoot : bool) (stack : list string) (seg : string) : list string :=
  if String.eqb seg "" || String.eqb seg "." then stack
  else if String.eqb seg ".." then
    match stack with
    | top :: rest =>
        if String.eqb top ".." then (if allowAboveRoot then ".." :: stack else stack) else rest
    | [] => if allowAboveRoot then [".."] else []
    end
  else seg :: stack.

Definition norm_segs (allowAboveRoot : bool) (segs : list string) : list string :=
  List.rev (fold_left (norm_step allowAboveRoot) segs []).

Definition normalizeString (path : string) (allowAboveRoot : bool) : string :=
  JS.join (norm_segs allowAboveRoot (split path "/"%char)) "/".

(** [path.resolve(...args)] before normalisation: the arguments joined with
    [/] from the right up to the first absolute one, then [process.cwd()]. *)
Fixpoint resolve_build (rargs : list string) (acc : string) : string * bool :=
  match rargs with
  | [] => (acc, false)
  | p :: t =>
      if String.eqb p "" then resolve_build t acc
      else if is_abs p then (p +:+ "/" +:+ acc, true)
      else resolve_build t (p +:+ "/" +:+ acc)
  end.

Definition resolve_input (args : list string) : string * bool :=
  match resolve_build (List.rev args) "" with
  | (path, true) => (path, true)
  | (path, false) => (process_cwd +:+ "/" +:+ path, is_abs process_cwd)
  end.

(** The segments of [path.resolve(...args)]. *)
Definition resolve_key (args : list string) : list string :=
  let '(path, absolute) := resolve_input args in
  norm_segs (negb absolute) (split path "/"%char).

Definition resolve (args : list string) : string :=
  let '(path, absolute) := resolve_input args in
  let r := JS.join (resolve_key args) "/" in
  if absolute then "/" +:+ r else if String.eqb r "" then "." else r.

Definition ends_with_sep (p : string) : bool := endsWith p "/".

Definition normalize (path : string) : string :=
  if String.eqb path "" then "."
  else
    let isAbsolute := is_abs path in
    let trailingSeparator := ends_with_sep path in
    let r := normalizeString path (negb isAbsolute) in
    if String.eqb r "" then
      (if isAbsolute then "/" else if trailingSeparator then "./" else ".")
    else
      let r := if trailingSeparator then r +:+ "/" else r in
      if isAbsolute then "/" +:+ r else r.

(** [path.join(a, b)]. *)
Definition join (a b : string) : string :=
  let joined := JS.join (filter_nonempty [a; b]) "/" in
  if String.eqb joined "" then "." else normalize joined.

(** [path.dirname(p)]: scanning from the end (index [>= 1]), skip the
    trailing separators and the last segment; [dir_scan] reads the
    reversed tail and returns what precedes the separator found. *)
Fixpoint dir_scan (matchedSlash : bool) (r : string) : option string :=
  match r with
  | EmptyString => None
  | String x r' =>
      if Ascii.eqb x "/"%char
      then (if matchedSlash then dir_scan true r' else Some r')
      else dir_scan false r'
  end.

Definition dirname (p : string) : string :=
  match p with
  | EmptyString => "."
  | String c t =>
      let hasRoot := Ascii.eqb c "/"%char in
      match dir_scan true (rev_str t) with
      | None => if hasRoot then "/" else "."
      | Some rest =>
          if hasRoot && String.eqb rest "" then "//" else String c (rev_str rest)
      end
  end.

Fixpoint common_len (a b : list string) : nat :=
  match a, b with
  | x :: a', y :: b' => if String.eqb x y then S (common_len a' b') else 0
  | _, _ => 0
  end.

(** [path.relative(from, to)]: one [..] per segment of [from] past the
    common prefix, then the rest of [to]. *)
Definition relative (from to : string) : string :=
  if String.eqb from to then ""
  else if String.eqb (resolve [from]) (resolve [to]) then ""
  else
    let F := resolve_key [from] in
    let T := resolve_key [to] in
    let c := common_len F T in
    JS.join (repeat ".." (length F - c) ++ List.skipn c T) "/".

(** The file-system key of a path: the segments of [resolve(path)]. *)
Definition key (p : string) : list string := resolve_key [p].

(** The root directory always exists. *)
Definition entry_at (fs : FS) (k : list string) : option Entry :=
  match k with [] => Some Dir | _ => fs !! k end.

(** The path a symlink's target names: resolved from the directory that
    holds the link. *)
Definition render (k : list string) : string := "/" +:+ JS.join k "/".
Definition link_key (k : list string) (t : string) : list string :=
  resolve_key [render (removelast k); t].

(** [stat]: follow symlinks, at most 40 of them (Linux's limit, beyond
    which it reports [ELOOP]). *)
Fixpoint stat_follow (fuel : nat) (fs : FS) (k : list string) : option Entry :=
  match entry_at fs k with
  | Some (Link t) =>
      match fuel with 0 => None | S n => stat_follow n fs (link_key k t) end
  | e => e
  end.

Definition MAXSYMLINKS : nat := 40.

Definition lstat (p : string) : M Entry :=
  fun fs => match entry_at fs (key p) with
            | Some e => (Ok e, fs)
            | None => (Throw "ENOENT", fs)
            end.

Definition readlink (p : string) : M string :=
  fun fs => match entry_at fs (key p) with
            | Some (Link t) => (Ok t, fs)
            | Some _ => (Throw "EINVAL", fs)
            | None => (Throw "ENOENT", fs)
            end.

(** [existsSync(p)]: [stat] succeeds; it never throws. *)
Definition existsSync (p : string) : M bool :=
  fun fs => (Ok (bool_decide (stat_follow MAXSYMLINKS fs (key p) <> None)), fs).

Definition under (k k' : list string) : bool := bool_decide (k `prefix_of` k').

(** [rm(p, { recursive, force })]: a symlink or file is unlinked, a
    directory needs [recursive] and goes with everything below it. *)
Definition rm (p : string) (recursive force : bool) : M unit :=
  fun fs =>
    let k := key p in
    match entry_at fs k with
    | None => if force then (Ok tt, fs) else (Throw "ENOENT", fs)
    | Some Dir =>
        if recursive then (Ok tt, filter (fun kv => negb (under k kv.1)) fs)
        else (Throw "ERR_FS_EISDIR", fs)
    | Some _ => (Ok tt, delete k fs)
    end.

(** [mkdir(p, { recursive: true })], as node's [MKDirpSync]: an existing
    path must [stat] as a directory; a missing one gets its parent made
    first.  [rk] is the key reversed. *)
Fixpoint mkdir_rev (fs : FS) (rk : list string) : Res unit * FS :=
  match rk with
  | [] => (Ok tt, fs)
  | _ :: prk =>
      let k := List.rev rk in
      match fs !! k with
      | Some _ =>
          match stat_follow MAXSYMLINKS fs k with
          | Some Dir => (Ok tt, fs)
          | _ => (Throw "EEXIST", fs)
          end
      | None =>
          match mkdir_rev fs prk with
          | (Ok _, fs') => (Ok tt, <[k := Dir]> fs')
          | r => r
          end
      end
  end.

Definition mkdir_p (p : string) : M unit := fun fs => mkdir_rev fs (List.rev (key p)).

(** [symlink(target, p)]. *)
Definition symlink (target p : string) : M unit :=
  fun fs =>
    let k := key p in
    match entry_at fs k with
    | Some _ => (Throw "EEXIST", fs)
    | None =>
        match stat_follow MAXSYMLINKS fs (removelast k) with
        | Some Dir =>
            if symlinks_supported then (Ok tt, <[k := Link target]> fs)
            else (Throw "EPERM", fs)
        | _ => (Throw "ENOENT", fs)
        end
    end.

(** [cp(src, dst, { recursive: true })]: the tree at [src] (not following
    a symlink at its root) is copied below [dst]; a relative symlink
    target is made absolute from the copied link's directory; [dst] may
    not lie inside [src]. *)
Definition copy_entry (k : list string) (e : Entry) : Entry :=
  match e with
  | Link t => Link (if is_abs t then t else resolve [dirname (render k); t])
  | e => e
  end.

Definition copy_tree (fs : FS) (rs rd : list string) : FS :=
  list_to_map
    (omap (fun kv : list string * Entry =>
             if under rs kv.1
             then Some (rd ++ List.skipn (length rs) kv.1, copy_entry kv.1 kv.2)
             else None)
          (map_to_list fs)).

Definition cp (src dst : string) : M unit :=
  fun fs =>
    let rs := key src in
    let rd := key dst in
    match entry_at fs rs with
    | None => (Throw "ENOENT", fs)
    | Some _ =>
        if under rs rd then (Throw "ERR_FS_CP_EINVAL", fs)
        else (Ok tt, copy_tree fs rs rd ∪ fs)
    end.

(** [isPathSafe(basePath, targetPath)] of the installer ([sep] is [/]). *)
Definition isPathSafe (basePath targetPath : string) : bool :=
  let normalizedBase := normalize (resolve [basePath]) in
  let normalizedTarget := normalize (resolve [targetPath]) in
  startsWith normalizedTarget (normalizedBase +:+ "/")
  || String.eqb normalizedTarget normalizedBase.

(** The inner [try] of [createSymlink]: [Some true] is its early
    [return true], [None] falls through to the symlink creation. *)
Definition inspect_existing (linkPath resolvedTarget : string) : M (option bool) :=
  try_catch
    (bind (lstat linkPath) (fun stats =>
       match stats with
       | Link _ =>
           bind (readlink linkPath) (fun existingTarget =>
             let resolvedExisting := resolve [dirname linkPath; existingTarget] in
             if String.eqb resolvedExisting resolvedTarget then ret (Some true)
             else bind (rm linkPath false false) (fun _ => ret None))
       | _ => bind (rm linkPath true false) (fun _ => ret None)
       end))
    (fun code =>
       if String.eqb code "ELOOP"
       then try_catch (bind (rm linkPath false true) (fun _ => ret None))
                      (fun _ => ret None)
       else ret None).

Definition createSymlink (target linkPath : string) : M bool :=
  try_catch
    (let resolvedTarget := resolve [target] in
     let resolvedLinkPath := resolve [linkPath] in
     if String.eqb resolvedTarget resolvedLinkPath then ret true
     else
       bind (inspect_existing linkPath resolvedTarget) (fun early =>
         match early with
         | Some b => ret b
         | None =>
             let linkDir := dirname linkPath in
             bind (mkdir_p linkDir) (fun _ =>
               let relativePath := relative linkDir target in
               bind (symlink relativePath linkPath) (fun _ => ret true))
         end))
    (fun _ => ret false).

Inductive SymlinkStatus := ok | missing | broken | wrong_target | copy.

Definition checkSymlinkStatus (linkPath expectedTarget : string) : M SymlinkStatus :=
  try_catch
    (bind (lstat linkPath) (fun stats =>
       match stats with
       | Link _ =>
           bind (readlink linkPath) (fun target =>
             let resolvedTarget := resolve [dirname linkPath; target] in
             let resolvedExpected := resolve [expectedTarget] in
             if negb (String.eqb resolvedTarget resolvedExpected) then ret wrong_target
             else
               bind (existsSync resolvedTarget) (fun exists_ =>
                 if negb exists_ then ret broken else ret ok))
       | _ => ret copy
       end))
    (fun _ => ret missing).

Record AgentConfig := mkAgentConfig {
  agent_name : string;
  displayName : string;
  skillsDir : string;
  globalSkillsDir : option string
}.

Inductive InstallMode := ModeSymlink | ModeCopy.

Record InstallResult := mkInstallResult {
  res_agent : string;
  agentDisplayName : string;
  res_path : string;
  mode : InstallMode;
  success : bool;
  error : option string
}.

(** [!agent.globalSkillsDir]. *)
Definition no_global (a : AgentConfig) : bool :=
  match globalSkillsDir a with None => true | Some d => String.eqb d "" end.

(** [installToAgent(canonicalPath, skillName, agentType, { global, cwd })]
    with [agent = agents[agentType]]. *)
Definition installToAgent (canonicalPath skillName : string) (agent : AgentConfig)
    (global : option bool) (cwd_opt : option string) : M InstallResult :=
  let isGlobal := match global with Some g => g | None => true end in
  let cwd := match cwd_opt with
             | Some c => if String.eqb c "" then process_cwd else c
             | None => process_cwd
             end in
  let fail path msg := mkInstallResult (agent_name agent) (displayName agent) path
                         ModeSymlink false (Some msg) in
  if isGlobal && no_global agent then
    ret (fail "" (displayName agent +:+ " does not support global skill installation"))
  else
    let agentBase := if isGlobal then match globalSkillsDir agent with
                                      | Some d => d | None => "" end
                     else join cwd (skillsDir agent) in
    let sanitizedName := Sanitize.sanitizeName skillName in
    let agentSkillDir := join agentBase sanitizedName in
    if negb (isPathSafe agentBase agentSkillDir) then
      ret (fail agentSkillDir "Invalid skill name: potential path traversal detected")
    else
      let done_ m := mkInstallResult (agent_name agent) (displayName agent) agentSkillDir
                       m true None in
      try_catch
        (bind (mkdir_p agentBase) (fun _ =>
         bind (createSymlink canonicalPath agentSkillDir) (fun symlinkCreated =>
           if symlinkCreated then ret (done_ ModeSymlink)
           else
             bind (rm agentSkillDir true true) (fun _ =>
             bind (cp canonicalPath agentSkillDir) (fun _ =>
               ret (done_ ModeCopy))))))
        (fun code => ret (fail agentSkillDir code)).

(** [getAgentSkillPath(skillName, agentType, { global, cwd })] with
    [agent = agents[agentType]]: [None] is [null], [Some (agentBase,
    skillDir)] the object [{ agentBase, skillDir }]. *)
Definition getAgentSkillPath (skillName : string) (agent : AgentConfig)
    (global : option bool) (cwd_opt : option string) : option (string * string) :=
  let isGlobal := match global with Some g => g | None => true end in
  let cwd := match cwd_opt with
             | Some c => if String.eqb c "" then process_cwd else c
             | None => process_cwd
             end in
  if isGlobal && no_global agent then None
  else
    let agentBase := if isGlobal then match globalSkillsDir agent with
                                      | Some d => d | None => "" end
                     else join cwd (skillsDir agent) in
    let sanitizedName := Sanitize.sanitizeName skillName in
    let skillDir := join agentBase sanitizedName in
    Some (agentBase, skillDir).

(** The result [{ success, error }] of [removeFromAgent]. *)
Record RemoveResult := mkRemoveResult {
  remove_success : bool;
  remove_error : option string
}.

(** [removeFromAgent(skillName, agentType, { global, cwd })] with
    [agent = agents[agentType]]. *)
Definition removeFromAgent (skillName : string) (agent : AgentConfig)
    (global : option bool) (cwd_opt : option string) : M RemoveResult :=
  let isGlobal := match global with Some g => g | None => true end in
  let cwd := match cwd_opt with
             | Some c => if String.eqb c "" then process_cwd else c
             | None => process_cwd
             end in
  if isGlobal && no_global agent then ret (mkRemoveResult true None)
  else
    let agentBase := if isGlobal then match globalSkillsDir agent with
                                      | Some d => d | None => "" end
                     else join cwd (skillsDir agent) in
    let sanitizedName := Sanitize.sanitizeName skillName in
    let agentSkillDir := join agentBase sanitizedName in
    if negb (isPathSafe agentBase agentSkillDir) then
      ret (mkRemoveResult false (Some "Invalid skill name"))
    else
      try_catch
        (bind (rm agentSkillDir true true) (fun _ => ret (mkRemoveResult true None)))
        (fun code => ret (mkRemoveResult false (Some code))).

End Node.

(** Two entries of [agents] (apps/cli/src/agents.ts): Replit is
    project-only; Cursor's global directory is [join(homedir(),
    '.cursor/skills')]. *)
Definition replit : AgentConfig :=
  mkAgentConfig "replit" "Replit" ".agent/skills" None.

Definition cursor (home : string) : AgentConfig :=
  mkAgentConfig "cursor" "Cursor" ".cursor/skills" (Some (join home ".cursor/skills")).

End Installer.

(** * Proofs *)
(* ================================================================== *)

(** ** Generic facts about the string model *)
Module StrFacts.

Lemma append_cons (c : ascii) (a b : string) :
  String c a +:+ b = String c (a +:+ b).
Proof. reflexivity. Qed.

Lemma append_nil_l (b : string) : "" +:+ b = b.
Proof. reflexivity. Qed.

Lemma append_nil_r (s : string) : s +:+ "" = s.
Proof. induction s as [|c s IH]; [done|]. by rewrite append_cons, IH. Qed.

Lemma append_assoc (a b c : string) : (a +:+ b) +:+ c = a +:+ (b +:+ c).
Proof.
  induction a as [|x a IH]; [done|]. by rewrite !append_cons, IH.
Qed.

Lemma rev_str_cons (c : ascii) (s : string) :
  rev_str (String c s) = rev_str s +:+ String c "".
Proof. reflexivity. Qed.

Lemma rev_str_app (a b : string) : rev_str (a +:+ b) = rev_str b +:+ rev_str a.
Proof.
  induction a as [|c a IH].
  - rewrite append_nil_l. simpl. by rewrite append_nil_r.
  - rewrite append_cons, !rev_str_cons, IH. by rewrite append_assoc.
Qed.

Lemma rev_str_involutive (s : string) : rev_str (rev_str s) = s.
Proof.
  induction s as [|c s IH]; [done|].
  rewrite rev_str_cons, rev_str_app, IH. reflexivity.
Qed.

Lemma forall_chars_app (p : ascii -> bool) (a b : string) :
  forall_chars p (a +:+ b) = forall_chars p a && forall_chars p b.
Proof.
  induction a as [|c a IH]; [done|].
  rewrite append_cons. simpl. by rewrite IH, andb_assoc.
Qed.

Lemma forall_chars_rev (p : ascii -> bool) (s : string) :
  forall_chars p (rev_str s) = forall_chars p s.
Proof.
  induction s as [|c s IH]; [done|].
  rewrite rev_str_cons, forall_chars_app, IH; simpl.
  by destruct (p c), (forall_chars p s).
Qed.

Lemma drop_leading_all (p : ascii -> bool) (s : string) :
  forall_chars p s = true -> Sanitize.drop_leading p s = "".
Proof.
  induction s as [|c s IH]; simpl; [done|].
  intros H. apply andb_prop in H as [Hc Hs]. rewrite Hc. by apply IH.
Qed.

Lemma drop_leading_app (p : ascii -> bool) (a b : string) :
  forall_chars p a = false ->
  Sanitize.drop_leading p (a +:+ b) = Sanitize.drop_leading p a +:+ b.
Proof.
  induction a as [|c a IH]; [done|].
  rewrite append_cons. simpl.
  intros H. destruct (p c) eqn:Hc; simpl in H; [by apply IH | done].
Qed.

Lemma substring0_length (m : nat) (s : string) :
  String.length (String.substring 0 m s) <= m.
Proof.
  revert m. induction s as [|c s IH]; intros [|m]; simpl; try lia.
  specialize (IH m). lia.
Qed.

Lemma substring0_empty (m : nat) (s : string) :
  0 < m -> String.substring 0 m s = "" -> s = "".
Proof. destruct m as [|m], s; simpl; try done; lia. Qed.

End StrFacts.

(** ** Character-wise invariants of the string operations *)
Module CharsFacts.
Import StrFacts.

Section Preserve.
Variable p : ascii -> bool.

Lemma forall_chars_substring (n m : nat) (s : string) :
  forall_chars p s = true -> forall_chars p (String.substring n m s) = true.
Proof.
  revert n m. induction s as [|c s IH]; intros [|n] [|m] H; simpl in *; try done.
  - apply andb_prop in H as [Hc Hs]. rewrite Hc. by apply IH.
  - apply andb_prop in H as [_ Hs]. by apply IH.
  - apply andb_prop in H as [_ Hs]. by apply IH.
Qed.

Lemma forall_chars_strip_suffix (x s : string) :
  forall_chars p s = true -> forall_chars p (strip_suffix x s) = true.
Proof.
  unfold strip_suffix. destruct (endsWith s x); [apply forall_chars_substring | done].
Qed.

Lemma forall_chars_strip_prefix (x s : string) :
  forall_chars p s = true -> forall_chars p (strip_prefix x s) = true.
Proof.
  unfold strip_prefix. destruct (startsWith s x); [apply forall_chars_substring | done].
Qed.

Lemma forall_chars_join (parts : list string) (sep : string) :
  Forall (fun w => forall_chars p w = true) parts -> forall_chars p sep = true ->
  forall_chars p (join parts sep) = true.
Proof.
  intros Hp Hsep. induction Hp as [|w ws Hw Hws IH]; [done|].
  destruct ws as [|w' ws]; [done|].
  change (join (w :: w' :: ws) sep) with (w +:+ sep +:+ join (w' :: ws) sep).
  by rewrite !forall_chars_app, Hw, Hsep, IH.
Qed.

Lemma forall_chars_split_on (sep : ascii -> bool) (s : string) :
  forall_chars p s = true -> Forall (fun w => forall_chars p w = true) (split_on sep s).
Proof.
  induction s as [|c s IH]; simpl; intros H; [by constructor|].
  apply andb_prop in H as [Hc Hs]. specialize (IH Hs).
  destruct (sep c); [by constructor|].
  destruct (split_on sep s) as [|w ws]; constructor; simpl.
  - by rewrite Hc.
  - by constructor.
  - rewrite Hc. by inversion IH.
  - by inversion IH.
Qed.

End Preserve.

Section ListForall.
Context {A : Type} (P : A -> Prop).

Lemma Forall_skipn' (n : nat) (l : list A) : Forall P l -> Forall P (List.skipn n l).
Proof.
  revert l. induction n as [|n IH]; intros l H; [done|].
  destruct H; simpl; [constructor | by apply IH].
Qed.

Lemma Forall_removelast' (l : list A) : Forall P l -> Forall P (List.removelast l).
Proof.
  induction 1 as [|x l Hx Hl IH]; simpl; [constructor|].
  destruct l; [constructor | by constructor].
Qed.

Lemma Forall_last' (l : list A) (d : A) : Forall P l -> P d -> P (List.last l d).
Proof.
  intros H Hd. induction H as [|x l Hx Hl IH]; simpl; [done|].
  destruct l; [done | apply IH].
Qed.

Lemma Forall_nth' (n : nat) (l : list A) (d : A) : Forall P l -> P d -> P (List.nth n l d).
Proof.
  revert l. induction n as [|n IH]; intros l H Hd; destruct H; simpl; auto.
Qed.

Lemma Forall_filter' (f : A -> bool) (l : list A) : Forall P l -> Forall P (List.filter f l).
Proof.
  induction 1 as [|x l Hx Hl IH]; simpl; [constructor|].
  destruct (f x); [by constructor | done].
Qed.

End ListForall.

End CharsFacts.

(** ** Lower case *)
Module LowerFacts.
Import StrFacts CharsFacts.

Definition lc_char (c : ascii) : bool := Ascii.eqb (lower_char c) c.

Lemma lower_char_idem (c : ascii) : lower_char (lower_char c) = lower_char c.
Proof. destruct c as [[] [] [] [] [] [] [] []]; vm_compute; reflexivity. Qed.

Lemma is_lowercase_iff (s : string) : is_lowercase s <-> forall_chars lc_char s = true.
Proof.
  unfold is_lowercase. induction s as [|c s IH]; simpl; [done|].
  unfold lc_char. rewrite andb_true_iff, <- IH.
  destruct (Ascii.eqb_spec (lower_char c) c) as [E|E].
  - rewrite E. split; [intros H; injection H; auto | intros [_ H]; by rewrite H].
  - split; [intros H; injection H; done | intros [H _]; done].
Qed.

Lemma toLowerCase_lc (s : string) : forall_chars lc_char (toLowerCase s) = true.
Proof.
  induction s as [|c s IH]; simpl; [done|].
  rewrite IH, andb_true_r. unfold lc_char. rewrite lower_char_idem.
  apply Ascii.eqb_refl.
Qed.

Definition Lc (s : string) : Prop := forall_chars lc_char s = true.

Lemma map_lower_Lc (l : list string) : Forall Lc (List.map toLowerCase l).
Proof. induction l; simpl; constructor; [apply toLowerCase_lc | done]. Qed.

Lemma map_last_Lc (f : string -> string) (l : list string) :
  (forall x, Lc x -> Lc (f x)) -> Forall Lc l -> Forall Lc (Parser.map_last f l).
Proof.
  intros Hf Hl. unfold Parser.map_last.
  assert (Forall Lc (List.rev l)) as Hr by (by apply List.Forall_rev).
  destruct (List.rev l) as [|x r]; [constructor|].
  inversion Hr; subst.
  apply Forall_app. split; [by apply List.Forall_rev | constructor; [by apply Hf | constructor]].
Qed.

Lemma normalized_Lc (l : list string) :
  Forall Lc (Parser.map_last (strip_suffix ".md") (List.map toLowerCase l)).
Proof.
  apply map_last_Lc; [intros x Hx; by apply forall_chars_strip_suffix | apply map_lower_Lc].
Qed.

Lemma normalizeSkillPath_Lc (parts : list string) : Lc (Parser.normalizeSkillPath parts).
Proof.
  unfold Parser.normalizeSkillPath.
  destruct parts as [|p0 ps]; [done|].
  pose proof (normalized_Lc (p0 :: ps)) as H.
  destruct (Parser.map_last _ _) as [|w [|w' rest]]; try by apply forall_chars_join.
  destruct (String.eqb w "skills"); apply forall_chars_join; try done.
  by inversion H.
Qed.

Lemma normalizeHost_Lc (h : string) : Lc (Parser.normalizeHost h).
Proof. apply forall_chars_strip_prefix, toLowerCase_lc. Qed.

Lemma getRegistrableDomain_Lc (h : string) : Lc h -> Lc (PSL.getRegistrableDomain h).
Proof.
  intros Hh. unfold PSL.getRegistrableDomain, PSL.psl_domain.
  set (d := toLowerCase h).
  set (d' := if endsWith d "." then _ else _).
  assert (Lc d') as Hd'.
  { subst d'. pose proof (toLowerCase_lc h) as Hd. fold d in Hd.
    destruct (endsWith d "."); [by apply forall_chars_substring | done]. }
  destruct (_ || _); [done|].
  destruct (_ <=? _); [done|].
  apply forall_chars_join; [|done].
  apply Forall_skipn'. by apply forall_chars_split_on.
Qed.


Definition fields_Lc (r : Parser.ParsedSkillUrl) : Prop :=
  Lc (Parser.owner r)
  /\ (forall x, Parser.repo r = Some x -> Lc x)
  /\ (forall x, Parser.skill r = Some x -> Lc x).

Lemma parseGitHostUrl_Lc (h : string) (parts : list string) (src : string) r :
  Parser.parseGitHostUrl h parts src = Parser.Ok r -> fields_Lc r.
Proof.
  unfold Parser.parseGitHostUrl.
  destruct parts as [|p0 [|p1 more]]; try discriminate.
  pose proof normalizeSkillPath_Lc as Hnsp.
  remember Parser.normalizeSkillPath as nsp eqn:Enone; clear Enone.
  repeat case_match; intros Hres; injection Hres as <-;
    (split; [apply toLowerCase_lc|]); split;
    intros x Hx; cbn [Parser.skill Parser.repo] in Hx; try discriminate;
    injection Hx as <-; first [apply toLowerCase_lc | apply Hnsp].
Qed.

Lemma parseClawHubUrl_Lc (u : URL.url) (src : string) r :
  Parser.parseClawHubUrl u src = Parser.Ok r -> fields_Lc r.
Proof.
  unfold Parser.parseClawHubUrl.
  destruct (filter_nonempty _) as [|p0 [|p1 [|p2 rest]]].
  3: destruct (negb _).
  (* the site URL *)
  3: { intros H; injection H as <-. split; [done|].
       split; intros x Hx; injection Hx as <-; apply toLowerCase_lc. }
  (* the download URL *)
  all: destruct (URL.search_get u "slug") as [sl|]; simpl; try discriminate;
    pose proof (toLowerCase_lc sl) as Hsl;
    destruct (toLowerCase sl) as [|c t]; try discriminate;
    intros H; injection H as <-;
    split; [done|]; split; intros x Hx; injection Hx as <-; done.
Qed.

Lemma parseHttpPath_Lc (owner h : string) (normalized : list string) (src : string) :
  Lc owner -> Forall Lc normalized -> fields_Lc (Parser.parseHttpPath owner h normalized src).
Proof.
  intros Ho Hn. unfold Parser.parseHttpPath.
  assert (Lc (match split owner "."%char with w :: _ => w | [] => "" end)) as Hb.
  { pose proof (forall_chars_split_on lc_char (fun c => Ascii.eqb c "."%char) owner Ho) as Hs.
    unfold split. destruct (split_on _ owner); [done | by inversion Hs]. }
  assert (Lc "") as He by done.
  match goal with
  | |- fields_Lc (match ?M with pair _ _ => _ end) => destruct M as [repo skill] eqn:E
  end.
  assert ((forall x, repo = Some x -> Lc x) /\ Lc skill) as [Hr Hs].
  { destruct normalized as [|w [|w2 l]].
    - injection E as <- <-. split; [discriminate | done].
    - inversion Hn; subst.
      injection E as <- <-. split; [discriminate|]. by destruct (String.eqb w "skill").
    - set (nl := w :: w2 :: l) in *.
      assert (Forall Lc (List.removelast nl)) as Hp by by apply Forall_removelast'.
      assert (Lc (List.last nl "")) as Hl by by apply Forall_last'.
      revert E Hp. generalize (List.removelast nl) as rl. intros rl E Hp.
      assert (Lc (List.last rl "")) as Hl1 by by apply Forall_last'.
      assert (Forall Lc (List.removelast rl)) as Hpp by by apply Forall_removelast'.
      destruct (String.eqb (List.last nl "") "skill").
      + destruct rl as [|d [|d2 l']]; injection E as <- <-.
        * split; [|done]. intros x Hx; by injection Hx as <-.
        * inversion Hp; subst. split; [|done]. intros x Hx; by injection Hx as <-.
        * split; [|done]. intros x Hx; injection Hx as <-.
          exact (forall_chars_join lc_char (List.removelast (d :: d2 :: l')) "/" Hpp eq_refl).
      + injection E as <- <-. split; [|done].
        intros x Hx; injection Hx as <-. by apply forall_chars_join. }
  split; [done|]. split; [exact Hr|].
  intros x Hx. simpl in Hx. by injection Hx as <-.
Qed.

Lemma parseHttpUrl_Lc (h : string) (parts : list string) (src : string) :
  Lc h -> fields_Lc (Parser.parseHttpUrl h parts src).
Proof.
  intros Hh. unfold Parser.parseHttpUrl.
  pose proof (getRegistrableDomain_Lc h Hh) as Ho.
  pose proof (normalized_Lc parts) as Hn.
  destruct (Parser.index_of _ _) as [i|]; [|by apply parseHttpPath_Lc].
  destruct (_ && _); apply parseHttpPath_Lc; try done.
  by apply Forall_skipn'.
Qed.

Section Parse.
Context {idna : URL.DomainToASCII}.

Lemma parseSkillUrl_Lc (raw : string) r :
  Parser.parseSkillUrl raw = Parser.Ok r -> fields_Lc r.
Proof.
  unfold Parser.parseSkillUrl.
  destruct (if startsWith (trim raw) "git@" then _ else _) as [m|n]; [discriminate|].
  destruct (URL.parse _) as [u|]; [|discriminate].
  pose proof (normalizeHost_Lc (URL.url_host u)) as Hh.
  destruct (String.eqb _ "github.com"); [apply parseGitHostUrl_Lc|].
  destruct (String.eqb _ "clawhub.ai"); [apply parseClawHubUrl_Lc|].
  intros H. injection H as <-. by apply parseHttpUrl_Lc.
Qed.

End Parse.

End LowerFacts.

(** ** Git-host sources: the front end and the URL parser on plain paths *)
Module GitHubFacts.
Import StrFacts CharsFacts.

#[local] Arguments String.append : simpl nomatch.

(** Code units of a word ([\w] or [-]), of a path segment (a word code unit
    or a dot), and of a whole source string. *)
Definition wchar (c : ascii) : bool := Parser.word_or_hyphen c.
Definition pchar (c : ascii) : bool := wchar c || Ascii.eqb c "."%char.
Definition achar (c : ascii) : bool :=
  pchar c || Ascii.eqb c "/"%char || Ascii.eqb c ":"%char || Ascii.eqb c "@"%char.

(** A word: non-empty, word code units only. *)
Definition wordseg (x : string) : bool := negb (String.eqb x "") && forall_chars wchar x.

(** A path segment: a word code unit, then word code units and dots. *)
Definition seg_okb (x : string) : bool :=
  match x with
  | String c t => wchar c && forall_chars pchar t
  | EmptyString => false
  end.

Ltac all_chars :=
  intros c; destruct c as [[] [] [] [] [] [] [] []]; vm_compute;
  intros H; first [reflexivity | discriminate H].

Lemma achar_space : forall c, achar c = true -> is_js_space c = false.
Proof. all_chars. Qed.
Lemma achar_c0 : forall c, achar c = true -> URL.is_c0_or_space c = false.
Proof. all_chars. Qed.
Lemma achar_tab : forall c, achar c = true -> URL.is_tab_or_newline c = false.
Proof. all_chars. Qed.
Lemma pchar_achar : forall c, pchar c = true -> achar c = true.
Proof. all_chars. Qed.
Lemma pchar_slash : forall c, pchar c = true -> URL.is_slash c = false.
Proof. all_chars. Qed.
Lemma pchar_path_set : forall c, pchar c = true -> URL.path_set c = false.
Proof. all_chars. Qed.
Lemma pchar_hash : forall c, pchar c = true -> Ascii.eqb c "#"%char = false.
Proof. all_chars. Qed.
Lemma pchar_qmark : forall c, pchar c = true -> Ascii.eqb c "?"%char = false.
Proof. all_chars. Qed.
Lemma pchar_sl : forall c, pchar c = true -> Ascii.eqb c "/"%char = false.
Proof. all_chars. Qed.
Lemma wchar_pchar : forall c, wchar c = true -> pchar c = true.
Proof. all_chars. Qed.
Lemma wchar_lower : forall c, wchar c = true -> wchar (lower_char c) = true.
Proof. all_chars. Qed.
Lemma wchar_lower_dot : forall c, wchar c = true -> Ascii.eqb (lower_char c) "."%char = false.
Proof. all_chars. Qed.
Lemma wchar_lower_pct : forall c, wchar c = true -> Ascii.eqb (lower_char c) "%"%char = false.
Proof. all_chars. Qed.
Lemma wchar_dot : forall c, wchar c = true -> Ascii.eqb c "."%char = false.
Proof. all_chars. Qed.
Lemma pchar_sep : forall c, pchar c = true -> Ascii.eqb c "/"%char = false.
Proof. all_chars. Qed.
Lemma achar_line : forall c, achar c = true -> Parser.is_line_terminator c = false.
Proof. all_chars. Qed.

Lemma forall_chars_impl (p q : ascii -> bool) (s : string) :
  (forall c, p c = true -> q c = true) -> forall_chars p s = true -> forall_chars q s = true.
Proof.
  intros Hpq. induction s as [|c s IH]; simpl; [done|].
  intros H. apply andb_prop in H as [Hc Hs]. by rewrite (Hpq c Hc), IH.
Qed.

Lemma forall_chars_neg (p q : ascii -> bool) (s : string) :
  (forall c, p c = true -> q c = false) -> forall_chars p s = true ->
  forall_chars (fun c => negb (q c)) s = true.
Proof.
  intros Hpq. apply forall_chars_impl. intros c Hc. by rewrite (Hpq c Hc).
Qed.

Lemma seg_okb_pchar (x : string) : seg_okb x = true -> forall_chars pchar x = true.
Proof.
  destruct x as [|c t]; simpl; [done|]. intros H. apply andb_prop in H as [Hc Ht].
  by rewrite (wchar_pchar c Hc), Ht.
Qed.

Lemma wordseg_seg (x : string) :
  wordseg x = true -> seg_okb x = true /\ forall_chars wchar x = true.
Proof.
  unfold wordseg. destruct x as [|c t]; simpl; [done|]. intros H.
  apply andb_prop in H as [Hc Ht]. rewrite Hc, Ht. split; [|done].
  simpl. apply (forall_chars_impl wchar pchar t wchar_pchar Ht).
Qed.

(** The string operations on strings without the code units they look for. *)
Lemma trim_id (s : string) : forall_chars achar s = true -> trim s = s.
Proof.
  intros H. unfold trim, trim_end.
  assert (forall u, forall_chars achar u = true -> trim_start u = u) as Ht.
  { intros [|c u] Hu; [done|]. simpl in Hu |- *. apply andb_prop in Hu as [Hc _].
    by rewrite (achar_space c Hc). }
  rewrite (Ht s H), (Ht (rev_str s)); [apply rev_str_involutive|].
  by rewrite forall_chars_rev.
Qed.

Lemma drop_leading_none (p : ascii -> bool) (s : string) :
  forall_chars (fun c => negb (p c)) s = true -> Sanitize.drop_leading p s = s.
Proof.
  destruct s as [|c t]; simpl; [done|]. intros H.
  apply andb_prop in H as [Hc _]. by destruct (p c).
Qed.

Lemma trim_c0_id (s : string) : forall_chars achar s = true -> URL.trim_c0 s = s.
Proof.
  intros H. unfold URL.trim_c0.
  pose proof (fun u => forall_chars_neg _ _ u achar_c0) as Hn.
  rewrite (drop_leading_none _ s (Hn s H)).
  rewrite (drop_leading_none _ (rev_str s)); [apply rev_str_involutive|].
  apply Hn. by rewrite forall_chars_rev.
Qed.

Lemma remove_chars_none (p : ascii -> bool) (s : string) :
  forall_chars (fun c => negb (p c)) s = true -> URL.remove_chars p s = s.
Proof.
  induction s as [|c t IH]; simpl; [done|]. intros H.
  apply andb_prop in H as [Hc Ht]. destruct (p c); [done|]. by rewrite IH.
Qed.

Lemma break_at_none (stop : ascii -> bool) (s : string) :
  forall_chars (fun c => negb (stop c)) s = true -> URL.break_at stop s = (s, "").
Proof.
  induction s as [|c t IH]; simpl; [done|]. intros H.
  apply andb_prop in H as [Hc Ht]. destruct (stop c); [done|]. by rewrite IH.
Qed.

Lemma break_at_app (stop : ascii -> bool) (a : string) (c : ascii) (t : string) :
  forall_chars (fun c => negb (stop c)) a = true -> stop c = true ->
  URL.break_at stop (a +:+ String c t) = (a, String c t).
Proof.
  intros Ha Hc. induction a as [|x a IH]; simpl; [by rewrite Hc|].
  simpl in Ha. apply andb_prop in Ha as [Hx Ha].
  destruct (stop x); [done|]. by rewrite IH.
Qed.

Lemma length_app (a b : string) : String.length (a +:+ b) = String.length a + String.length b.
Proof. induction a as [|c a IH]; simpl; [done|]. by rewrite IH. Qed.

Lemma substring_app_r (a b : string) :
  String.substring (String.length a) (String.length b) (a +:+ b) = b.
Proof.
  induction a as [|c a IH]; simpl; [|done].
  induction b as [|c b IH]; simpl; [done|]. by rewrite IH.
Qed.

Lemma substring_app_l (a b : string) :
  String.substring 0 (String.length a) (a +:+ b) = a.
Proof. induction a as [|c a IH]; simpl; [by destruct b | by rewrite IH]. Qed.

Lemma prefix_app (a b : string) : String.prefix a (a +:+ b) = true.
Proof.
  induction a as [|c a IH]; simpl; [by destruct b|].
  destruct (ascii_dec c c); [done | congruence].
Qed.

Lemma startsWith_app (a b : string) : startsWith (a +:+ b) a = true.
Proof. apply prefix_app. Qed.

Lemma endsWith_app (a b : string) : endsWith (a +:+ b) b = true.
Proof. unfold endsWith. rewrite rev_str_app. apply prefix_app. Qed.

Lemma prefix_chars (q : ascii -> bool) (p x : string) :
  String.prefix p x = true -> forall_chars q x = true -> forall_chars q p = true.
Proof.
  revert x. induction p as [|c p IH]; intros [|d x]; simpl; try done.
  destruct (ascii_dec c d) as [<-|]; [|done].
  intros Hp H. apply andb_prop in H as [Hc Hx]. rewrite Hc. by apply (IH x).
Qed.

Lemma endsWith_chars (q : ascii -> bool) (x p : string) :
  endsWith x p = true -> forall_chars q x = true -> forall_chars q p = true.
Proof.
  unfold endsWith. intros H Hx. rewrite <- forall_chars_rev.
  apply (prefix_chars q _ (rev_str x) H). by rewrite forall_chars_rev.
Qed.


(** [split] and [join] on one separator. *)
Lemma split_on_none (sep : ascii -> bool) (w : string) :
  forall_chars (fun x => negb (sep x)) w = true -> split_on sep w = [w].
Proof.
  induction w as [|x w IH]; simpl; [done|]. intros H.
  apply andb_prop in H as [Hx Hw]. destruct (sep x); [done|]. by rewrite IH.
Qed.

Lemma split_on_app (sep : ascii -> bool) (a : string) (c : ascii) (t : string) :
  forall_chars (fun x => negb (sep x)) a = true -> sep c = true ->
  split_on sep (a +:+ String c t) = a :: split_on sep t.
Proof.
  intros Ha Hc. induction a as [|x a IH]; simpl; [by rewrite Hc|].
  simpl in Ha. apply andb_prop in Ha as [Hx Ha].
  destruct (sep x); [done|]. by rewrite IH.
Qed.

Lemma split_on_join (sep : ascii -> bool) (c : ascii) (segs : list string) :
  sep c = true -> segs <> [] ->
  Forall (fun w => forall_chars (fun x => negb (sep x)) w = true) segs ->
  split_on sep (join segs (String c "")) = segs.
Proof.
  intros Hc Hne Hs. induction Hs as [|w ws Hw Hws IH]; [done|].
  destruct ws as [|w' ws]; [by apply split_on_none|].
  change (join (w :: w' :: ws) (String c "")) with (w +:+ String c "" +:+ join (w' :: ws) (String c "")).
  rewrite append_cons, append_nil_l, split_on_app by done.
  by rewrite IH.
Qed.

(** Dot segments and percent-encoding leave a segment alone. *)
Lemma seg_not_dot (b : string) :
  seg_okb b = true -> URL.double_dot b = false /\ URL.single_dot b = false.
Proof.
  destruct b as [|c t]; simpl; [done|]. intros H. apply andb_prop in H as [Hc _].
  unfold URL.double_dot, URL.single_dot. simpl.
  rewrite (wchar_lower_dot c Hc), (wchar_lower_pct c Hc), (wchar_dot c Hc). done.
Qed.

Lemma path_segments_plain (acc bufs : list string) :
  Forall (fun w => seg_okb w = true) bufs -> URL.path_segments acc bufs = List.rev bufs ++ acc.
Proof.
  intros H. revert acc. induction H as [|b bs Hb Hbs IH]; intros acc; [done|].
  destruct (seg_not_dot b Hb) as [Hd Hs].
  assert (forall last, URL.path_step acc b last = b :: acc) as Hstep.
  { intros last. unfold URL.path_step. by rewrite Hd, Hs. }
  destruct bs as [|b' bs].
  - simpl. by rewrite Hstep.
  - change (URL.path_segments acc (b :: b' :: bs))
      with (URL.path_segments (URL.path_step acc b false) (b' :: bs)).
    rewrite Hstep, IH. simpl. by rewrite <- !app_assoc.
Qed.

Lemma pct_encode_plain (b : string) :
  forall_chars pchar b = true -> URL.pct_encode URL.path_set b = b.
Proof.
  induction b as [|c t IH]; simpl; [done|]. intros H. apply andb_prop in H as [Hc Ht].
  unfold URL.pct_encode_char. rewrite (pchar_path_set c Hc). by rewrite append_cons, IH.
Qed.

Definition segs_ok (segs : list string) : Prop :=
  segs <> [] /\ Forall (fun w => seg_okb w = true) segs.

Lemma segs_no_sep (sep : ascii -> bool) (segs : list string) :
  (forall c, pchar c = true -> sep c = false) ->
  Forall (fun w => seg_okb w = true) segs ->
  Forall (fun w => forall_chars (fun x => negb (sep x)) w = true) segs.
Proof.
  intros Hp. apply List.Forall_impl. intros w Hw.
  apply (forall_chars_neg pchar); [done | by apply seg_okb_pchar].
Qed.

Lemma parse_pathname_plain (segs : list string) :
  segs_ok segs -> URL.parse_pathname ("/" +:+ join segs "/") = "/" +:+ join segs "/".
Proof.
  intros [Hne Hs]. unfold URL.parse_pathname.
  change ("/" +:+ join segs "/") with (String "/"%char (join segs "/")).
  cbv beta iota zeta.
  assert (URL.is_slash "/"%char = true) as -> by reflexivity.
  rewrite (split_on_join URL.is_slash "/"%char segs eq_refl Hne) by (by apply segs_no_sep; [apply pchar_slash|]).
  rewrite (map_ext_in _ id segs).
  2:{ intros w Hw. apply pct_encode_plain, seg_okb_pchar.
      rewrite List.Forall_forall in Hs. by apply Hs. }
  rewrite map_id, path_segments_plain by done.
  by rewrite app_nil_r, rev_involutive.
Qed.

Lemma join_achar (segs : list string) :
  Forall (fun w => seg_okb w = true) segs -> forall_chars achar (join segs "/") = true.
Proof.
  intros Hs. apply forall_chars_join; [|done].
  eapply List.Forall_impl; [|exact Hs]. intros w Hw.
  apply (forall_chars_impl pchar); [apply pchar_achar | by apply seg_okb_pchar].
Qed.

Lemma join_no (stop : ascii -> bool) (segs : list string) :
  (forall c, pchar c = true -> stop c = false) -> stop "/"%char = false ->
  Forall (fun w => seg_okb w = true) segs ->
  forall_chars (fun c => negb (stop c)) (join segs "/") = true.
Proof.
  intros Hp Hsl Hs. apply forall_chars_join; [|simpl; by rewrite Hsl].
  eapply List.Forall_impl; [|exact Hs]. intros w Hw.
  apply (forall_chars_neg pchar); [done | by apply seg_okb_pchar].
Qed.

Section Parse.
Context {idna : URL.DomainToASCII}.

Lemma parse_host_port_github : URL.parse_host_port "https" "github.com" = Some "github.com".
Proof. vm_compute. reflexivity. Qed.

(** [new URL("https://github.com/" + path)] for a path of plain segments. *)
Lemma parse_github (segs : list string) :
  segs_ok segs ->
  URL.parse ("https://github.com/" +:+ join segs "/")
  = Some (URL.mk_url "https" "github.com" ("/" +:+ join segs "/") "").
Proof.
  intros Hok. pose proof Hok as [Hne Hs].
  pose proof (join_achar segs Hs) as HP.
  pose proof (join_no (fun c => Ascii.eqb c "#"%char) segs pchar_hash eq_refl Hs) as Hhash.
  pose proof (join_no (fun c => Ascii.eqb c "?"%char) segs pchar_qmark eq_refl Hs) as Hq.
  pose proof (parse_pathname_plain segs Hok) as Hpath.
  revert HP Hhash Hq Hpath. generalize (join segs "/") as P. intros P HP Hhash Hq Hpath.
  assert (forall_chars achar ("https://github.com/" +:+ P) = true) as Ha.
  { rewrite forall_chars_app. by rewrite HP. }
  unfold URL.parse.
  rewrite trim_c0_id by done.
  rewrite remove_chars_none by (by apply (forall_chars_neg achar); [apply achar_tab|]).
  assert (startsWith ("https://github.com/" +:+ P) "https:" = true) as -> by reflexivity.
  assert (String.substring 6 (String.length ("https://github.com/" +:+ P) - 6)
            ("https://github.com/" +:+ P) = "//github.com/" +:+ P) as ->.
  { change ("https://github.com/" +:+ P) with ("https:" +:+ ("//github.com/" +:+ P)).
    rewrite length_app. change (String.length "https:") with 6.
    replace (6 + String.length ("//github.com/" +:+ P) - 6)
      with (String.length ("//github.com/" +:+ P)) by lia.
    apply (substring_app_r "https:"). }
  cbv beta iota zeta.
  assert (Sanitize.drop_leading URL.is_slash ("//github.com/" +:+ P) = "github.com/" +:+ P)
    as -> by reflexivity.
  assert (URL.break_at (fun c => URL.is_slash c || Ascii.eqb c "?"%char || Ascii.eqb c "#"%char)
            ("github.com/" +:+ P) = ("github.com", "/" +:+ P)) as -> by reflexivity.
  assert (URL.after_last_at "github.com" = None) as -> by reflexivity.
  rewrite parse_host_port_github.
  rewrite (break_at_none _ ("/" +:+ P)) by (simpl; by rewrite Hhash).
  rewrite (break_at_none _ ("/" +:+ P)) by (simpl; by rewrite Hq).
  cbv beta iota. by rewrite Hpath.
Qed.


Lemma split_github_path (segs : list string) :
  segs_ok segs -> filter_nonempty (split ("/" +:+ join segs "/") "/"%char) = segs.
Proof.
  intros [Hne Hs].
  change ("/" +:+ join segs "/") with (String "/"%char (join segs "/")).
  assert (forall J, split (String "/"%char J) "/"%char = "" :: split J "/"%char) as -> by reflexivity.
  unfold split. rewrite (split_on_join _ "/"%char segs eq_refl Hne) by (by apply segs_no_sep; [apply pchar_sep|]).
  unfold filter_nonempty. simpl.
  induction Hs as [|w ws Hw Hws IH]; [done|]. simpl.
  destruct w as [|c t]; [done|]. simpl.
  destruct ws as [|w' ws]; [done|]. f_equal. apply IH. done.
Qed.

Lemma normalizeHost_github : Parser.normalizeHost "github.com" = "github.com".
Proof. reflexivity. Qed.

(** Every source that the front end of [parseSkillUrl] (trimming, the SSH
    rewrite and the inferred protocol) turns into [https://github.com/] and
    a plain path is parsed by [parseGitHostUrl] on the path's segments. *)
Lemma parseSkillUrl_github (raw n : string) (segs : list string) :
  segs_ok segs ->
  (if startsWith (trim raw) "git@" then Parser.convertSshToHttps (trim raw)
   else Parser.Ok (trim raw)) = Parser.Ok n ->
  (if Parser.has_http_scheme n then n else Parser.inferProtocol n)
    = "https://github.com/" +:+ join segs "/" ->
  Parser.parseSkillUrl raw = Parser.parseGitHostUrl "github.com" segs raw.
Proof.
  intros Hok Hssh Hn. unfold Parser.parseSkillUrl. cbv zeta.
  rewrite Hssh. cbv beta iota. rewrite Hn, (parse_github segs Hok).
  cbv beta iota. cbn [URL.url_host URL.url_pathname].
  rewrite normalizeHost_github, (split_github_path segs Hok). reflexivity.
Qed.

Lemma join_shape (segs : list string) :
  segs_ok segs -> exists c t, join segs "/" = String c t.
Proof.
  intros [Hne Hs]. destruct Hs as [|w ws Hw Hws]; [done|].
  destruct w as [|c t]; [done|]. destruct ws; [by eauto|]. simpl. by eauto.
Qed.

(** An https source on github.com. *)
Lemma front_https (segs : list string) :
  segs_ok segs ->
  Parser.parseSkillUrl ("https://github.com/" +:+ join segs "/")
  = Parser.parseGitHostUrl "github.com" segs ("https://github.com/" +:+ join segs "/").
Proof.
  intros Hok. pose proof (join_achar segs (proj2 Hok)) as HP.
  apply (parseSkillUrl_github _ ("https://github.com/" +:+ join segs "/")); [done| |].
  - rewrite trim_id by (rewrite forall_chars_app; by rewrite HP).
    reflexivity.
  - reflexivity.
Qed.

(** The SSH remote [git@github.com:path]. *)
Lemma front_ssh (segs : list string) :
  segs_ok segs ->
  Parser.parseSkillUrl ("git@github.com:" +:+ join segs "/")
  = Parser.parseGitHostUrl "github.com" segs ("git@github.com:" +:+ join segs "/").
Proof.
  intros Hok. pose proof (join_achar segs (proj2 Hok)) as HP.
  destruct (join_shape segs Hok) as (c & t & HJ).
  apply (parseSkillUrl_github _ ("https://github.com/" +:+ join segs "/")); [done| |reflexivity].
  rewrite trim_id by (rewrite forall_chars_app; by rewrite HP).
  assert (startsWith ("git@github.com:" +:+ join segs "/") "git@" = true) as -> by reflexivity.
  unfold Parser.convertSshToHttps.
  assert (startsWith ("git@github.com:" +:+ join segs "/") "git@" = true) as -> by reflexivity.
  assert (String.substring 4 (String.length ("git@github.com:" +:+ join segs "/") - 4)
            ("git@github.com:" +:+ join segs "/") = "github.com:" +:+ join segs "/") as ->.
  { change ("git@github.com:" +:+ join segs "/") with ("git@" +:+ ("github.com:" +:+ join segs "/")).
    rewrite length_app. change (String.length "git@") with 4.
    replace (4 + String.length ("github.com:" +:+ join segs "/") - 4)
      with (String.length ("github.com:" +:+ join segs "/")) by lia.
    apply (substring_app_r "git@"). }
  rewrite HJ in HP |- *.
  assert (URL.break_at (fun c => Ascii.eqb c ":"%char) ("github.com:" +:+ String c t)
          = ("github.com", String ":"%char (String c t))) as -> by reflexivity.
  cbv beta iota.
  rewrite (forall_chars_neg achar _ _ achar_line HP). reflexivity.
Qed.

(** The first code unit outside [[\w-]] of a string, and what follows. *)
Definition first_nonword (p : string) : string := snd (URL.break_at (fun c => negb (wchar c)) p).

Lemma prefix_word_slash (o t p : string) :
  forall_chars wchar o = true -> String.prefix p (o +:+ String "/"%char t) = true ->
  match first_nonword p with String c _ => c = "/"%char | EmptyString => True end.
Proof.
  unfold first_nonword. revert p. induction o as [|a o IH]; intros p Ho Hp.
  - destruct p as [|c p]; [done|]. simpl in Hp.
    destruct (ascii_dec c "/"%char) as [->|]; [|done]. reflexivity.
  - simpl in Ho. apply andb_prop in Ho as [Ha Ho].
    destruct p as [|c p]; [done|]. rewrite append_cons in Hp. simpl in Hp.
    destruct (ascii_dec c a) as [->|]; [|done].
    simpl. rewrite Ha. simpl.
    specialize (IH p Ho Hp). destruct (URL.break_at _ p). exact IH.
Qed.

Lemma not_prefix_word (o t p : string) :
  forall_chars wchar o = true ->
  match first_nonword p with String c _ => Ascii.eqb c "/"%char = false | EmptyString => False end ->
  startsWith (o +:+ String "/"%char t) p = false.
Proof.
  intros Ho Hp. unfold startsWith.
  destruct (String.prefix p _) eqn:E; [|done].
  pose proof (prefix_word_slash o t p Ho E) as H.
  destruct (first_nonword p) as [|c r]; [done|]. subst c. done.
Qed.

(** The [owner/repo/...] shorthand. *)
Lemma front_shorthand (o : string) (segs : list string) :
  wordseg o = true -> segs_ok segs ->
  Parser.parseSkillUrl (o +:+ "/" +:+ join segs "/")
  = Parser.parseGitHostUrl "github.com" (o :: segs) (o +:+ "/" +:+ join segs "/").
Proof.
  intros Ho Hok. destruct (wordseg_seg o Ho) as [Hos How].
  pose proof Hok as [Hne Hs].
  assert (segs_ok (o :: segs)) as Hok'.
  { split; [done | by constructor]. }
  pose proof (join_achar segs Hs) as HP.
  destruct Hs as [|w ws Hw Hws]; [done|].
  destruct w as [|c t]; [done|]. simpl in Hw. apply andb_prop in Hw as [Hc Ht].
  assert (join (o :: String c t :: ws) "/" = o +:+ "/" +:+ join (String c t :: ws) "/") as Hjoin.
  { by destruct ws. }
  set (J := join (String c t :: ws) "/") in *.
  assert (exists t', J = String c t') as [t' HJ].
  { subst J. destruct ws; simpl; eauto. }
  assert (forall_chars achar (o +:+ "/" +:+ J) = true) as Ha.
  { rewrite !forall_chars_app, HP. simpl. rewrite andb_true_r.
    apply (forall_chars_impl wchar); [|done].
    intros x Hx. by apply pchar_achar, wchar_pchar. }
  apply (parseSkillUrl_github _ (o +:+ "/" +:+ J)); [done| |].
  - rewrite trim_id by done.
    change ("/" +:+ J) with (String "/"%char J).
    rewrite (not_prefix_word o J "git@") by done. reflexivity.
  - unfold Parser.has_http_scheme.
    change ("/" +:+ J) with (String "/"%char J).
    rewrite (not_prefix_word o J "http://"), (not_prefix_word o J "https://") by done.
    cbn [orb]. unfold Parser.inferProtocol.
    rewrite (not_prefix_word o J "github.com/") by done.
    unfold Parser.shorthand_match.
    rewrite (break_at_app _ o "/"%char J).
    2:{ apply (forall_chars_impl wchar); [|done]. intros x Hx. unfold wchar in Hx. by rewrite Hx. }
    2:{ reflexivity. }
    destruct o as [|a o']; [done|]. rewrite HJ.
    change (Parser.word_or_hyphen c) with (wchar c). rewrite Hc.
    rewrite Hjoin, HJ. reflexivity.
Qed.


(** [raw] parses to an identity with canonical id [idv]. *)
Definition has_id (raw idv : string) : Prop :=
  exists p, Parser.parseSkillUrl raw = Parser.Ok p /\ Parser.id p = idv.

Lemma stripGitSuffix_plain (r : string) :
  endsWith r ".git" = false -> Parser.stripGitSuffix r = r.
Proof. unfold Parser.stripGitSuffix, strip_suffix. by intros ->. Qed.

Lemma stripGitSuffix_git (r : string) : Parser.stripGitSuffix (r +:+ ".git") = r.
Proof.
  unfold Parser.stripGitSuffix, strip_suffix. rewrite endsWith_app.
  rewrite length_app. change (String.length ".git") with 4.
  replace (String.length r + 4 - 4) with (String.length r) by lia.
  apply substring_app_l.
Qed.

Lemma lower_word (s : string) : forall_chars wchar s = true -> forall_chars wchar (toLowerCase s) = true.
Proof.
  induction s as [|c s IH]; simpl; [done|]. intros H. apply andb_prop in H as [Hc Hs].
  by rewrite (wchar_lower c Hc), IH.
Qed.

Lemma strip_md_word (s : string) :
  wordseg s = true -> strip_suffix ".md" (toLowerCase s) = toLowerCase s.
Proof.
  intros Hs. destruct (wordseg_seg s Hs) as [_ Hw].
  unfold strip_suffix. destruct (endsWith (toLowerCase s) ".md") eqn:E; [|done].
  pose proof (endsWith_chars wchar _ _ E (lower_word s Hw)). done.
Qed.

Lemma normalizeSkillPath_one (s : string) :
  wordseg s = true -> Parser.normalizeSkillPath [s] = toLowerCase s.
Proof. intros Hs. unfold Parser.normalizeSkillPath. simpl. by rewrite strip_md_word. Qed.

Lemma normalizeSkillPath_skills (s : string) :
  wordseg s = true -> Parser.normalizeSkillPath ["skills"; s] = toLowerCase s.
Proof.
  intros Hs. rewrite <- (strip_md_word s Hs). reflexivity.
Qed.

Lemma normalizeSkillPath_nil : Parser.normalizeSkillPath [] = "".
Proof. reflexivity. Qed.

Lemma lower_nonempty (s : string) : wordseg s = true -> String.eqb (toLowerCase s) "" = false.
Proof. destruct s; done. Qed.

Lemma seg_git (r : string) : seg_okb r = true -> seg_okb (r +:+ ".git") = true.
Proof.
  destruct r as [|c t]; [done|]. simpl. intros H. apply andb_prop in H as [Hc Ht].
  rewrite Hc. simpl. rewrite forall_chars_app, Ht. reflexivity.
Qed.

Lemma seg_word (x : string) : wordseg x = true -> seg_okb x = true.
Proof. intros H. apply (wordseg_seg x H). Qed.

Lemma tree_seg : seg_okb "tree" = true.
Proof. reflexivity. Qed.
Lemma blob_seg : seg_okb "blob" = true.
Proof. reflexivity. Qed.
Lemma skills_seg : seg_okb "skills" = true.
Proof. reflexivity. Qed.

End Parse.

End GitHubFacts.

(** The identity of a git-host source does not depend on the convention it
    is written in. *)
Module IdentityStability.
Import GitHubFacts.

Section Forms.
Context {idna : URL.DomainToASCII}.
Variables o r ref s : string.
Hypothesis Ho : wordseg o = true.
Hypothesis Hr : seg_okb r = true.
Hypothesis Hr_git : endsWith r ".git" = false.
Hypothesis Href : seg_okb ref = true.
Hypothesis Hs : wordseg s = true.
Hypothesis Hs_tree : s <> "tree".
Hypothesis Hs_blob : s <> "blob".

Definition repo_id : string := "github.com/" +:+ toLowerCase o +:+ "/" +:+ toLowerCase r.
Definition skill_id : string :=
  "github.com/" +:+ toLowerCase o +:+ "/" +:+ toLowerCase r +:+ "/" +:+ toLowerCase s.

Ltac segs := split; [done | repeat constructor; auto using seg_word, seg_git, tree_seg, blob_seg, skills_seg].

Ltac finish_id :=
  eexists; split; [reflexivity|]; cbn [Parser.id List.tl];
  rewrite ?stripGitSuffix_git, ?(stripGitSuffix_plain r Hr_git), ?normalizeSkillPath_nil,
    ?(normalizeSkillPath_one s Hs), ?(normalizeSkillPath_skills s Hs), ?(lower_nonempty s Hs);
  reflexivity.

Lemma https_repo : has_id ("https://github.com/" +:+ o +:+ "/" +:+ r) repo_id.
Proof.
  unfold has_id. change (o +:+ "/" +:+ r) with (join [o; r] "/").
  rewrite front_https by segs. finish_id.
Qed.

Lemma https_git_repo : has_id ("https://github.com/" +:+ o +:+ "/" +:+ r +:+ ".git") repo_id.
Proof.
  unfold has_id. change (o +:+ "/" +:+ r +:+ ".git") with (join [o; r +:+ ".git"] "/").
  rewrite front_https by segs. finish_id.
Qed.

Lemma ssh_repo : has_id ("git@github.com:" +:+ o +:+ "/" +:+ r +:+ ".git") repo_id.
Proof.
  unfold has_id. change (o +:+ "/" +:+ r +:+ ".git") with (join [o; r +:+ ".git"] "/").
  rewrite front_ssh by segs. finish_id.
Qed.

Lemma shorthand_repo : has_id (o +:+ "/" +:+ r) repo_id.
Proof.
  unfold has_id. change r with (join [r] "/") at 1.
  rewrite front_shorthand by (done || segs). finish_id.
Qed.

Lemma tree_repo : has_id ("https://github.com/" +:+ o +:+ "/" +:+ r +:+ "/tree/" +:+ ref) repo_id.
Proof.
  unfold has_id. change (o +:+ "/" +:+ r +:+ "/tree/" +:+ ref) with (join [o; r; "tree"; ref] "/").
  rewrite front_https by segs. finish_id.
Qed.

Lemma tree_skill :
  has_id ("https://github.com/" +:+ o +:+ "/" +:+ r +:+ "/tree/" +:+ ref +:+ "/" +:+ s) skill_id.
Proof.
  unfold has_id.
  change (o +:+ "/" +:+ r +:+ "/tree/" +:+ ref +:+ "/" +:+ s) with (join [o; r; "tree"; ref; s] "/").
  rewrite front_https by segs. finish_id.
Qed.

Lemma tree_skills_skill :
  has_id ("https://github.com/" +:+ o +:+ "/" +:+ r +:+ "/tree/" +:+ ref +:+ "/skills/" +:+ s) skill_id.
Proof.
  unfold has_id.
  change (o +:+ "/" +:+ r +:+ "/tree/" +:+ ref +:+ "/skills/" +:+ s)
    with (join [o; r; "tree"; ref; "skills"; s] "/").
  rewrite front_https by segs. finish_id.
Qed.

Lemma blob_skill :
  has_id ("https://github.com/" +:+ o +:+ "/" +:+ r +:+ "/blob/" +:+ ref +:+ "/" +:+ s) skill_id.
Proof.
  unfold has_id.
  change (o +:+ "/" +:+ r +:+ "/blob/" +:+ ref +:+ "/" +:+ s) with (join [o; r; "blob"; ref; s] "/").
  rewrite front_https by segs. finish_id.
Qed.

Lemma shorthand_skill : has_id (o +:+ "/" +:+ r +:+ "/" +:+ s) skill_id.
Proof.
  unfold has_id. change (r +:+ "/" +:+ s) with (join [r; s] "/").
  rewrite front_shorthand by (done || segs).
  unfold Parser.parseGitHostUrl.
  rewrite (proj2 (String.eqb_neq s "tree") Hs_tree), (proj2 (String.eqb_neq s "blob") Hs_blob).
  finish_id.
Qed.

Lemma shorthand_skills_skill : has_id (o +:+ "/" +:+ r +:+ "/skills/" +:+ s) skill_id.
Proof.
  unfold has_id. change (r +:+ "/skills/" +:+ s) with (join [r; "skills"; s] "/").
  rewrite front_shorthand by (done || segs). finish_id.
Qed.

End Forms.
End IdentityStability.

(** ** C3: the safe-segment predicate *)

(** C3 (counterexample): the claim says the predicate returns true exactly
    for the strings matching [[A-Za-z0-9._-]+] and false for path
    separators.  ["."] matches the allowlist but [isSafePathSegment] rejects
    it, and the predicate the code calls [isPathSafe] accepts ["a/b"]. *)
Lemma C3_counterexample :
  Schemas.allowlist "." = true /\ Schemas.isSafePathSegment "." = false
  /\ Manifest.isPathSafe "a/b" = true.
Proof. vm_compute. repeat split. Qed.

(** C3 (amended): [isSafePathSegment] accepts exactly the non-empty strings
    over [[A-Za-z0-9._-]] that are not ["."] and do not contain [".."]; so it
    rejects the empty string, ["."], [".."], anything containing [".."] and
    every string with a code unit outside the allowlist (slashes,
    backslashes, NUL, the double quote, [<>:|?*], [$`&;()], whitespace, non-ASCII).  The
    manifest file-path predicate [isPathSafe] is a different one: it also
    accepts [/] and [\] inside a relative path, as in ["src/index.ts"]. *)
Theorem C3_isSafePathSegment_exact (v : string) :
  (Schemas.isSafePathSegment v = true <->
     Schemas.allowlist v = true /\ v <> "." /\ includes v ".." = false)
  /\ Manifest.isPathSafe "src/index.ts" = true.
Proof.
  split; [|by vm_compute].
  unfold Schemas.isSafePathSegment.
  destruct (String.eqb_spec v "") as [->|Hne]; simpl.
  { split; [done|]. intros [H _]. done. }
  destruct (String.eqb_spec v ".") as [->|Hdot]; simpl.
  { split; [done|]. intros [_ [H _]]. done. }
  destruct (String.eqb_spec v "..") as [->|Hdd]; simpl.
  { split; [done|]. intros [_ [_ H]]. done. }
  destruct (includes v "..") eqn:Hinc; simpl.
  { split; [done|]. intros [_ [_ H]]. done. }
  destruct (Schemas.allowlist v); simpl; intuition congruence.
Qed.

(** ** The safe-segment fields of the registry's skill schema *)
Module RegistrySafety.
Import Registry.

Lemma object_field_issue (shape : list (string * schema)) (fs : list (string * json))
    (p : list PathElem) (k : string) (s : schema) :
  In (k, s) shape -> issues s (p ++ [PKey k]) (get_field k fs) <> [] ->
  issues (SObject shape) p (Some (JObj fs)) <> [].
Proof.
  induction shape as [|[k' s'] shape IH]; [done|].
  intros [Heq|Hin] Hne; simpl.
  - injection Heq as <- <-. intros Hnil. by apply app_eq_nil in Hnil as [Hnil _].
  - intros Hnil. apply app_eq_nil in Hnil as [_ Hnil]. exact (IH Hin Hne Hnil).
Qed.

Lemma safe_segment_issue (p : list PathElem) (v : string) :
  Schemas.isSafePathSegment v = false ->
  issues safePathSegmentSchema p (Some (JStr v)) <> []
  /\ issues (SNullable safePathSegmentSchema) p (Some (JStr v)) <> [].
Proof.
  intros H. simpl. unfold zstring. simpl. rewrite H. simpl.
  destruct (negb (min_len 1 v)), (negb (max_len 200 v)); simpl; split; discriminate.
Qed.

End RegistrySafety.

(** ** C1: identity fields of a parsed source *)

(** C1 (counterexample): the claim says every field produced by
    [parseSkillUrl] satisfies the safe-segment predicate, and that the
    parser fails otherwise.  For a git-host tree URL whose sub-path has two
    segments the parser succeeds and returns the skill ["a/b"], which
    [isSafePathSegment] rejects. *)
Lemma C1_counterexample :
  exists r,
    @Parser.parseSkillUrl URL.no_idna "https://github.com/acme/tools/tree/main/a/b" = Parser.Ok r
    /\ Parser.skill r = Some "a/b"
    /\ Schemas.isSafePathSegment "a/b" = false.
Proof.
  eexists. split; [vm_compute; reflexivity|]. split; vm_compute; reflexivity.
Qed.

(** C1 (amended): every identity field (owner, repo, skill) of an identity
    that [parseSkillUrl] returns is in lower case, on every branch of the
    parser (git host, ClawHub, generic HTTP), whatever the IDNA mapping of
    the URL parser.  The parser itself applies no safe-segment check; the
    registry schema makes it on the [owner], [repo] and [name] fields of a
    skill: a skill detail response in which one of them is a string that
    [isSafePathSegment] rejects fails validation. *)
Theorem C1_identity_fields_lowercase {idna : URL.DomainToASCII} :
  (forall (raw : string) (r : Parser.ParsedSkillUrl),
     Parser.parseSkillUrl raw = Parser.Ok r ->
     is_lowercase (Parser.owner r)
     /\ (forall x, Parser.repo r = Some x -> is_lowercase x)
     /\ (forall x, Parser.skill r = Some x -> is_lowercase x))
  /\ (forall coerce_date (fs : list (string * Registry.json)) (k v : string),
       In k ["owner"; "repo"; "name"] -> Registry.get_field k fs = Some (Registry.JStr v) ->
       Schemas.isSafePathSegment v = false ->
       exists m, Registry.validateSkillDetail coerce_date (Registry.JObj fs) = Registry.Thrown m).
Proof.
  split.
  - intros raw r Hp. destruct (LowerFacts.parseSkillUrl_Lc raw r Hp) as [Ho [Hr Hs]].
    split; [by apply LowerFacts.is_lowercase_iff|].
    split; intros x Hx; apply LowerFacts.is_lowercase_iff; [by apply Hr | by apply Hs].
  - intros cd fs k v Hk Hf Hv.
    unfold Registry.validateSkillDetail, Registry.validate.
    destruct (Registry.issues _ [] _) as [|i is] eqn:E; [exfalso | by eexists].
    revert E. destruct Hk as [<-|[<-|[<-|[]]]].
    + apply (RegistrySafety.object_field_issue _ _ _ "owner" Registry.safePathSegmentSchema);
        [simpl; auto 20 |].
      rewrite Hf. exact (proj1 (RegistrySafety.safe_segment_issue _ v Hv)).
    + apply (RegistrySafety.object_field_issue _ _ _ "repo"
               (Registry.SNullable Registry.safePathSegmentSchema)); [simpl; auto 20 |].
      rewrite Hf. exact (proj2 (RegistrySafety.safe_segment_issue _ v Hv)).
    + apply (RegistrySafety.object_field_issue _ _ _ "name" Registry.safePathSegmentSchema);
        [simpl; auto 20 |].
      rewrite Hf. exact (proj1 (RegistrySafety.safe_segment_issue _ v Hv)).
Qed.

(** Instance of [C1_identity_fields_lowercase] on a mixed-case URL, and on
    a skill detail whose [owner] holds a slash. *)
Lemma C1_identity_fields_lowercase_witness :
  (exists r,
     @Parser.parseSkillUrl URL.no_idna "https://GitHub.com/Acme/Tools/tree/main/Skills/Hello.md"
     = Parser.Ok r
     /\ is_lowercase (Parser.owner r))
  /\ exists m,
       Registry.validateSkillDetail (fun _ => [])
         (Registry.JObj [("slug", Registry.JStr "acme/tools/hello"); ("owner", Registry.JStr "a/b");
                         ("repo", Registry.JStr "tools"); ("name", Registry.JStr "hello");
                         ("versions", Registry.JArr [])])
       = Registry.Thrown m.
Proof.
  destruct (@C1_identity_fields_lowercase URL.no_idna) as [Hparse Hreg].
  split.
  - eexists. split; [vm_compute; reflexivity|].
    apply (proj1 (Hparse "https://GitHub.com/Acme/Tools/tree/main/Skills/Hello.md" _ eq_refl)).
  - apply (Hreg _ _ "owner" "a/b"); [simpl; auto | reflexivity | vm_compute; reflexivity].
Defined.

(** ** C5: the git-host scenario *)

(** C5: [parseSkillUrl "https://github.com/acme/tools/tree/main/skills/hello"]
    has host github.com, owner acme, repo tools, ref main, skill hello (the
    leading [skills/] is dropped) and id github.com/acme/tools/hello. *)
Theorem C5_git_host_with_ref {idna : URL.DomainToASCII} :
  Parser.parseSkillUrl "https://github.com/acme/tools/tree/main/skills/hello"
  = Parser.Ok (Parser.mkParsed "github.com" "github.com/acme/tools/hello" "acme"
                 (Some "tools") (Some "hello") (Some "skills/hello") (Some "main")
                 "https://github.com/acme/tools/tree/main/skills/hello").
Proof. vm_compute. reflexivity. Qed.

(** ** C6: identity stability across source conventions *)

(** C6 (counterexample): the claim says every convention naming the same
    skill gives the same id.  The shorthand [acme/tools/tree] reads [tree]
    as the ref type and gives the repository id, while the tree URL of the
    skill [tree] gives [github.com/acme/tools/tree]; and an SSH remote with a
    user other than [git] is not recognised at all. *)
Lemma C6_counterexample :
  (exists p q,
     @Parser.parseSkillUrl URL.no_idna "acme/tools/tree" = Parser.Ok p
     /\ @Parser.parseSkillUrl URL.no_idna "https://github.com/acme/tools/tree/main/tree" = Parser.Ok q
     /\ Parser.id p = "github.com/acme/tools" /\ Parser.id q = "github.com/acme/tools/tree")
  /\ (exists m, @Parser.parseSkillUrl URL.no_idna "alice@github.com:acme/tools.git" = Parser.Err m)
  /\ (exists p, @Parser.parseSkillUrl URL.no_idna "https://github.com/acme/tools.git" = Parser.Ok p
       /\ Parser.id p = "github.com/acme/tools").
Proof.
  split; [|split].
  - do 2 eexists. split; [vm_compute; reflexivity|]. split; [vm_compute; reflexivity|].
    split; vm_compute; reflexivity.
  - eexists. vm_compute. reflexivity.
  - eexists. split; [vm_compute; reflexivity|]. vm_compute. reflexivity.
Qed.

(** C6 (amended): for an owner [o] of [[\w-]] code units, a repository [r]
    and a ref starting with a [[\w-]] code unit and made of [[\w.-]] code
    units ([r] not ending in [.git]), and a skill [s] of [[\w-]] code units
    other than [tree] and [blob]: the https URL, its [.git] form, the SSH
    remote [git@github.com:o/r.git], the shorthand [o/r] and the
    [tree/<ref>] URL all have the id [github.com/o/r] (lower case), and the
    [tree/<ref>/s], [tree/<ref>/skills/s] and [blob/<ref>/s] URLs and the
    shorthands [o/r/s] and [o/r/skills/s] all have the id
    [github.com/o/r/s] (lower case). *)
Theorem C6_identity_stability {idna : URL.DomainToASCII} (o r ref s : string) :
  GitHubFacts.wordseg o = true -> GitHubFacts.seg_okb r = true -> endsWith r ".git" = false ->
  GitHubFacts.seg_okb ref = true -> GitHubFacts.wordseg s = true ->
  s <> "tree" -> s <> "blob" ->
  let repo_id := IdentityStability.repo_id o r in
  let skill_id := IdentityStability.skill_id o r s in
  GitHubFacts.has_id ("https://github.com/" +:+ o +:+ "/" +:+ r) repo_id
  /\ GitHubFacts.has_id ("https://github.com/" +:+ o +:+ "/" +:+ r +:+ ".git") repo_id
  /\ GitHubFacts.has_id ("git@github.com:" +:+ o +:+ "/" +:+ r +:+ ".git") repo_id
  /\ GitHubFacts.has_id (o +:+ "/" +:+ r) repo_id
  /\ GitHubFacts.has_id ("https://github.com/" +:+ o +:+ "/" +:+ r +:+ "/tree/" +:+ ref) repo_id
  /\ GitHubFacts.has_id
       ("https://github.com/" +:+ o +:+ "/" +:+ r +:+ "/tree/" +:+ ref +:+ "/" +:+ s) skill_id
  /\ GitHubFacts.has_id
       ("https://github.com/" +:+ o +:+ "/" +:+ r +:+ "/tree/" +:+ ref +:+ "/skills/" +:+ s) skill_id
  /\ GitHubFacts.has_id
       ("https://github.com/" +:+ o +:+ "/" +:+ r +:+ "/blob/" +:+ ref +:+ "/" +:+ s) skill_id
  /\ GitHubFacts.has_id (o +:+ "/" +:+ r +:+ "/" +:+ s) skill_id
  /\ GitHubFacts.has_id (o +:+ "/" +:+ r +:+ "/skills/" +:+ s) skill_id.
Proof.
  intros Ho Hr Hrg Href Hs Ht Hb repo_id skill_id.
  repeat split.
  - by apply IdentityStability.https_repo.
  - by apply IdentityStability.https_git_repo.
  - by apply IdentityStability.ssh_repo.
  - by apply IdentityStability.shorthand_repo.
  - by apply IdentityStability.tree_repo.
  - by apply IdentityStability.tree_skill.
  - by apply IdentityStability.tree_skills_skill.
  - by apply IdentityStability.blob_skill.
  - by apply IdentityStability.shorthand_skill.
  - by apply IdentityStability.shorthand_skills_skill.
Qed.

(** Instance of [C6_identity_stability]: acme/tools, ref main, skill hello. *)
Lemma C6_identity_stability_witness :
  @GitHubFacts.has_id URL.no_idna "acme/tools/skills/hello" "github.com/acme/tools/hello"
  /\ @GitHubFacts.has_id URL.no_idna "git@github.com:acme/tools.git" "github.com/acme/tools".
Proof.
  destruct (@C6_identity_stability URL.no_idna "acme" "tools" "main" "hello"
              eq_refl eq_refl eq_refl eq_refl eq_refl ltac:(discriminate) ltac:(discriminate))
    as (_ & _ & Hssh & _ & _ & _ & _ & _ & _ & Hsh).
  split; [exact Hsh | exact Hssh].
Defined.

(** ** C8: the name sanitizer *)
Module SanitizeFacts.
Import Sanitize StrFacts.

Lemma replace_runs_spec (b : bool) (s : string) :
  replace_runs b s = squeeze_hyphens b (map_str to_hyphen s).
Proof.
  revert b. induction s as [|c s IH]; intros b; simpl; [done|].
  unfold to_hyphen. destruct (name_char c) eqn:Hc.
  - assert (Ascii.eqb c "-"%char = false) as ->.
    { destruct (Ascii.eqb_spec c "-"%char) as [->|]; [done|done]. }
    by rewrite IH.
  - simpl. destruct b; by rewrite IH.
Qed.

Lemma remove_trailing_run_spec (u : string) :
  remove_trailing_run u = rev_str (drop_leading dot_or_hyphen (rev_str u)).
Proof.
  induction u as [|c t IH]; simpl; [done|].
  destruct (dot_or_hyphen c && forall_chars dot_or_hyphen t) eqn:Hall.
  - rewrite drop_leading_all; [done|].
    rewrite forall_chars_app, forall_chars_rev. simpl.
    apply andb_prop in Hall as [-> ->]. done.
  - destruct (forall_chars dot_or_hyphen t) eqn:Ht.
    + rewrite andb_true_r in Hall.
      assert (rev_str t +:+ String c "" = rev_str t +:+ String c "") as _ by done.
      rewrite IH.
      assert (drop_leading dot_or_hyphen (rev_str t) = "") as ->.
      { apply drop_leading_all. by rewrite forall_chars_rev. }
      assert (drop_leading dot_or_hyphen (rev_str t +:+ String c "") = String c "") as ->.
      { clear IH. rewrite <- (forall_chars_rev dot_or_hyphen t) in Ht.
        induction (rev_str t) as [|x r IHr]; simpl; [by rewrite Hall|].
        simpl in Ht. apply andb_prop in Ht as [-> Hr]. by apply IHr. }
      done.
    + rewrite drop_leading_app; [|by rewrite forall_chars_rev].
      rewrite rev_str_app, IH. done.
Qed.

Lemma strip_spec (s : string) : strip_dots_hyphens s = strip_both_ends s.
Proof.
  unfold strip_dots_hyphens, strip_both_ends.
  rewrite remove_trailing_run_spec. f_equal. f_equal. f_equal.
  destruct s as [|c t]; [done|]. simpl.
  destruct (dot_or_hyphen c); done.
Qed.

End SanitizeFacts.

(** C8: [sanitizeName] is a total function on strings whose result is the
    input lowercased, with each run of code units outside [[a-z0-9._]]
    collapsed to one hyphen, leading and trailing dots and hyphens stripped,
    truncated to 255 code units, and ["unnamed-skill"] when that is empty;
    the result is never empty and at most 255 code units long. *)
Theorem C8_sanitizeName_pipeline (name : string) :
  Sanitize.sanitizeName name = Sanitize.sanitize_spec name
  /\ String.length (Sanitize.sanitizeName name) <= 255
  /\ Sanitize.sanitizeName name <> "".
Proof.
  unfold Sanitize.sanitizeName, Sanitize.sanitize_spec, Sanitize.MAX_NAME_LENGTH,
    Sanitize.FALLBACK_NAME.
  rewrite SanitizeFacts.replace_runs_spec, SanitizeFacts.strip_spec.
  set (r := Sanitize.strip_both_ends _).
  pose proof (StrFacts.substring0_length 255 r) as Hlen.
  destruct (String.substring 0 255 r) as [|c t] eqn:Hsub; simpl.
  - repeat split; [simpl; lia | done].
  - repeat split; [simpl in Hlen; simpl; lia | done].
Qed.

(** ** C10: the install index is an upsert on (owner, repo, name) *)

Module IndexFacts.
Import Index.

Lemma same_key_true (s r : InstalledSkill) :
  same_key (owner s) (repo s) (name s) r = true <-> skill_key r = skill_key s.
Proof.
  unfold same_key, skill_key. rewrite !andb_true_iff, !bool_decide_eq_true.
  split; [intros [[-> ->] ->]; done | intros Heq; injection Heq; auto].
Qed.

Lemma findIndex_Some {A} (p : A -> bool) (l : list A) (i : nat) :
  findIndex p l = Some i -> exists x, l !! i = Some x /\ p x = true.
Proof.
  revert i. induction l as [|y l IH]; intros i; simpl; [done|].
  destruct (p y) eqn:Hy.
  - intros [= <-]. eauto.
  - destruct (findIndex p l) as [j|] eqn:Hj; simpl; [|done].
    intros [= <-]. simpl. by apply IH.
Qed.

Lemma findIndex_None {A} (p : A -> bool) (l : list A) :
  findIndex p l = None -> forall x, In x l -> p x = false.
Proof.
  induction l as [|y l IH]; simpl; [done|].
  destruct (p y) eqn:Hy; [done|].
  destruct (findIndex p l); simpl; [done|].
  intros _ x [<-|Hx]; auto.
Qed.

Lemma map_list_insert {A B} (f : A -> B) (l : list A) (i : nat) (x : A) :
  List.map f (<[i := x]> l) = <[i := f x]> (List.map f l).
Proof.
  revert i. induction l as [|y l IH]; intros [|i]; simpl; try done.
  by rewrite IH.
Qed.

Lemma list_insert_same {A} (l : list A) (i : nat) (x : A) :
  l !! i = Some x -> <[i := x]> l = l.
Proof.
  revert i. induction l as [|y l IH]; intros [|i]; simpl; try done.
  - by intros [= ->].
  - intros H. by rewrite IH.
Qed.

Lemma map_lookup_Some {A B} (f : A -> B) (l : list A) (i : nat) (x : A) :
  l !! i = Some x -> List.map f l !! i = Some (f x).
Proof.
  revert i. induction l as [|y l IH]; intros [|i]; simpl; try done.
  - by intros [= ->].
  - apply IH.
Qed.

(** Replacing a record by one with the same key leaves the key list as it was. *)
Lemma add_keys_found (s : InstalledSkill) (l : list InstalledSkill) (i : nat) :
  findIndex (same_key (owner s) (repo s) (name s)) l = Some i ->
  List.map skill_key (addInstalledSkill s l) = List.map skill_key l.
Proof.
  intros Hi. unfold addInstalledSkill. rewrite Hi.
  destruct (findIndex_Some _ _ _ Hi) as (r & Hr & Hk).
  apply same_key_true in Hk.
  rewrite map_list_insert, <- Hk.
  apply list_insert_same, map_lookup_Some, Hr.
Qed.

Lemma add_NoDup (s : InstalledSkill) (l : list InstalledSkill) :
  NoDup (List.map skill_key l) -> NoDup (List.map skill_key (addInstalledSkill s l)).
Proof.
  intros Hnd.
  destruct (findIndex (same_key (owner s) (repo s) (name s)) l) as [i|] eqn:Hi.
  - by rewrite (add_keys_found s l i Hi).
  - unfold addInstalledSkill. rewrite Hi, List.map_app. simpl.
    apply NoDup_app. split; [done|]. split; [|apply NoDup_singleton].
    intros k Hk Hin. apply list_elem_of_singleton in Hin. subst k.
    apply list_elem_of_In, in_map_iff in Hk as (r & Hkr & Hr).
    pose proof (findIndex_None _ _ Hi r Hr) as Hf.
    assert (same_key (owner s) (repo s) (name s) r = true) as Ht by by apply same_key_true.
    congruence.
Qed.

Lemma filter_map_NoDup {A K} (key : A -> K) (f : A -> bool) (l : list A) :
  NoDup (List.map key l) -> NoDup (List.map key (List.filter f l)).
Proof.
  induction l as [|x l IH]; simpl; [done|].
  intros Hnd. apply NoDup_cons in Hnd as [Hx Hl].
  destruct (f x); simpl; [|auto].
  apply NoDup_cons. split; [|auto].
  intros Hin. apply Hx.
  apply list_elem_of_In, in_map_iff in Hin as (y & Hy & Hyin).
  apply filter_In in Hyin as [Hyin _].
  apply list_elem_of_In, in_map_iff. eauto.
Qed.

Lemma run_calls_NoDup (cs : list IndexCall) (l : list InstalledSkill) :
  NoDup (List.map skill_key l) -> NoDup (List.map skill_key (run_calls cs l)).
Proof.
  unfold run_calls. revert l. induction cs as [|c cs IH]; intros l Hl; simpl; [done|].
  apply IH. destruct c; simpl; [by apply add_NoDup | by apply filter_map_NoDup].
Qed.

Lemma findIndex_exists {A} (p : A -> bool) (l : list A) (x : A) :
  In x l -> p x = true -> exists i, findIndex p l = Some i.
Proof.
  intros Hin Hp. destruct (findIndex p l) as [i|] eqn:Hi; [eauto|].
  by rewrite (findIndex_None p l Hi x Hin) in Hp.
Qed.

End IndexFacts.

(** C10: [addInstalledSkill] is an upsert keyed on [(owner, repo, name)]:
    when the index holds a record with the key of [skill], the result is the
    index with one such record (at position [i]) replaced by [skill], of the
    same length; and after any sequence of [addInstalledSkill] and
    [removeInstalledSkill] calls starting from an index whose keys are
    pairwise distinct, the keys are still pairwise distinct. *)
Theorem C10_index_upsert_unique :
  (forall (skill : Index.InstalledSkill) (l : list Index.InstalledSkill) (r : Index.InstalledSkill),
     In r l -> Index.skill_key r = Index.skill_key skill ->
     exists i, i < length l
       /\ (exists old, l !! i = Some old /\ Index.skill_key old = Index.skill_key skill)
       /\ Index.addInstalledSkill skill l = <[i := skill]> l
       /\ length (Index.addInstalledSkill skill l) = length l)
  /\ (forall (cs : list Index.IndexCall) (l : list Index.InstalledSkill),
     NoDup (List.map Index.skill_key l) ->
     NoDup (List.map Index.skill_key (Index.run_calls cs l))).
Proof.
  split; [|exact IndexFacts.run_calls_NoDup].
  intros skill l r Hin Hk.
  assert (Index.same_key (Index.owner skill) (Index.repo skill) (Index.name skill) r = true) as Hr
    by by apply IndexFacts.same_key_true.
  destruct (IndexFacts.findIndex_exists _ _ _ Hin Hr) as [i Hi].
  destruct (IndexFacts.findIndex_Some _ _ _ Hi) as (old & Hold & Hok).
  exists i. split; [by eapply lookup_lt_Some|].
  split; [exists old; split; [done | by apply IndexFacts.same_key_true]|].
  unfold Index.addInstalledSkill. rewrite Hi.
  split; [done|]. by rewrite length_insert.
Qed.

(** ** C9: the validator's messages *)

Module RegistryFacts.
Import Registry.

(** The paths a schema can report, below the path it is parsed at: keys of
    its object shapes, its discriminator, and array indices. *)
Inductive schema_path : schema -> list PathElem -> Prop :=
  | sp_here sc : schema_path sc []
  | sp_optional s q : schema_path s q -> schema_path (SOptional s) q
  | sp_nullable s q : schema_path s q -> schema_path (SNullable s) q
  | sp_default s q : schema_path s q -> schema_path (SDefault s) q
  | sp_field shape k s q :
      In (k, s) shape -> schema_path s q -> schema_path (SObject shape) (PKey k :: q)
  | sp_index s i q : schema_path s q -> schema_path (SArray s) (PIdx i :: q)
  | sp_disc d opts : schema_path (SDiscUnion d opts) [PKey d]
  | sp_option d opts tag s q :
      In (tag, s) opts -> schema_path s q -> schema_path (SDiscUnion d opts) q.

(** A schema with no object, array or union inside: all its issues are at
    the path it is parsed at. *)
Fixpoint flat (sc : schema) : bool :=
  match sc with
  | SLeaf _ => true
  | SOptional s | SNullable s | SDefault s => flat s
  | _ => false
  end.

Section SchemaInd.
Variable P : schema -> Prop.
Hypothesis Hleaf : forall c, P (SLeaf c).
Hypothesis Hopt : forall s, P s -> P (SOptional s).
Hypothesis Hnull : forall s, P s -> P (SNullable s).
Hypothesis Hdef : forall s, P s -> P (SDefault s).
Hypothesis Hobj : forall shape, List.Forall (fun ks => P (snd ks)) shape -> P (SObject shape).
Hypothesis Harr : forall s, P s -> P (SArray s).
Hypothesis Hdisc : forall d opts, List.Forall (fun ts => P (snd ts)) opts -> P (SDiscUnion d opts).

Fixpoint schema_ind' (sc : schema) : P sc :=
  match sc with
  | SLeaf c => Hleaf c
  | SOptional s => Hopt s (schema_ind' s)
  | SNullable s => Hnull s (schema_ind' s)
  | SDefault s => Hdef s (schema_ind' s)
  | SObject shape =>
      Hobj shape
        ((fix go (l : list (string * schema)) : List.Forall (fun ks => P (snd ks)) l :=
            match l with
            | [] => List.Forall_nil _
            | (k, s) :: t => @List.Forall_cons _ (fun ks => P (snd ks)) (k, s) t (schema_ind' s) (go t)
            end) shape)
  | SArray s => Harr s (schema_ind' s)
  | SDiscUnion d opts =>
      Hdisc d opts
        ((fix go (l : list (string * schema)) : List.Forall (fun ts => P (snd ts)) l :=
            match l with
            | [] => List.Forall_nil _
            | (k, s) :: t => @List.Forall_cons _ (fun ts => P (snd ts)) (k, s) t (schema_ind' s) (go t)
            end) opts)
  end.
End SchemaInd.

Lemma issues_object (shape : list (string * schema)) (p : list PathElem) (fs : list (string * json)) :
  issues (SObject shape) p (Some (JObj fs))
  = List.concat (List.map (fun ks => issues (snd ks) (p ++ [PKey (fst ks)]) (get_field (fst ks) fs)) shape).
Proof.
  induction shape as [|[k s] shape IH]; [done|].
  cbn [List.map List.concat fst snd]. rewrite <- IH. done.
Qed.

Lemma in_concat_imap {A B} (f : nat -> A -> list B) (n : nat) (xs : list A) (y : B) :
  In y (List.concat (imap_from f n xs)) -> exists j x, In x xs /\ In y (f j x).
Proof.
  revert n. induction xs as [|x xs IH]; intros n; simpl; [done|].
  intros [Hy|Hy]%in_app_or.
  - exists n, x. auto.
  - destruct (IH (S n) Hy) as (j & x' & Hx' & Hy'). exists j, x'. auto.
Qed.

Lemma disc_pick_some (d : string) (fs : list (string * json)) (p : list PathElem) (v : option json)
    (opts : list (string * schema)) (is : list ZodIssue) :
  (fix find (os : list (string * schema)) : option (list ZodIssue) :=
     match os with
     | [] => None
     | (tag, s) :: rest =>
         match get_field d fs with
         | Some (JStr t) => if String.eqb t tag then Some (issues s p v) else find rest
         | _ => None
         end
     end) opts = Some is ->
  exists tag s, In (tag, s) opts /\ is = issues s p v.
Proof.
  induction opts as [|[tag s] opts IH]; [done|].
  destruct (get_field d fs) as [[| | | t | |]|]; try done.
  destruct (String.eqb t tag).
  - intros [= <-]. exists tag, s. simpl. auto.
  - intros H. destruct (IH H) as (tag' & s' & Hin & ->). exists tag', s'. simpl. auto.
Qed.

Lemma issues_schema_path (sc : schema) :
  forall p v i, In i (issues sc p v) -> exists q, issue_path i = p ++ q /\ schema_path sc q.
Proof.
  induction sc as [c|s IH|s IH|s IH|shape Hsh|s IH|d opts Hopts] using schema_ind';
    intros p v i Hi.
  - apply in_map_iff in Hi as (c' & <- & _). exists []. split; [by rewrite app_nil_r | constructor].
  - destruct v; [|done]. destruct (IH _ _ _ Hi) as (q & Hq & Hs).
    exists q. split; [done | by constructor].
  - destruct (IH p v i) as (q & Hq & Hs).
    { destruct v as [[]|]; done. }
    exists q. split; [done | by constructor].
  - destruct v; [|done]. destruct (IH _ _ _ Hi) as (q & Hq & Hs).
    exists q. split; [done | by constructor].
  - destruct v as [[| | | | |fs]|];
      try (simpl in Hi; destruct Hi as [<-|[]]; exists []; split; [by rewrite app_nil_r | constructor]).
    rewrite issues_object in Hi.
    apply in_concat in Hi as (blk & Hblk & Hi).
    apply in_map_iff in Hblk as ([k s] & <- & Hks).
    rewrite List.Forall_forall in Hsh.
    destruct (Hsh (k, s) Hks _ _ _ Hi) as (q & Hq & Hs). simpl in Hq.
    exists (PKey k :: q). split; [by rewrite Hq, <- app_assoc | by eapply sp_field].
  - destruct v as [[| | | |xs|]|];
      try (simpl in Hi; destruct Hi as [<-|[]]; exists []; split; [by rewrite app_nil_r | constructor]).
    simpl in Hi. apply in_concat_imap in Hi as (j & x & _ & Hi).
    destruct (IH _ _ _ Hi) as (q & Hq & Hs).
    exists (PIdx j :: q). split; [by rewrite Hq, <- app_assoc | by constructor].
  - destruct v as [[| | | | |fs]|];
      try (simpl in Hi; destruct Hi as [<-|[]]; exists []; split; [by rewrite app_nil_r | constructor]).
    simpl in Hi.
    match type of Hi with
    | In i (match ?M with Some is => is | None => _ end) => destruct M as [is|] eqn:Hpick
    end.
    + destruct (disc_pick_some _ _ _ _ _ _ Hpick) as (tag & s & Hin & ->).
      rewrite List.Forall_forall in Hopts.
      destruct (Hopts (tag, s) Hin _ _ _ Hi) as (q & Hq & Hs).
      exists q. split; [done | by eapply sp_option].
    + destruct Hi as [<-|[]]. exists [PKey d]. split; [done | constructor].
Qed.

Lemma flat_paths (sc : schema) :
  flat sc = true -> forall p v i, In i (issues sc p v) -> issue_path i = p.
Proof.
  induction sc; simpl; try done; intros Hf p v i Hi.
  - by apply in_map_iff in Hi as (c & <- & _).
  - destruct v; [by eapply IHsc | done].
  - destruct v as [[]|]; try done; by eapply IHsc.
  - destruct v; [by eapply IHsc | done].
Qed.

Lemma existsb_eqb_app (x : string) (l : list string) :
  existsb (String.eqb x) (l ++ [x]) = true.
Proof. rewrite existsb_app. simpl. by rewrite String.eqb_refl, orb_true_r. Qed.

Lemma dedupe_dup (seen A B : list string) (x : string) :
  dedupe_from seen (A ++ x :: x :: B) = dedupe_from seen (A ++ x :: B).
Proof.
  revert seen. induction A as [|a A IH]; intros seen; simpl.
  - destruct (existsb (String.eqb x) seen) eqn:Hx; [done|].
    by rewrite existsb_eqb_app.
  - destruct (existsb (String.eqb a) seen); by rewrite IH.
Qed.

Lemma dedupe_repeat (A B : list string) (x : string) (n : nat) :
  dedupe_from [] (A ++ repeat x (S n) ++ B) = dedupe_from [] (A ++ x :: B).
Proof.
  induction n as [|n IH]; [done|].
  change (repeat x (S (S n)) ++ B) with (x :: x :: (repeat x n ++ B)).
  rewrite dedupe_dup. exact IH.
Qed.

Lemma filter_nonempty_app (A B : list string) :
  filter_nonempty (A ++ B) = filter_nonempty A ++ filter_nonempty B.
Proof.
  unfold filter_nonempty. induction A as [|a A IH]; simpl; [done|].
  destruct (negb (String.eqb a "")); simpl; by rewrite IH.
Qed.

Definition path_string (i : ZodIssue) : string :=
  JS.join (List.map elem_to_string (issue_path i)) ".".

Lemma filter_nonempty_repeat (k : string) (n : nat) :
  filter_nonempty (repeat k n) = if String.eqb k "" then [] else repeat k n.
Proof.
  unfold filter_nonempty. induction n as [|n IH]; simpl.
  - by destruct (String.eqb k "").
  - rewrite IH. by destruct (String.eqb k "").
Qed.

(** The message depends on the issues only through their paths. *)
Lemma format_paths (is1 is2 : list ZodIssue) :
  List.map issue_path is1 = List.map issue_path is2 -> formatZodIssues is1 = formatZodIssues is2.
Proof.
  intros H. unfold formatZodIssues.
  replace (List.map (fun i => JS.join (List.map elem_to_string (issue_path i)) ".") is1)
    with (List.map (fun p => JS.join (List.map elem_to_string p) ".") (List.map issue_path is1))
    by by rewrite List.map_map.
  replace (List.map (fun i => JS.join (List.map elem_to_string (issue_path i)) ".") is2)
    with (List.map (fun p => JS.join (List.map elem_to_string p) ".") (List.map issue_path is2))
    by by rewrite List.map_map.
  by rewrite H.
Qed.

(** The option a discriminated union picks: the first whose literal equals
    the payload's discriminator. *)
Fixpoint pick (d : string) (fs : list (string * json)) (opts : list (string * schema))
    : option schema :=
  match opts with
  | [] => None
  | (tag, s) :: rest =>
      match get_field d fs with
      | Some (JStr t) => if String.eqb t tag then Some s else pick d fs rest
      | _ => None
      end
  end.

(** Two (possibly absent) values that are equal except below path [q]:
    at an object key every other key reads the same, at an array index the
    arrays have the same length and every other element is the same. *)
Inductive agree_except : list PathElem -> option json -> option json -> Prop :=
  | ae_here v1 v2 : agree_except [] v1 v2
  | ae_key k q fs1 fs2 :
      (forall k', k' <> k -> get_field k' fs1 = get_field k' fs2) ->
      agree_except q (get_field k fs1) (get_field k fs2) ->
      agree_except (PKey k :: q) (Some (JObj fs1)) (Some (JObj fs2))
  | ae_index i q xs1 xs2 :
      length xs1 = length xs2 -> (forall j, j <> i -> xs1 !! j = xs2 !! j) ->
      agree_except q (xs1 !! i) (xs2 !! i) ->
      agree_except (PIdx i :: q) (Some (JArr xs1)) (Some (JArr xs2)).

(** [fails_at sc v q]: parsing [v] with [sc], the value at [q] is parsed by
    a schema with no object, array or union inside (a scalar field) and
    fails it, or [q] is the discriminator of a union that matches no
    option. *)
Inductive fails_at : schema -> option json -> list PathElem -> Prop :=
  | fa_here F v : flat F = true -> issues F [] v <> [] -> fails_at F v []
  | fa_optional s v q : q <> [] -> fails_at s v q -> fails_at (SOptional s) v q
  | fa_nullable s v q : q <> [] -> fails_at s v q -> fails_at (SNullable s) v q
  | fa_default s v q : q <> [] -> fails_at s v q -> fails_at (SDefault s) v q
  | fa_field shape fs k s q :
      NoDup (List.map fst shape) -> In (k, s) shape ->
      fails_at s (get_field k fs) q -> fails_at (SObject shape) (Some (JObj fs)) (PKey k :: q)
  | fa_index s xs i x q :
      xs !! i = Some x -> fails_at s (Some x) q -> fails_at (SArray s) (Some (JArr xs)) (PIdx i :: q)
  | fa_option d opts fs s q :
      pick d fs opts = Some s -> q <> [] -> (forall q', q <> PKey d :: q') ->
      fails_at s (Some (JObj fs)) q -> fails_at (SDiscUnion d opts) (Some (JObj fs)) q
  | fa_disc d opts fs :
      pick d fs opts = None -> fails_at (SDiscUnion d opts) (Some (JObj fs)) [PKey d].

Lemma issues_union (d : string) (opts : list (string * schema)) (p : list PathElem)
    (fs : list (string * json)) :
  issues (SDiscUnion d opts) p (Some (JObj fs))
  = match pick d fs opts with
    | Some s => issues s p (Some (JObj fs))
    | None => [mkIssue (p ++ [PKey d]) "invalid_union_discriminator"]
    end.
Proof.
  simpl. induction opts as [|[tag s] opts IH]; [done|]. simpl.
  destruct (get_field d fs) as [[| | | t | |]|]; try done.
  destruct (String.eqb t tag); [done|]. exact IH.
Qed.

Lemma pick_agree (d : string) (fs1 fs2 : list (string * json)) (opts : list (string * schema)) :
  get_field d fs1 = get_field d fs2 -> pick d fs1 opts = pick d fs2 opts.
Proof. intros H. induction opts as [|[tag s] opts IH]; simpl; [done|]. by rewrite H, IH. Qed.

Lemma fails_at_object (sc : schema) (v : option json) (q : list PathElem) :
  fails_at sc v q -> q <> [] ->
  match v with Some (JObj _) | Some (JArr _) => True | _ => False end.
Proof. induction 1; intros Hq; try done; by apply IHfails_at. Qed.

Lemma flat_nil (F : schema) (p p' : list PathElem) (v : option json) :
  flat F = true -> issues F p v = [] -> issues F p' v = [].
Proof.
  revert v. induction F; simpl; try done; intros v Hf.
  - intros H. apply map_eq_nil in H. by rewrite H.
  - destruct v; [by apply IHF | done].
  - destruct v as [[]|]; try done; by apply IHF.
  - destruct v; [by apply IHF | done].
Qed.

Lemma imap_from_mid {A B} (f : nat -> A -> B) (n : nat) (l1 l2 : list A) (x : A) :
  imap_from f n (l1 ++ x :: l2)
  = imap_from f n l1 ++ f (n + length l1) x :: imap_from f (S (n + length l1)) l2.
Proof.
  revert n. induction l1 as [|y l1 IH]; intros n; simpl.
  - by rewrite Nat.add_0_r.
  - rewrite IH. simpl. by rewrite Nat.add_succ_r.
Qed.

Lemma list_agree_except {A} (xs1 xs2 : list A) (i : nat) :
  length xs1 = length xs2 -> (forall j, j <> i -> xs1 !! j = xs2 !! j) ->
  take i xs1 = take i xs2 /\ drop (S i) xs1 = drop (S i) xs2.
Proof.
  intros Hl H. split; apply list_eq; intros j.
  - rewrite !lookup_take. case_decide; [apply H; lia | done].
  - rewrite !lookup_drop. apply H. lia.
Qed.

(** The issues of two payloads that differ only at [q], both failing there:
    the same issues around, and a non-empty block at [p ++ q] each. *)
Lemma fails_at_split (sc : schema) (v1 : option json) (q : list PathElem) :
  fails_at sc v1 q -> forall v2 p, fails_at sc v2 q -> agree_except q v1 v2 ->
  exists X Y I1 I2,
    issues sc p v1 = X ++ I1 ++ Y /\ issues sc p v2 = X ++ I2 ++ Y
    /\ I1 <> [] /\ I2 <> []
    /\ (forall i, In i I1 -> issue_path i = p ++ q)
    /\ (forall i, In i I2 -> issue_path i = p ++ q).
Proof.
  induction 1 as [F v1 Hflat Hbad|s v1 q Hq H1 IH|s v1 q Hq H1 IH|s v1 q Hq H1 IH
                 |shape fs1 k s q Hnd Hin H1 IH|s xs1 i x1 q Hx1 H1 IH
                 |d opts fs1 s q Hpick Hq Hnd H1 IH|d opts fs1 Hpick];
    intros v2 p H2 Hae.
  - inversion H2; subst; try congruence.
    exists [], [], (issues F p v1), (issues F p v2).
    rewrite !app_nil_r. split; [done|]. split; [done|].
    split; [intros Hn; by apply Hbad, (flat_nil F p [])|].
    split; [intros Hn; by apply H0, (flat_nil F p [])|].
    split; intros i Hi; by eapply flat_paths.
  - inversion H2; subst; [done|].
    match goal with H : fails_at s v2 q |- _ => rename H into H6 end.
    pose proof (fails_at_object _ _ _ H1 Hq) as Ho1.
    pose proof (fails_at_object _ _ _ H6 Hq) as Ho2.
    destruct v1 as [j1|]; [|done]. destruct v2 as [j2|]; [|done].
    exact (IH _ p H6 Hae).
  - inversion H2; subst; [done|].
    match goal with H : fails_at s v2 q |- _ => rename H into H6 end.
    pose proof (fails_at_object _ _ _ H1 Hq) as Ho1.
    pose proof (fails_at_object _ _ _ H6 Hq) as Ho2.
    destruct (IH _ p H6 Hae) as (X & Y & I1 & I2 & E1 & E2 & R).
    exists X, Y, I1, I2. simpl.
    destruct v1 as [[]|]; try done; destruct v2 as [[]|]; done.
  - inversion H2; subst; [done|].
    match goal with H : fails_at s v2 q |- _ => rename H into H6 end.
    pose proof (fails_at_object _ _ _ H1 Hq) as Ho1.
    pose proof (fails_at_object _ _ _ H6 Hq) as Ho2.
    destruct v1 as [j1|]; [|done]. destruct v2 as [j2|]; [|done].
    exact (IH _ p H6 Hae).
  - inversion H2 as [| | | |shape' fs2 k' s' q' Hnd' Hin' H2' | | |]; subst.
    inversion Hae as [|k'' q'' fs1' fs2' Hagree Hae' | ]; subst.
    assert (s' = s) as ->.
    { destruct (in_split _ _ Hin) as (sh1 & sh2 & ->).
      rewrite List.map_app in Hnd. simpl in Hnd.
      apply NoDup_app in Hnd as (_ & Hdisj & Hnd2).
      apply in_app_or in Hin' as [Hin'|[Heq|Hin']].
      - exfalso. apply (Hdisj k); [|by left].
        apply list_elem_of_In, in_map_iff. by exists (k, s').
      - by injection Heq.
      - exfalso. apply NoDup_cons in Hnd2 as [Hk _]. apply Hk.
        apply list_elem_of_In, in_map_iff. by exists (k, s'). }
    destruct (IH _ (p ++ [PKey k]) H2' Hae') as (X & Y & I1 & I2 & E1 & E2 & N1 & N2 & P1 & P2).
    destruct (in_split _ _ Hin) as (sh1 & sh2 & ->).
    rewrite List.map_app in Hnd. simpl in Hnd.
    apply NoDup_app in Hnd as (_ & Hdisj & Hnd2).
    assert (~ In k (List.map fst sh1)) as Hk1.
    { intros Hk. apply (Hdisj k); [by apply list_elem_of_In | by left]. }
    apply NoDup_cons in Hnd2 as [Hk2 _].
    assert (~ In k (List.map fst sh2)) as Hk2'.
    { intros Hk. apply Hk2. by apply list_elem_of_In. }
    set (blocks fs := List.map (fun ks => issues (snd ks) (p ++ [PKey (fst ks)]) (get_field (fst ks) fs))).
    assert (forall sh, ~ In k (List.map fst sh) -> blocks fs1 sh = blocks fs2 sh) as Hsame.
    { intros sh Hsh. apply map_ext_in. intros [k' s'] Hks. simpl.
      rewrite Hagree; [done|]. intros Heq. apply Hsh, in_map_iff.
      exists (k', s'). split; [exact Heq | exact Hks]. }
    rewrite !issues_object, !List.map_app, !List.concat_app. simpl.
    fold (blocks fs1 sh1) (blocks fs1 sh2) (blocks fs2 sh1) (blocks fs2 sh2).
    rewrite E1, E2, (Hsame sh1 Hk1), (Hsame sh2 Hk2').
    exists (List.concat (blocks fs2 sh1) ++ X), (Y ++ List.concat (blocks fs2 sh2)), I1, I2.
    rewrite <- !app_assoc. split; [done|]. split; [done|].
    split; [done|]. split; [done|].
    split; intros i Hi; [rewrite (P1 i Hi) | rewrite (P2 i Hi)]; by rewrite <- app_assoc.
  - inversion H2 as [| | | | |s' xs2 i' x2 q' Hx2 H2' | |]; subst.
    inversion Hae as [| |i'' q'' xs1' xs2' Hlen Hagree Hae']; subst.
    rewrite Hx1, Hx2 in Hae'.
    destruct (IH _ (p ++ [PIdx i]) H2' Hae') as (X & Y & I1 & I2 & E1 & E2 & N1 & N2 & P1 & P2).
    destruct (list_agree_except _ _ _ Hlen Hagree) as [Ht Hd].
    pose proof (take_drop_middle _ _ _ Hx1) as Hm1.
    pose proof (take_drop_middle _ _ _ Hx2) as Hm2.
    assert (length (take i xs1) = i) as Hti.
    { rewrite length_take. apply lookup_lt_Some in Hx1. lia. }
    simpl. rewrite <- Hm1, <- Hm2, !imap_from_mid, <- Ht, <- Hd, Hti.
    rewrite !List.concat_app. simpl. rewrite E1, E2.
    exists (List.concat (imap_from (fun i0 x => issues s (p ++ [PIdx i0]) (Some x)) 0 (take i xs1)) ++ X),
      (Y ++ List.concat (imap_from (fun i0 x => issues s (p ++ [PIdx i0]) (Some x)) (S (0 + i)) (drop (S i) xs1))),
      I1, I2.
    rewrite <- !app_assoc. split; [done|]. split; [done|].
    split; [done|]. split; [done|].
    split; intros i0 Hi; [rewrite (P1 i0 Hi) | rewrite (P2 i0 Hi)]; by rewrite <- app_assoc.
  - inversion H2 as [F' v' Hf|
                     | | | | |d' opts' fs2 s' q' Hpick' Hq' Hnd' H2'|d' opts' fs2 Hpick']; subst;
      [done| |by destruct (Hnd [])].
    inversion Hae as [|k q'' fs1' fs2' Hagree Hae'|]; subst; [done|].
    assert (k <> d) as Hkd by (intros ->; by apply (Hnd q'')).
    pose proof (pick_agree d fs1 fs2 opts (Hagree d (not_eq_sym Hkd))) as Hp.
    rewrite <- Hp, Hpick in Hpick'. injection Hpick' as <-.
    rewrite !issues_union, <- Hp, Hpick.
    by apply IH.
  - inversion H2 as [F' v' Hf|
                     | | | | |d' opts' fs2 s' q' Hpick' Hq' Hnd' H2'|d' opts' fs2 Hpick']; subst;
      [by destruct (Hnd' [])|].
    rewrite !issues_union, Hpick, Hpick'.
    exists [], [], [mkIssue (p ++ [PKey d]) "invalid_union_discriminator"],
      [mkIssue (p ++ [PKey d]) "invalid_union_discriminator"].
    rewrite !app_nil_r. split; [done|]. split; [done|]. split; [done|]. split; [done|].
    split; intros i [<-|[]]; done.
Qed.

Lemma path_strings_at (P : list PathElem) (I : list ZodIssue) :
  (forall i, In i I -> issue_path i = P) ->
  List.map path_string I = repeat (JS.join (List.map elem_to_string P) ".") (length I).
Proof.
  induction I as [|i I IH]; intros H; simpl; [done|].
  unfold path_string at 1. rewrite (H i (or_introl eq_refl)).
  f_equal. apply IH. intros j Hj. apply H. by right.
Qed.

Lemma format_block_at (X Y I1 I2 : list ZodIssue) (P : list PathElem) :
  (forall i, In i I1 -> issue_path i = P) ->
  (forall i, In i I2 -> issue_path i = P) ->
  I1 <> [] -> I2 <> [] ->
  formatZodIssues (X ++ I1 ++ Y) = formatZodIssues (X ++ I2 ++ Y).
Proof.
  intros H1 H2 Hn1 Hn2. unfold formatZodIssues.
  fold path_string.
  rewrite !List.map_app, !filter_nonempty_app,
    (path_strings_at P I1 H1), (path_strings_at P I2 H2), !filter_nonempty_repeat.
  destruct (String.eqb _ ""); [done|].
  destruct I1 as [|i1 I1]; [done|]. destruct I2 as [|i2 I2]; [done|].
  cbn [length]. rewrite !dedupe_repeat. done.
Qed.

(** Two payloads that differ only at [q], where both fail a scalar field (or
    an unmatched discriminator), get the same message. *)
Lemma fails_at_message (sc : schema) (raw1 raw2 : json) (q : list PathElem) :
  fails_at sc (Some raw1) q -> fails_at sc (Some raw2) q -> agree_except q (Some raw1) (Some raw2) ->
  validate sc raw1 = validate sc raw2.
Proof.
  intros H1 H2 Hae.
  destruct (fails_at_split sc _ q H1 _ [] H2 Hae) as (X & Y & I1 & I2 & E1 & E2 & N1 & N2 & P1 & P2).
  unfold validate. rewrite E1, E2.
  destruct (X ++ I1 ++ Y) as [|a l] eqn:Ha.
  { apply app_eq_nil in Ha as [_ Ha]. by apply app_eq_nil in Ha as [Ha _]. }
  destruct (X ++ I2 ++ Y) as [|b l'] eqn:Hb.
  { apply app_eq_nil in Hb as [_ Hb]. by apply app_eq_nil in Hb as [Hb _]. }
  rewrite <- Ha, <- Hb. f_equal. by apply (format_block_at X Y I1 I2 ([] ++ q)).
Qed.


End RegistryFacts.

(** C9 (counterexample): two detail payloads that differ only in the value
    of [versions], both invalid there, get different messages: the failing
    index of an array field is part of the path the message names.  This
    holds whatever [z.coerce.date()] does (no date field is present). *)
Lemma C9_counterexample :
  (forall coerce_date,
     Registry.validateSkillDetail coerce_date
       (Registry.JObj [("slug", Registry.JStr "acme/tools/hello"); ("owner", Registry.JStr "acme");
                       ("repo", Registry.JStr "tools"); ("name", Registry.JStr "hello");
                       ("versions", Registry.JNum 5)])
     = Registry.Thrown "Registry returned an invalid response (invalid fields: versions)."
     /\ Registry.validateSkillDetail coerce_date
       (Registry.JObj [("slug", Registry.JStr "acme/tools/hello"); ("owner", Registry.JStr "acme");
                       ("repo", Registry.JStr "tools"); ("name", Registry.JStr "hello");
                       ("versions", Registry.JArr [Registry.JNum 5])])
     = Registry.Thrown "Registry returned an invalid response (invalid fields: versions.0).")
  /\ "Registry returned an invalid response (invalid fields: versions)."
     <> "Registry returned an invalid response (invalid fields: versions.0).".
Proof.
  split; [intros coerce_date; split; reflexivity | discriminate].
Qed.

(** C9 (amended): the message thrown for an invalid payload is
    [formatZodIssues] of the (non-empty) issue list; it depends on the issues
    only through their paths, and every path is made of the schema's own
    field names and discriminator and of array indices, so no string of the
    payload appears in it.  For any schema, two payloads that agree
    everywhere except at one path [q] (object keys and array indices, at any
    depth), where both fail: the value at [q] fails a scalar field schema
    (no object, array or union inside), reached through object fields with
    distinct keys, array elements and the picked option of a discriminated
    union, or [q] is a discriminator matching no option; they get the same
    message. *)
Theorem C9_message_from_schema_paths :
  (forall is1 is2 : list Registry.ZodIssue,
     List.map Registry.issue_path is1 = List.map Registry.issue_path is2 ->
     Registry.formatZodIssues is1 = Registry.formatZodIssues is2)
  /\ (forall (sc : Registry.schema) (raw : Registry.json) (m : string),
        Registry.validate sc raw = Registry.Thrown m ->
        exists is, is <> [] /\ m = Registry.formatZodIssues is
          /\ List.Forall (fun i => RegistryFacts.schema_path sc (Registry.issue_path i)) is)
  /\ (forall (sc : Registry.schema) (raw1 raw2 : Registry.json) (q : list Registry.PathElem),
        RegistryFacts.fails_at sc (Some raw1) q -> RegistryFacts.fails_at sc (Some raw2) q ->
        RegistryFacts.agree_except q (Some raw1) (Some raw2) ->
        Registry.validate sc raw1 = Registry.validate sc raw2).
Proof.
  split; [exact RegistryFacts.format_paths|]. split; [|exact RegistryFacts.fails_at_message].
  intros sc raw m Hv. unfold Registry.validate in Hv.
  destruct (Registry.issues sc [] (Some raw)) as [|i0 is] eqn:His; [done|].
  injection Hv as <-. exists (i0 :: is). split; [done|]. split; [done|].
  apply List.Forall_forall. intros i Hi. rewrite <- His in Hi.
  destruct (RegistryFacts.issues_schema_path sc [] (Some raw) i Hi) as (q & Hq & Hs).
  by rewrite Hq.
Qed.

(** A skill detail whose first version has a [hash] that is not 64
    characters long. *)
Definition c9_payload (h : string) : Registry.json :=
  Registry.JObj [("slug", Registry.JStr "acme/tools/hello"); ("owner", Registry.JStr "acme");
                 ("repo", Registry.JStr "tools"); ("name", Registry.JStr "hello");
                 ("versions", Registry.JArr [Registry.JObj [("version", Registry.JStr "1.0.0");
                                                            ("hash", Registry.JStr h)]])].

(** Instance of [C9_message_from_schema_paths]: two detail payloads that
    differ only in the invalid [hash] of [versions.0] get the same
    message. *)
Lemma C9_message_from_schema_paths_witness :
  Registry.validateSkillDetail (fun _ => []) (c9_payload "x")
  = Registry.validateSkillDetail (fun _ => []) (c9_payload "yy").
Proof.
  destruct C9_message_from_schema_paths as (_ & _ & Hfail).
  unfold Registry.validateSkillDetail, c9_payload.
  apply (Hfail _ _ _ [Registry.PKey "versions"; Registry.PIdx 0; Registry.PKey "hash"]).
  3: apply RegistryFacts.ae_key;
       [intros k' Hk'; simpl; destruct (String.eqb_spec k' "versions"); [contradiction|reflexivity]|];
     apply RegistryFacts.ae_index; [reflexivity | intros [|j] Hj; [done|reflexivity]|];
     apply RegistryFacts.ae_key;
       [intros k' Hk'; simpl; destruct (String.eqb_spec k' "hash"); [contradiction|reflexivity]|];
     apply RegistryFacts.ae_here.
  all: unfold Registry.apiSkillDetailSchema;
       apply (RegistryFacts.fa_field _ _ "versions"
                (Registry.SArray (Registry.apiSkillVersionSchema (fun _ => []))));
       [apply (bool_decide_unpack _); vm_compute; reflexivity
       | repeat (first [left; reflexivity | right]) |];
       match goal with |- RegistryFacts.fails_at ?s ?v ?q =>
         let v' := eval vm_compute in v in change v with v' end;
       eapply (RegistryFacts.fa_index _ _ 0); [reflexivity|];
       unfold Registry.apiSkillVersionSchema;
       apply (RegistryFacts.fa_field _ _ "hash"
                (Registry.SLeaf (Registry.zstring [("too_small", Registry.exact_len 64)])));
       [apply (bool_decide_unpack _); vm_compute; reflexivity
       | repeat (first [left; reflexivity | right]) |];
       apply RegistryFacts.fa_here; [reflexivity | vm_compute; discriminate].
Defined.

(** ** C2: the signature gate of [vett add] *)

Module AddFacts.
Import Add.

Lemma verify_missing (verify : list Byte.byte -> Registry.json -> option string)
    (b : list Byte.byte) (v : VersionInfo) :
  falsy (sigstoreBundle v) = true -> verifyManifestOrThrow verify b v = Some NO_BUNDLE_MESSAGE.
Proof. intros H. unfold verifyManifestOrThrow. by rewrite H. Qed.

End AddFacts.

(** C2: when the version's Sigstore bundle is absent or falsy, the install
    steps write nothing to the canonical store or to an agent directory and
    exit with status 1; once the artifact is downloaded and its manifest
    parses, the error logged is the missing-bundle message.  In every run,
    each write comes after a successful verification of exactly the
    downloaded bytes. *)
Theorem C2_signature_gate_before_writes :
  (forall dl parse verify skillDir agents detail_id (v : Add.VersionInfo),
     Add.falsy (Add.sigstoreBundle v) = true ->
     List.Forall (fun e => Add.is_write e = false)
       (fst (Add.add_install dl parse verify skillDir agents detail_id v))
     /\ snd (Add.add_install dl parse verify skillDir agents detail_id v) = Add.Exited 1
     /\ (forall id b m, detail_id = Some id -> dl = Some b -> parse b = Some m ->
           fst (Add.add_install dl parse verify skillDir agents detail_id v)
           = [Add.Downloaded b; Add.LoggedError Add.NO_BUNDLE_MESSAGE]))
  /\ (forall dl parse verify skillDir agents detail_id (v : Add.VersionInfo) e,
        In e (fst (Add.add_install dl parse verify skillDir agents detail_id v)) ->
        Add.is_write e = true ->
        exists b pre post,
          dl = Some b /\ Add.verifyManifestOrThrow verify b v = None
          /\ fst (Add.add_install dl parse verify skillDir agents detail_id v)
             = pre ++ Add.SignatureVerified b :: post
          /\ In e post).
Proof.
  split.
  - intros dl parse verify skillDir agents detail_id v Hf.
    unfold Add.add_install.
    destruct detail_id as [id|];
      [|refine (conj _ (conj eq_refl _)); [repeat constructor | intros; congruence]].
    destruct dl as [b|];
      [|refine (conj _ (conj eq_refl _)); [repeat constructor | intros; congruence]].
    destruct (parse b) as [m|] eqn:Hp;
      [|refine (conj _ (conj eq_refl _)); [repeat constructor | intros; congruence]].
    rewrite (AddFacts.verify_missing verify b v Hf).
    split; [repeat constructor|]. split; [done|].
    intros id' b' m' _ [= <-] _. done.
  - intros dl parse verify skillDir agents detail_id v e.
    unfold Add.add_install.
    destruct detail_id as [id|]; [|intros [<-|[]]; done].
    destruct dl as [b|]; [|intros []].
    destruct (parse b) as [m|]; [|intros [<-|[]]; done].
    destruct (Add.verifyManifestOrThrow verify b v) as [err|] eqn:Hv;
      [intros [<-|[<-|[]]]; done|].
    intros Hin Hw. simpl in Hin.
    destruct Hin as [<-|[<-|Hin]]; [done|done|].
    exists b, [Add.Downloaded b]. eexists.
    split; [done|]. split; [done|]. split; [reflexivity|]. exact Hin.
Qed.

(** Instance of [C2_signature_gate_before_writes]: a version without a
    bundle, a download that succeeds and a manifest that parses. *)
Lemma C2_signature_gate_before_writes_witness :
  fst (Add.add_install (Some [Byte.x7b; Byte.x7d])
         (fun _ => Some (Add.mkManifest [Add.mkManifestFile "SKILL.md" "# Demo"]))
         (fun _ _ => None) "/home/u/.vett/skills/acme/tools/hello" ["cursor"]
         (Some "id-1") (Add.mkVersionInfo "1.0.0" "" None))
  = [Add.Downloaded [Byte.x7b; Byte.x7d]; Add.LoggedError Add.NO_BUNDLE_MESSAGE].
Proof.
  destruct C2_signature_gate_before_writes as [Hmissing _].
  destruct (Hmissing (Some [Byte.x7b; Byte.x7d])
              (fun _ => Some (Add.mkManifest [Add.mkManifestFile "SKILL.md" "# Demo"]))
              (fun _ _ => None) "/home/u/.vett/skills/acme/tools/hello" ["cursor"]
              (Some "id-1") (Add.mkVersionInfo "1.0.0" "" None) eq_refl)
    as (_ & _ & Hlog).
  exact (Hlog "id-1" [Byte.x7b; Byte.x7d] (Add.mkManifest [Add.mkManifestFile "SKILL.md" "# Demo"])
           eq_refl eq_refl eq_refl).
Defined.

(* ------------------------------------------------------------------ *)
(** ** C4: the five outcomes of [checkSymlinkStatus] *)

Module InstallerFacts.
Import Installer.

(** [checkSymlinkStatus] in closed form. *)
Lemma checkSymlinkStatus_eq cwd linkPath expectedTarget fs :
  checkSymlinkStatus cwd linkPath expectedTarget fs =
  (Ok (match entry_at fs (key cwd linkPath) with
       | None => missing
       | Some (Link t) =>
           if negb (String.eqb (resolve cwd [dirname linkPath; t]) (resolve cwd [expectedTarget]))
           then wrong_target
           else if negb (bool_decide (stat_follow cwd MAXSYMLINKS fs
                          (key cwd (resolve cwd [dirname linkPath; t])) <> None))
           then broken else ok
       | Some _ => copy
       end), fs).
Proof.
  unfold checkSymlinkStatus, try_catch, bind, lstat, readlink, existsSync, ret.
  destruct (entry_at fs (key cwd linkPath)) as [[|c|t]|] eqn:He;
    cbn -[stat_follow resolve dirname key]; rewrite ?He; try reflexivity.
  destruct (String.eqb _ _); cbn -[stat_follow resolve dirname key]; [|reflexivity].
  destruct (bool_decide _); reflexivity.
Qed.

(** Closes the cases of the characterisation of [checkSymlinkStatus]. *)
Ltac c4_solve :=
  intros;
  repeat match goal with
  | H : exists _, _ |- _ => destruct H
  | H : _ /\ _ |- _ => destruct H
  end;
  first
  [ reflexivity
  | exfalso; congruence
  | eexists; reflexivity
  | eexists; split; [reflexivity|]; intros ? ?; discriminate
  | match goal with
    | H1 : Some (Link _) = Some (Link _) |- _ => injection H1 as <-
    end; first [contradiction | exfalso; congruence]
  | eexists; split; [reflexivity|]; assumption
  | eexists; split; [reflexivity|]; split; [assumption|]; first [assumption | congruence] ].

End InstallerFacts.

(** C4: [checkSymlinkStatus linkPath expectedTarget] never throws and
    changes nothing.  It answers [missing] exactly when nothing exists at
    [linkPath] ([lstat] fails), [copy] exactly when a real entry (not a
    symlink) exists there, and for a symlink with target [t] it compares
    [t] resolved from the link's directory with the resolved expected
    target: [wrong_target] when they differ, otherwise [broken] when the
    resolved target does not exist ([stat] fails) and [ok] when it does. *)
Theorem C4_checkSymlinkStatus_cases (process_cwd linkPath expectedTarget : string)
    (fs : Installer.FS) :
  let r := Installer.checkSymlinkStatus process_cwd linkPath expectedTarget fs in
  let k := Installer.key process_cwd linkPath in
  let resolved t := Installer.resolve process_cwd [Installer.dirname linkPath; t] in
  let expected := Installer.resolve process_cwd [expectedTarget] in
  snd r = fs
  /\ (exists st, fst r = Installer.Ok st)
  /\ (fst r = Installer.Ok Installer.missing <-> Installer.entry_at fs k = None)
  /\ (fst r = Installer.Ok Installer.copy <->
        exists e, Installer.entry_at fs k = Some e /\ forall t, e <> Installer.Link t)
  /\ (fst r = Installer.Ok Installer.wrong_target <->
        exists t, Installer.entry_at fs k = Some (Installer.Link t) /\ resolved t <> expected)
  /\ (fst r = Installer.Ok Installer.broken <->
        exists t, Installer.entry_at fs k = Some (Installer.Link t) /\ resolved t = expected
          /\ Installer.stat_follow process_cwd Installer.MAXSYMLINKS fs
               (Installer.key process_cwd (resolved t)) = None)
  /\ (fst r = Installer.Ok Installer.ok <->
        exists t, Installer.entry_at fs k = Some (Installer.Link t) /\ resolved t = expected
          /\ Installer.stat_follow process_cwd Installer.MAXSYMLINKS fs
               (Installer.key process_cwd (resolved t)) <> None).
Proof.
  cbv zeta. rewrite InstallerFacts.checkSymlinkStatus_eq. cbn [fst snd].
  destruct (Installer.entry_at fs (Installer.key process_cwd linkPath)) as [[|c|t]|] eqn:He.
  1,2,4: repeat match goal with |- _ /\ _ => split | |- _ <-> _ => split end;
    InstallerFacts.c4_solve.
  destruct (String.eqb (Installer.resolve process_cwd [Installer.dirname linkPath; t])
              (Installer.resolve process_cwd [expectedTarget])) eqn:Heq;
    [apply String.eqb_eq in Heq|apply String.eqb_neq in Heq]; cbn [negb].
  - destruct (Installer.stat_follow process_cwd Installer.MAXSYMLINKS fs
      (Installer.key process_cwd (Installer.resolve process_cwd [Installer.dirname linkPath; t])))
      eqn:Hx.
    + rewrite (bool_decide_eq_true_2 (Some e <> None)) by discriminate. cbn [negb].
      repeat match goal with |- _ /\ _ => split | |- _ <-> _ => split end;
        InstallerFacts.c4_solve.
    + rewrite (bool_decide_eq_false_2 (@None Installer.Entry <> None)) by tauto. cbn [negb].
      repeat match goal with |- _ /\ _ => split | |- _ <-> _ => split end;
        InstallerFacts.c4_solve.
  - repeat match goal with |- _ /\ _ => split | |- _ <-> _ => split end;
      InstallerFacts.c4_solve.
Qed.

(* ------------------------------------------------------------------ *)
(** ** Facts about the posix path functions *)

Module PathFacts.
Import Installer.

Definition noslash (s : string) : Prop :=
  forall_chars (fun c => negb (Ascii.eqb c "/"%char)) s = true.

(** A segment kept by [normalizeString] on an absolute path. *)
Definition clean_seg (s : string) : Prop :=
  s <> "" /\ s <> "." /\ s <> ".." /\ noslash s.

(** A segment kept by [normalizeString] on a relative path. *)
Definition good_seg (s : string) : Prop := s <> "" /\ s <> "." /\ noslash s.

Lemma slash_app (a b : string) : a +:+ "/" +:+ b = a +:+ String "/"%char b.
Proof. reflexivity. Qed.

Lemma split_nonnil (p : ascii -> bool) (s : string) : split_on p s <> [].
Proof.
  induction s as [|c s IH]; simpl; [done|].
  destruct (p c); [done|]. destruct (split_on p s); done.
Qed.

Lemma split_app (a b : string) :
  split (a +:+ "/" +:+ b) "/"%char = split a "/"%char ++ split b "/"%char.
Proof.
  rewrite slash_app. unfold split.
  induction a as [|c a IH]; [reflexivity|].
  change (String c a +:+ String "/"%char b) with (String c (a +:+ String "/"%char b)).
  cbn [split_on]. rewrite IH.
  destruct (Ascii.eqb c "/"%char); [reflexivity|].
  pose proof (split_nonnil (fun c0 => Ascii.eqb c0 "/"%char) a) as Hn.
  destruct (split_on _ a); [done|]. reflexivity.
Qed.

Lemma split_noslash (n : string) : noslash n -> split n "/"%char = [n].
Proof.
  unfold noslash, split. induction n as [|c n IH]; simpl; [done|].
  intros H. apply andb_prop in H as [Hc Hn].
  destruct (Ascii.eqb c "/"%char); [done|]. rewrite IH; done.
Qed.

Lemma join_cons (w : string) (ws : list string) :
  ws <> [] -> JS.join (w :: ws) "/" = w +:+ "/" +:+ JS.join ws "/".
Proof. destruct ws; done. Qed.

Lemma split_join (L : list string) :
  Forall (fun s => s <> "" /\ noslash s) L -> L <> [] ->
  split (JS.join L "/") "/"%char = L.
Proof.
  induction L as [|w ws IH]; [done|]. intros HF _.
  apply Forall_cons in HF as [[_ Hw] HF].
  destruct ws as [|w' ws'].
  - simpl. apply split_noslash, Hw.
  - rewrite join_cons by done. rewrite split_app, IH by done.
    rewrite split_noslash by done. reflexivity.
Qed.

Lemma join_nonempty (L : list string) :
  Forall (fun s => s <> "" /\ noslash s) L -> L <> [] -> JS.join L "/" <> "".
Proof.
  intros HF HL Hj. pose proof (split_join L HF HL) as Hs. rewrite Hj in Hs.
  simpl in Hs. destruct L as [|w [|w' L]]; try done.
  - injection Hs as <-. apply Forall_cons in HF as [[Hw _] _]. done.
Qed.

Lemma join_inj (L1 L2 : list string) :
  Forall (fun s => s <> "" /\ noslash s) L1 -> Forall (fun s => s <> "" /\ noslash s) L2 ->
  JS.join L1 "/" = JS.join L2 "/" -> L1 = L2.
Proof.
  intros H1 H2 Hj.
  destruct L1 as [|w1 L1']; destruct L2 as [|w2 L2'].
  - done.
  - exfalso. apply (join_nonempty (w2 :: L2')); done.
  - exfalso. apply (join_nonempty (w1 :: L1')); done.
  - rewrite <- (split_join (w1 :: L1')), <- (split_join (w2 :: L2')) by done.
    by rewrite Hj.
Qed.

Lemma step_push (a : bool) (st : list string) (s : string) :
  s <> "" -> s <> "." -> s <> ".." -> norm_step a st s = s :: st.
Proof.
  intros H1 H2 H3. unfold norm_step.
  apply String.eqb_neq in H1, H2, H3. rewrite H1, H2, H3. reflexivity.
Qed.

Lemma step_skip (a : bool) (st : list string) (s : string) :
  s = "" \/ s = "." -> norm_step a st s = st.
Proof. intros [-> | ->]; reflexivity. Qed.

Lemma fold_clean (a : bool) (L st : list string) :
  Forall clean_seg L -> fold_left (norm_step a) L st = List.rev L ++ st.
Proof.
  revert st. induction L as [|w L IH]; intros st HF; [done|].
  apply Forall_cons in HF as [(H1 & H2 & H3 & _) HF]. simpl.
  rewrite step_push by done. rewrite IH by done. rewrite <- app_assoc. reflexivity.
Qed.

Lemma split_noslash_all (s : string) : Forall noslash (split s "/"%char).
Proof.
  unfold split, noslash. induction s as [|c s IH]; simpl.
  - constructor; [reflexivity|constructor].
  - destruct (Ascii.eqb c "/"%char) eqn:Hc.
    + constructor; [reflexivity|exact IH].
    + destruct (split_on _ s) as [|w ws] eqn:E.
      * constructor; [simpl; rewrite Hc; reflexivity|constructor].
      * apply Forall_cons in IH as [Hw Hws]. constructor; [|exact Hws].
        simpl. rewrite Hc, Hw. reflexivity.
Qed.

Lemma fold_false_clean (l st : list string) :
  Forall clean_seg st -> Forall noslash l ->
  Forall clean_seg (fold_left (norm_step false) l st).
Proof.
  revert st. induction l as [|s l IH]; intros st Hst Hl; [done|].
  apply Forall_cons in Hl as [Hs Hl]. simpl. apply IH; [|done].
  unfold norm_step.
  destruct (String.eqb s "" || String.eqb s ".") eqn:E1; [done|].
  destruct (String.eqb s "..") eqn:E2.
  - destruct st as [|top rest]; [done|].
    destruct (String.eqb top ".."); [done|].
    apply Forall_cons in Hst as [_ Hr]. done.
  - apply orb_false_iff in E1 as [E1 E1']. apply String.eqb_neq in E1, E1', E2.
    constructor; [|done]. repeat split; done.
Qed.

Lemma fold_true_good (l st : list string) :
  Forall good_seg st -> Forall noslash l ->
  Forall good_seg (fold_left (norm_step true) l st).
Proof.
  revert st. induction l as [|s l IH]; intros st Hst Hl; [done|].
  apply Forall_cons in Hl as [Hs Hl]. simpl. apply IH; [|done].
  unfold norm_step.
  destruct (String.eqb s "" || String.eqb s ".") eqn:E1; [done|].
  destruct (String.eqb s "..") eqn:E2.
  - apply String.eqb_eq in E2. subst s.
    assert (Hdd : good_seg "..") by (repeat split; done).
    destruct st as [|top rest]; [constructor; done|].
    apply Forall_cons in Hst as [Ht Hr]. destruct (String.eqb top ".."); [|done].
    constructor; [done|]. constructor; done.
  - apply orb_false_iff in E1 as [E1 E1']. apply String.eqb_neq in E1, E1'.
    constructor; [|done]. repeat split; done.
Qed.

(** Normalising a relative path first (keeping its leading [..]) and then
    against a base gives the same stack as normalising it against the
    base directly. *)
Lemma step_dotdot_nil (a : bool) : norm_step a [] ".." = if a then [".."] else [].
Proof. reflexivity. Qed.

Lemma step_dotdot_cons (a : bool) (x : string) (R : list string) :
  norm_step a (x :: R) ".." =
  if String.eqb x ".." then (if a then ".." :: x :: R else x :: R) else R.
Proof. reflexivity. Qed.

Lemma fold_rel_norm (l st : list string) :
  Forall noslash l ->
  fold_left (norm_step false) (List.rev (fold_left (norm_step true) l [])) st
  = fold_left (norm_step false) l st.
Proof.
  induction l as [|s l IH] using rev_ind; intros Hl; [done|].
  apply Forall_app in Hl as [Hl Hs]. apply Forall_cons in Hs as [Hs _].
  rewrite !fold_left_app. cbn [fold_left].
  pose proof (fold_true_good l [] (List.Forall_nil _) Hl) as Hg.
  rewrite <- IH by done.
  set (R := fold_left (norm_step true) l []) in *.
  clearbody R.
  destruct (decide (s = "" \/ s = ".")) as [Hd|Hd].
  { rewrite (step_skip true R s), (step_skip false _ s) by done. reflexivity. }
  destruct (decide (s = "..")) as [->|Hdd].
  - destruct R as [|x R'].
    + reflexivity.
    + rewrite step_dotdot_cons. destruct (String.eqb x "..") eqn:E3.
      * cbn [List.rev]. rewrite fold_left_app. reflexivity.
      * apply Forall_cons in Hg as [(Hx1 & Hx2 & _) _].
        apply String.eqb_neq in E3.
        cbn [List.rev]. rewrite fold_left_app. cbn [fold_left].
        rewrite (step_push false _ x) by done.
        rewrite step_dotdot_cons. apply String.eqb_neq in E3. rewrite E3. reflexivity.
  - rewrite (step_push true R s) by tauto. cbn [List.rev]. rewrite fold_left_app. reflexivity.
Qed.

(** [k] segments [..] remove the [k] kept segments on top of the stack. *)
Lemma fold_pop (X Y : list string) :
  Forall (fun s => s <> "..") X ->
  fold_left (norm_step false) (repeat ".." (length X)) (X ++ Y) = Y.
Proof.
  induction X as [|x X IH]; intros HX; [done|].
  apply Forall_cons in HX as [Hx HX]. cbn [length repeat fold_left app].
  unfold norm_step at 2. cbn [String.eqb orb].
  apply String.eqb_neq in Hx. rewrite Hx. apply IH, HX.
Qed.

Lemma is_abs_app (a x : string) : a <> "" -> is_abs (a +:+ x) = is_abs a.
Proof. destruct a; done. Qed.

Lemma noslash_not_abs (n : string) : noslash n -> is_abs n = false.
Proof.
  unfold noslash. destruct n as [|c n]; [done|]. simpl.
  intros H. apply andb_prop in H as [H _]. apply negb_true_iff in H. exact H.
Qed.

Lemma noslash_cons (c : ascii) (n : string) : noslash (String c n) -> Ascii.eqb c "/"%char = false.
Proof. unfold noslash; simpl. intros H. apply andb_prop in H as [H _]. by apply negb_true_iff. Qed.

Lemma noslash_app (a b : string) : noslash a -> noslash b -> noslash (a +:+ b).
Proof. unfold noslash. intros Ha Hb. rewrite StrFacts.forall_chars_app, Ha, Hb. done. Qed.

Lemma noslash_rev (s : string) : noslash s -> noslash (rev_str s).
Proof. unfold noslash. intros H. by rewrite StrFacts.forall_chars_rev. Qed.

Lemma ends_noslash (x n : string) : n <> "" -> noslash n -> ends_with_sep (x +:+ n) = false.
Proof.
  intros Hn Hs. unfold ends_with_sep, endsWith.
  rewrite StrFacts.rev_str_app.
  pose proof (noslash_rev n Hs) as Hr.
  destruct (rev_str n) as [|c t] eqn:E.
  - exfalso. apply Hn. rewrite <- (StrFacts.rev_str_involutive n), E. reflexivity.
  - apply noslash_cons in Hr. cbn [rev_str]. rewrite StrFacts.append_nil_l, StrFacts.append_cons.
    cbn [String.prefix]. destruct (ascii_dec "/"%char c) as [<-|]; [done|]. reflexivity.
Qed.

Lemma clean_forall (L : list string) :
  Forall clean_seg L -> Forall (fun s => s <> "" /\ noslash s) L.
Proof. intros H. eapply Forall_impl; [exact H|]. intros x (H1 & _ & _ & H4). done. Qed.

Lemma good_forall (L : list string) :
  Forall good_seg L -> Forall (fun s => s <> "" /\ noslash s) L.
Proof. intros H. eapply Forall_impl; [exact H|]. intros x (H1 & _ & H4). done. Qed.

Lemma split_slash (X : string) : split ("/" +:+ X) "/"%char = "" :: split X "/"%char.
Proof. reflexivity. Qed.

Lemma join_not_abs (L : list string) :
  Forall (fun s => s <> "" /\ noslash s) L -> is_abs (JS.join L "/") = false.
Proof.
  destruct L as [|w ws]; [done|]. intros HF. apply Forall_cons in HF as [[Hw Hs] HF].
  destruct ws as [|w' ws'].
  - apply noslash_not_abs, Hs.
  - rewrite join_cons by done. rewrite is_abs_app by done. apply noslash_not_abs, Hs.
Qed.

Lemma join_snoc (L : list string) (n : string) :
  L <> [] -> JS.join (L ++ [n]) "/" = JS.join L "/" +:+ "/" +:+ n.
Proof.
  induction L as [|w L IH]; [done|]. intros _.
  destruct L as [|w' L'].
  - reflexivity.
  - rewrite <- app_comm_cons. rewrite join_cons by (destruct L'; done).
    rewrite (join_cons w (w' :: L')) by done.
    rewrite IH by done. rewrite !StrFacts.append_assoc. reflexivity.
Qed.

Lemma fold_any_ok (x : bool) (b : string) :
  Forall (fun s => s <> "" /\ noslash s) (fold_left (norm_step x) (split b "/"%char) []).
Proof.
  destruct x.
  - apply good_forall, fold_true_good; [constructor|apply split_noslash_all].
  - apply clean_forall, fold_false_clean; [constructor|apply split_noslash_all].
Qed.

(** [path.join(b, n)] for a clean segment [n]: the normalised [b] with
    [n] appended. *)
Lemma path_join_shape (b n : string) :
  clean_seg n ->
  join b n = (if is_abs b then "/" else "")
             +:+ JS.join (List.rev (fold_left (norm_step (negb (is_abs b))) (split b "/"%char) [])
                          ++ [n]) "/".
Proof.
  intros Hn. pose proof Hn as (Hn1 & Hn2 & Hn3 & Hn4).
  assert (Hne : String.eqb n "" = false) by (apply String.eqb_neq; done).
  unfold join, filter_nonempty. cbn [List.filter].
  destruct (String.eqb b "") eqn:Eb.
  - apply String.eqb_eq in Eb. subst b. cbn [negb]. rewrite Hne. cbn [negb].
    cbn [JS.join]. rewrite Hne.
    unfold normalize. rewrite Hne.
    pose proof (ends_noslash "" n Hn1 Hn4) as He. change ("" +:+ n) with n in He.
    rewrite (noslash_not_abs n Hn4), He.
    unfold normalizeString, norm_segs. rewrite split_noslash by done.
    cbn [fold_left negb]. rewrite step_push by done. cbn [List.rev app JS.join].
    rewrite Hne. reflexivity.
  - cbn [negb]. rewrite Hne. cbn [negb].
    change (JS.join [b; n] "/") with (b +:+ "/" +:+ JS.join [n] "/"). cbn [JS.join].
    assert (Hb : b <> "") by (apply String.eqb_neq; done).
    assert (Hj : String.eqb (b +:+ "/" +:+ n) "" = false).
    { destruct b; [done|]. reflexivity. }
    rewrite Hj. unfold normalize. rewrite Hj.
    rewrite is_abs_app by done.
    rewrite <- StrFacts.append_assoc, (ends_noslash (b +:+ "/") n Hn1 Hn4),
      StrFacts.append_assoc.
    unfold normalizeString, norm_segs. rewrite split_app, (split_noslash n Hn4).
    rewrite fold_left_app. cbn [fold_left]. rewrite step_push by done.
    cbn [List.rev].
    assert (Hr : String.eqb (JS.join (List.rev (fold_left (norm_step (negb (is_abs b)))
                   (split b "/"%char) []) ++ [n]) "/") "" = false).
    { apply String.eqb_neq, join_nonempty; [|destruct (List.rev _); done].
      apply Forall_app. split; [apply Forall_rev, fold_any_ok|].
      constructor; [done|constructor]. }
    rewrite Hr. destruct (is_abs b); reflexivity.
Qed.

Lemma dir_scan_none (m : bool) (u : string) : noslash u -> dir_scan m u = None.
Proof.
  unfold noslash. revert m. induction u as [|c u IH]; intros m H; [done|].
  simpl in H. apply andb_prop in H as [Hc H]. apply negb_true_iff in Hc.
  simpl. rewrite Hc. apply IH, H.
Qed.

Lemma dir_scan_found (m : bool) (u r : string) :
  noslash u -> (m = false \/ u <> "") -> dir_scan m (u +:+ "/" +:+ r) = Some r.
Proof.
  unfold noslash. revert m. induction u as [|c u IH]; intros m H Hm.
  - destruct Hm as [->|]; [reflexivity|done].
  - simpl in H. apply andb_prop in H as [Hc H]. apply negb_true_iff in Hc.
    rewrite StrFacts.append_cons. simpl. rewrite Hc. apply IH; [exact H|left; done].
Qed.

Lemma dirname_snoc (P n : string) :
  noslash n -> n <> "" -> P <> "" -> P <> "/" -> dirname (P +:+ "/" +:+ n) = P.
Proof.
  intros Hn Hn1 HP HP'. destruct P as [|c P']; [done|].
  rewrite StrFacts.append_cons. unfold dirname.
  rewrite StrFacts.rev_str_app, StrFacts.rev_str_app.
  change (rev_str "/") with "/".
  rewrite StrFacts.append_assoc.
  rewrite dir_scan_found; [|apply noslash_rev, Hn|right].
  - rewrite StrFacts.rev_str_involutive.
    destruct (Ascii.eqb c "/"%char) eqn:Ec; cbn [andb]; [|reflexivity].
    destruct (String.eqb (rev_str P') "") eqn:E; [|reflexivity].
    exfalso. apply HP'. apply Ascii.eqb_eq in Ec. apply String.eqb_eq in E. subst c.
    rewrite <- (StrFacts.rev_str_involutive P'), E. reflexivity.
  - intros E. apply Hn1. rewrite <- (StrFacts.rev_str_involutive n), E. reflexivity.
Qed.

Lemma common_len_spec (F T : list string) :
  common_len F T <= length F /\ common_len F T <= length T
  /\ firstn (common_len F T) F = firstn (common_len F T) T.
Proof.
  revert T. induction F as [|x F IH]; intros T; [simpl; repeat split; lia|].
  destruct T as [|y T]; [simpl; repeat split; lia|]. simpl.
  destruct (String.eqb x y) eqn:E; [|simpl; repeat split; lia].
  apply String.eqb_eq in E. subst y. destruct (IH T) as (H1 & H2 & H3).
  simpl. rewrite H3. split; [lia|]. split; [lia|reflexivity].
Qed.

Section Keys.
Variable cwd : string.
Hypothesis Hcwd : is_abs cwd = true.

Definition S_cwd : list string := fold_left (norm_step false) (split cwd "/"%char) [].

(** The stack of [normalizeString] for [s] resolved against the stack
    [base] of the directory it is relative to. *)
Definition stack_of (base : list string) (s : string) : list string :=
  fold_left (norm_step false) (split s "/"%char) (if is_abs s then [] else base).

Lemma split_empty : split "" "/"%char = [""].
Proof. reflexivity. Qed.

Lemma stack_of_empty (base : list string) : stack_of base "" = base.
Proof. reflexivity. Qed.

Lemma fold_trailing (l st : list string) :
  fold_left (norm_step false) (l ++ [""]) st = fold_left (norm_step false) l st.
Proof. rewrite fold_left_app. reflexivity. Qed.

Lemma key_stack (s : string) : key cwd s = List.rev (stack_of S_cwd s).
Proof.
  unfold key, resolve_key, resolve_input, stack_of, S_cwd, norm_segs. cbn [List.rev app].
  unfold resolve_build.
  destruct (String.eqb s "") eqn:Es.
  - apply String.eqb_eq in Es. subst s. rewrite Hcwd. cbn [negb].
    rewrite split_app, split_empty, !fold_left_app. reflexivity.
  - destruct (is_abs s) eqn:Ha; cbn [negb].
    + rewrite split_app, split_empty, !fold_left_app. reflexivity.
    + rewrite Hcwd. cbn [negb].
      rewrite split_app, split_app, split_empty, !fold_left_app. reflexivity.
Qed.

Lemma key2_stack (d r : string) :
  resolve_key cwd [d; r] = List.rev (stack_of (stack_of S_cwd d) r).
Proof.
  unfold resolve_key, resolve_input, stack_of, S_cwd, norm_segs. cbn [List.rev app].
  cbn [resolve_build].
  destruct (String.eqb r "") eqn:Er.
  - apply String.eqb_eq in Er. subst r. cbn [is_abs]. rewrite split_empty. cbn [fold_left].
    destruct (String.eqb d "") eqn:Ed.
    + apply String.eqb_eq in Ed. subst d. cbn [resolve_build]. rewrite Hcwd. cbn [negb].
      rewrite split_app, split_empty, !fold_left_app. reflexivity.
    + destruct (is_abs d) eqn:Ha; cbn [resolve_build negb].
      * rewrite split_app, split_empty, !fold_left_app. reflexivity.
      * rewrite Hcwd. cbn [negb].
        rewrite split_app, split_app, split_empty, !fold_left_app. reflexivity.
  - destruct (is_abs r) eqn:Hr; cbn [negb].
    + rewrite split_app, split_empty, !fold_left_app. reflexivity.
    + destruct (String.eqb d "") eqn:Ed.
      * apply String.eqb_eq in Ed. subst d. cbn [resolve_build]. rewrite Hcwd. cbn [negb].
        rewrite split_app, split_app, split_empty, !fold_left_app. reflexivity.
      * destruct (is_abs d) eqn:Ha; cbn [resolve_build negb].
        -- rewrite split_app, split_app, split_empty, !fold_left_app. reflexivity.
        -- rewrite Hcwd. cbn [negb].
           rewrite split_app, split_app, split_app, split_empty, !fold_left_app. reflexivity.
Qed.

Lemma resolve_input_abs (args : list string) : snd (resolve_input cwd args) = true.
Proof.
  unfold resolve_input. destruct (resolve_build _ _) as [p [|]]; [done|exact Hcwd].
Qed.

Lemma resolve_eq (args : list string) :
  resolve cwd args = "/" +:+ JS.join (resolve_key cwd args) "/".
Proof.
  pose proof (resolve_input_abs args) as H. unfold resolve.
  destruct (resolve_input cwd args) as [p a]. cbn in H. subst a. reflexivity.
Qed.

Lemma S_cwd_clean : Forall clean_seg S_cwd.
Proof. apply fold_false_clean; [constructor|apply split_noslash_all]. Qed.

Lemma stack_of_clean (base : list string) (s : string) :
  Forall clean_seg base -> Forall clean_seg (stack_of base s).
Proof.
  intros Hb. unfold stack_of. apply fold_false_clean; [|apply split_noslash_all].
  destruct (is_abs s); [constructor|exact Hb].
Qed.

Lemma key_clean (s : string) : Forall clean_seg (key cwd s).
Proof.
  rewrite key_stack. apply Forall_rev, stack_of_clean, S_cwd_clean.
Qed.

Lemma is_abs_slash (X : string) : is_abs ("/" +:+ X) = true.
Proof. reflexivity. Qed.

Lemma slash_inj (a b : string) : "/" +:+ a = "/" +:+ b -> a = b.
Proof. intros H. injection H. done. Qed.

Lemma slash_ne_slash (X : string) : X <> "" -> "/" +:+ X <> "/".
Proof. intros HX H. apply HX. injection H. done. Qed.

Lemma noslash_tail (c : ascii) (t : string) : noslash (String c t) -> noslash t.
Proof. unfold noslash; simpl. intros H. apply andb_prop in H as [_ H]. exact H. Qed.

(** The key of [path.join(b, n)] is the key of [b] extended by [n]. *)
Lemma key_join (b n : string) : clean_seg n -> key cwd (join b n) = key cwd b ++ [n].
Proof.
  intros Hn. pose proof Hn as (Hn1 & Hn2 & Hn3 & Hn4).
  pose proof (fold_any_ok (negb (is_abs b)) b) as HF.
  rewrite path_join_shape by exact Hn.
  destruct (is_abs b) eqn:Hab; cbn [negb] in *.
  - assert (HC : Forall clean_seg (fold_left (norm_step false) (split b "/"%char) [])).
    { apply fold_false_clean; [constructor|apply split_noslash_all]. }
    assert (HL : Forall (fun s => s <> "" /\ noslash s)
                   (List.rev (fold_left (norm_step false) (split b "/"%char) []) ++ [n])).
    { apply Forall_app; split; [apply Forall_rev, HF|constructor; [done|constructor]]. }
    rewrite !key_stack. unfold stack_of. rewrite Hab, is_abs_slash, split_slash.
    rewrite split_join by (done || (destruct (List.rev _); done)).
    cbn [fold_left]. change (norm_step false [] "") with (@nil string).
    rewrite fold_clean.
    + rewrite app_nil_r, rev_involutive. reflexivity.
    + apply Forall_app; split; [apply Forall_rev, HC|constructor; [exact Hn|constructor]].
  - assert (HL : Forall (fun s => s <> "" /\ noslash s)
                   (List.rev (fold_left (norm_step true) (split b "/"%char) []) ++ [n])).
    { apply Forall_app; split; [apply Forall_rev, HF|constructor; [done|constructor]]. }
    rewrite StrFacts.append_nil_l, !key_stack. unfold stack_of.
    rewrite Hab, join_not_abs by exact HL.
    rewrite split_join by (done || (destruct (List.rev _); done)).
    rewrite fold_left_app. cbn [fold_left]. rewrite step_push by done.
    rewrite fold_rel_norm by apply split_noslash_all. reflexivity.
Qed.

(** The key of [path.dirname(path.join(b, n))] is the key of [b]. *)
Lemma key_dirname_join (b n : string) : clean_seg n -> key cwd (dirname (join b n)) = key cwd b.
Proof.
  intros Hn. pose proof Hn as (Hn1 & Hn2 & Hn3 & Hn4).
  pose proof (fold_any_ok (negb (is_abs b)) b) as HF.
  rewrite path_join_shape by exact Hn.
  destruct (is_abs b) eqn:Hab; cbn [negb] in *.
  - assert (HC : Forall clean_seg (fold_left (norm_step false) (split b "/"%char) [])).
    { apply fold_false_clean; [constructor|apply split_noslash_all]. }
    remember (List.rev (fold_left (norm_step false) (split b "/"%char) [])) as L eqn:HLdef.
    assert (HL : Forall (fun s => s <> "" /\ noslash s) L).
    { subst L. apply Forall_rev, HF. }
    rewrite (key_stack b). unfold stack_of. rewrite Hab, <- HLdef.
    destruct (decide (L = [])) as [E|E].
    + rewrite E. cbn [app JS.join].
      change ("/" +:+ n) with (String "/"%char n). unfold dirname.
      rewrite dir_scan_none by (apply noslash_rev, Hn4). reflexivity.
    + rewrite join_snoc by exact E. rewrite <- StrFacts.append_assoc.
      assert (HJ : JS.join L "/" <> "") by (apply join_nonempty; done).
      rewrite dirname_snoc; [|exact Hn4|exact Hn1|discriminate|apply slash_ne_slash, HJ].
      rewrite key_stack. unfold stack_of. rewrite is_abs_slash, split_slash, split_join by done.
      cbn [fold_left]. change (norm_step false [] "") with (@nil string).
      rewrite fold_clean by (subst L; apply Forall_rev, HC).
      rewrite app_nil_r, rev_involutive. reflexivity.
  - remember (List.rev (fold_left (norm_step true) (split b "/"%char) [])) as L eqn:HLdef.
    assert (HL : Forall (fun s => s <> "" /\ noslash s) L).
    { subst L. apply Forall_rev, HF. }
    rewrite StrFacts.append_nil_l.
    rewrite (key_stack b). unfold stack_of. rewrite Hab.
    rewrite <- fold_rel_norm by apply split_noslash_all. rewrite <- HLdef.
    destruct (decide (L = [])) as [E|E].
    + rewrite E. cbn [app JS.join].
      destruct n as [|c t]; [done|]. unfold dirname.
      rewrite dir_scan_none by (apply noslash_rev, (noslash_tail c), Hn4).
      rewrite (noslash_cons c t Hn4), key_stack. reflexivity.
    + rewrite join_snoc by exact E.
      assert (HJ : JS.join L "/" <> "") by (apply join_nonempty; done).
      assert (HJa : is_abs (JS.join L "/") = false) by (apply join_not_abs; done).
      rewrite dirname_snoc; [|exact Hn4|exact Hn1|exact HJ|].
      * rewrite key_stack. unfold stack_of. rewrite HJa, split_join by done. reflexivity.
      * intros E'. rewrite E' in HJa. discriminate.
Qed.

Lemma key2_empty (d : string) : resolve_key cwd [d; ""] = key cwd d.
Proof. rewrite key2_stack, stack_of_empty, <- key_stack. reflexivity. Qed.

(** The link written by [createSymlink] points back at its target:
    [path.resolve(d, path.relative(d, t))] is [path.resolve(t)]. *)
Lemma resolve_relative (d t : string) :
  resolve cwd [d; relative cwd d t] = resolve cwd [t].
Proof.
  rewrite !resolve_eq. f_equal. f_equal. change (resolve_key cwd [t]) with (key cwd t).
  unfold relative.
  destruct (String.eqb d t) eqn:E1.
  { apply String.eqb_eq in E1. subst t. apply key2_empty. }
  destruct (String.eqb (resolve cwd [d]) (resolve cwd [t])) eqn:E2.
  { apply String.eqb_eq in E2. rewrite !resolve_eq in E2. apply slash_inj in E2.
    rewrite key2_empty. apply join_inj in E2;
      [exact E2|apply clean_forall, key_clean|apply clean_forall, key_clean]. }
  change (resolve_key cwd [d]) with (key cwd d). change (resolve_key cwd [t]) with (key cwd t).
  pose proof (common_len_spec (key cwd d) (key cwd t)) as (Hc1 & Hc2 & Hc3).
  pose proof (key_clean d) as HFc. pose proof (key_clean t) as HTc.
  assert (HSd : stack_of S_cwd d = List.rev (key cwd d)).
  { rewrite key_stack, rev_involutive. reflexivity. }
  remember (key cwd d) as F eqn:HF. remember (key cwd t) as T eqn:HT.
  remember (common_len F T) as c eqn:Hc.
  destruct (decide (repeat ".." (length F - c) ++ skipn c T = [])) as [E|E].
  - rewrite E. cbn [JS.join]. rewrite key2_empty, <- HF.
    apply app_eq_nil in E as [E3 E4].
    apply (f_equal length) in E3, E4. rewrite repeat_length in E3.
    rewrite length_skipn in E4. cbn in E3, E4.
    rewrite <- (firstn_all2 (n:=c) F), <- (firstn_all2 (n:=c) T) by lia. rewrite Hc3. reflexivity.
  - assert (HTs : Forall clean_seg (skipn c T)).
    { rewrite <- (firstn_skipn c T) in HTc. apply Forall_app in HTc. apply HTc. }
    assert (HFs : Forall clean_seg (skipn c F)).
    { rewrite <- (firstn_skipn c F) in HFc. apply Forall_app in HFc. apply HFc. }
    assert (HX : Forall (fun s => s <> "" /\ noslash s) (repeat ".." (length F - c) ++ skipn c T)).
    { apply Forall_app. split; [|apply clean_forall, HTs].
      apply List.Forall_forall. intros x Hx. apply repeat_spec in Hx. subst x. done. }
    rewrite key2_stack, HSd. unfold stack_of at 1.
    rewrite join_not_abs by exact HX. rewrite split_join by done.
    rewrite fold_left_app.
    assert (HrF : List.rev F = List.rev (skipn c F) ++ List.rev (firstn c F)).
    { rewrite <- rev_app_distr, firstn_skipn. reflexivity. }
    assert (Hlen : length F - c = length (List.rev (skipn c F))).
    { rewrite length_rev, length_skipn. reflexivity. }
    rewrite HrF, Hlen, fold_pop.
    + rewrite fold_clean by exact HTs.
      rewrite <- rev_app_distr, rev_involutive, Hc3, firstn_skipn. reflexivity.
    + apply Forall_rev. eapply Forall_impl; [exact HFs|]. intros x (_ & _ & H & _). exact H.
Qed.

End Keys.

(** The code units written by [sanitizeName]: the class [[a-z0-9._]] and
    the hyphen. *)
Definition out_char (c : ascii) : bool := Sanitize.name_char c || Ascii.eqb c "-"%char.

Lemma out_char_noslash (c : ascii) : out_char c = true -> negb (Ascii.eqb c "/"%char) = true.
Proof.
  destruct c as [[] [] [] [] [] [] [] []]; vm_compute; intros H;
    first [reflexivity | discriminate H].
Qed.

Lemma replace_runs_chars (b : bool) (s : string) :
  forall_chars out_char (Sanitize.replace_runs b s) = true.
Proof.
  revert b. induction s as [|c s IH]; intros b; [reflexivity|]. cbn [Sanitize.replace_runs].
  destruct (Sanitize.name_char c) eqn:Hc; [|destruct b].
  - cbn [forall_chars]. unfold out_char at 1. rewrite Hc, IH. reflexivity.
  - apply IH.
  - cbn [forall_chars]. rewrite IH. reflexivity.
Qed.

Lemma drop_leading_chars (p q : ascii -> bool) (s : string) :
  forall_chars q s = true -> forall_chars q (Sanitize.drop_leading p s) = true.
Proof.
  induction s as [|c s IH]; intros H; [reflexivity|]. cbn [Sanitize.drop_leading].
  destruct (p c); [|exact H]. apply IH. cbn in H. apply andb_prop in H as [_ H]. exact H.
Qed.

Lemma drop_leading_head (p : ascii -> bool) (s : string) :
  match Sanitize.drop_leading p s with EmptyString => True | String c _ => p c = false end.
Proof.
  induction s as [|c s IH]; [exact I|]. cbn [Sanitize.drop_leading].
  destruct (p c) eqn:Hc; [exact IH|exact Hc].
Qed.

Lemma remove_trailing_chars (q : ascii -> bool) (s : string) :
  forall_chars q s = true -> forall_chars q (Sanitize.remove_trailing_run s) = true.
Proof.
  induction s as [|c s IH]; intros H; [reflexivity|]. cbn [Sanitize.remove_trailing_run].
  cbn [forall_chars] in H. apply andb_prop in H as [Hc H].
  destruct (forall_chars Sanitize.dot_or_hyphen (String c s)); [reflexivity|].
  cbn [forall_chars]. rewrite Hc, IH by exact H. reflexivity.
Qed.

Lemma remove_trailing_head (c : ascii) (t : string) :
  Sanitize.remove_trailing_run (String c t) = ""
  \/ exists t', Sanitize.remove_trailing_run (String c t) = String c t'.
Proof.
  cbn [Sanitize.remove_trailing_run].
  destruct (forall_chars Sanitize.dot_or_hyphen (String c t)); [left|right; eexists]; reflexivity.
Qed.

Lemma strip_props (u : string) :
  forall_chars out_char u = true ->
  forall_chars out_char (Sanitize.strip_dots_hyphens u) = true
  /\ match Sanitize.strip_dots_hyphens u with
     | EmptyString => True
     | String c _ => Sanitize.dot_or_hyphen c = false
     end.
Proof.
  intros Hu. unfold Sanitize.strip_dots_hyphens.
  destruct u as [|c t]; [split; [reflexivity|exact I]|].
  assert (Hv : forall v, forall_chars out_char v = true ->
            match v with EmptyString => True | String c _ => Sanitize.dot_or_hyphen c = false end ->
            forall_chars out_char (Sanitize.remove_trailing_run v) = true
            /\ match Sanitize.remove_trailing_run v with
               | EmptyString => True
               | String c _ => Sanitize.dot_or_hyphen c = false
               end).
  { intros [|c' t'] H1 H2; [split; [reflexivity|exact I]|].
    split; [apply remove_trailing_chars, H1|].
    destruct (remove_trailing_head c' t') as [->|[t'' ->]]; [exact I|exact H2]. }
  destruct (Sanitize.dot_or_hyphen c) eqn:Hc.
  - apply Hv; [apply drop_leading_chars, Hu|apply drop_leading_head].
  - apply Hv; [exact Hu|exact Hc].
Qed.

(** [sanitizeName] yields one clean path segment. *)
Lemma sanitize_clean (name : string) : clean_seg (Sanitize.sanitizeName name).
Proof.
  unfold Sanitize.sanitizeName, Sanitize.MAX_NAME_LENGTH, Sanitize.FALLBACK_NAME.
  destruct (strip_props (Sanitize.replace_runs false (toLowerCase name))
              (replace_runs_chars _ _)) as [Hch Hhd].
  revert Hch Hhd.
  generalize (Sanitize.strip_dots_hyphens (Sanitize.replace_runs false (toLowerCase name))).
  intros r Hch Hhd.
  pose proof (CharsFacts.forall_chars_substring out_char 0 255 r Hch) as Hs.
  destruct r as [|c t].
  - cbn. repeat split; try discriminate; reflexivity.
  - cbn [String.substring] in *. repeat split; try discriminate.
    + intros H. injection H as -> _. discriminate Hhd.
    + intros H. injection H as -> _. discriminate Hhd.
    + unfold noslash. eapply GitHubFacts.forall_chars_impl; [exact out_char_noslash|exact Hs].
Qed.

End PathFacts.

(** ** The file-system operations of the installer *)

Module InstallFacts.
Import Installer PathFacts.

Section FSFacts.
Variable cwd : string.

(** What [rm(k, { recursive: true })] leaves of a map: everything outside
    the subtree at [nt]. *)
Definition strip (nt : list string) (fs : FS) : FS :=
  filter (fun kv : list string * Entry => negb (under nt kv.1)) fs.

(** No entry lies strictly below [nt] unless [nt] is a directory. *)
Definition P_sub (nt : list string) (fs : FS) : Prop :=
  forall j v, j <> [] -> fs !! (nt ++ j) = Some v -> fs !! nt = Some Dir.

(** [B] is the root, or an existing entry that [stat]s as a directory. *)
Definition good_base (fs : FS) (B : list string) : Prop :=
  B = [] \/ (fs !! B <> None /\ stat_follow cwd MAXSYMLINKS fs B = Some Dir).

Definition correct_link (fs : FS) (target linkPath : string) : bool :=
  match fs !! key cwd linkPath with
  | Some (Link t) => String.eqb (resolve cwd [dirname linkPath; t]) (resolve cwd [target])
  | _ => false
  end.

Lemma strip_lookup (nt : list string) (fs : FS) (k : list string) :
  strip nt fs !! k = if under nt k then None else fs !! k.
Proof.
  unfold strip. rewrite map_lookup_filter.
  destruct (fs !! k) as [e|]; cbn; [|destruct (under nt k); reflexivity].
  destruct (under nt k); cbn; simplify_option_eq; done.
Qed.

Lemma under_spec (nt k : list string) : under nt k = true <-> exists j, k = nt ++ j.
Proof. unfold under. rewrite bool_decide_eq_true. reflexivity. Qed.

Lemma under_app (nt j : list string) : under nt (nt ++ j) = true.
Proof. apply under_spec. exists j. reflexivity. Qed.

Lemma entry_at_ne (fs : FS) (k : list string) : k <> [] -> entry_at fs k = fs !! k.
Proof. destruct k; done. Qed.

Lemma entry_at_mono (fs fs' : FS) (k : list string) (e : Entry) :
  (forall k v, fs !! k = Some v -> fs' !! k = Some v) ->
  entry_at fs k = Some e -> entry_at fs' k = Some e.
Proof. intros Hm. destruct k; cbn; auto. Qed.

(** [stat] only reads entries: it gives the same answer in a larger map. *)
Lemma stat_follow_mono (fs fs' : FS) (n : nat) (k : list string) (e : Entry) :
  (forall k v, fs !! k = Some v -> fs' !! k = Some v) ->
  stat_follow cwd n fs k = Some e -> stat_follow cwd n fs' k = Some e.
Proof.
  intros Hm. revert k. induction n as [|n IH]; intros k; cbn [stat_follow];
    destruct (entry_at fs k) as [[|c|t]|] eqn:E; intros H; try discriminate;
    rewrite (entry_at_mono fs fs' k _ Hm E); auto.
Qed.

Lemma mkdir_noop (fs : FS) (B : list string) :
  good_base fs B -> mkdir_rev cwd fs (List.rev B) = (Ok tt, fs).
Proof.
  intros [->|[H1 H2]]; [reflexivity|].
  destruct (List.rev B) as [|x prk] eqn:ER; [reflexivity|].
  cbn [mkdir_rev]. rewrite <- ER, rev_involutive.
  destruct (fs !! B) eqn:E; [|contradiction]. rewrite H2. reflexivity.
Qed.

(** A successful [mkdir -p] only adds directories, at prefixes of the
    path, and leaves the path a directory. *)
Lemma mkdir_ok (fs : FS) (rk : list string) (fs' : FS) :
  mkdir_rev cwd fs rk = (Ok tt, fs') ->
  (forall k v, fs !! k = Some v -> fs' !! k = Some v)
  /\ (forall k v, fs' !! k = Some v -> fs !! k = None ->
        k `prefix_of` List.rev rk /\ k <> [] /\ v = Dir)
  /\ (rk = [] \/ fs' !! List.rev rk = Some Dir
      \/ (fs' = fs /\ fs !! List.rev rk <> None
          /\ stat_follow cwd MAXSYMLINKS fs (List.rev rk) = Some Dir)).
Proof.
  revert fs'. induction rk as [|x prk IH]; intros fs' H.
  - injection H as <-. split; [auto|]. split; [|left; reflexivity].
    intros k v H1 H2. congruence.
  - cbn [mkdir_rev] in H. revert H. change (List.rev (x :: prk)) with (List.rev prk ++ [x]) in *.
    destruct (fs !! (List.rev prk ++ [x])) as [e|] eqn:Ek.
    + destruct (stat_follow cwd MAXSYMLINKS fs ((List.rev prk ++ [x]))) as [[| |]|] eqn:Es;
        intros H; try discriminate H.
      injection H as <-. split; [auto|]. split.
      * intros k v H1 H2. congruence.
      * right. right. split; [reflexivity|]. split; [congruence|first [exact Es|reflexivity]].
    + destruct (mkdir_rev cwd fs prk) as [[u|c] fs''] eqn:Er; intros H; try discriminate H.
      injection H as <-. destruct u. destruct (IH fs'' eq_refl) as (Hm & Hn & _).
      split; [|split].
      * intros k v Hk. destruct (decide (k = (List.rev prk ++ [x]))) as [->|Hne]; [congruence|].
        rewrite lookup_insert_ne by congruence. auto.
      * intros k v Hk Hk0. destruct (decide (k = (List.rev prk ++ [x]))) as [->|Hne].
        -- rewrite lookup_insert_eq in Hk. injection Hk as <-.
           split; [reflexivity|]. split; [|reflexivity]. destruct (List.rev prk); done.
        -- rewrite lookup_insert_ne in Hk by congruence.
           destruct (Hn k v Hk Hk0) as (Hp & Hne' & Hv). split; [|auto].
           apply prefix_app_r, Hp.
      * right. left. apply lookup_insert_eq.
Qed.

Lemma under_refl (nt : list string) : under nt nt = true.
Proof. rewrite <- (app_nil_r nt) at 2. apply under_app. Qed.

Lemma strip_none nt fs : P_sub nt fs -> fs !! nt = None -> strip nt fs = fs.
Proof.
  intros Hs Hn. apply map_eq. intros k. rewrite strip_lookup.
  destruct (under nt k) eqn:U; [|reflexivity].
  apply under_spec in U as [j ->]. destruct (decide (j = [])) as [->|Hj].
  - rewrite app_nil_r, Hn. reflexivity.
  - destruct (fs !! (nt ++ j)) eqn:E; [|reflexivity]. specialize (Hs j e Hj E). congruence.
Qed.

Lemma strip_delete nt fs : P_sub nt fs -> fs !! nt <> Some Dir -> strip nt fs = delete nt fs.
Proof.
  intros Hs Hn. apply map_eq. intros k. rewrite strip_lookup.
  destruct (under nt k) eqn:U.
  - apply under_spec in U as [j ->]. destruct (decide (j = [])) as [->|Hj].
    + rewrite app_nil_r, lookup_delete_eq. reflexivity.
    + rewrite lookup_delete_ne.
      * destruct (fs !! (nt ++ j)) eqn:E; [|reflexivity]. exfalso. apply Hn, (Hs j e Hj E).
      * intros H. apply Hj. rewrite <- (app_nil_r nt) in H at 1. apply app_inv_head in H. done.
  - rewrite lookup_delete_ne; [reflexivity|]. intros ->. rewrite under_refl in U. discriminate.
Qed.

(** The inner [try] of [createSymlink]: an existing correct link ends it,
    anything else at the path is removed. *)
Lemma inspect_spec (linkPath rT : string) (nt : list string) (fs : FS) :
  key cwd linkPath = nt -> nt <> [] -> P_sub nt fs ->
  inspect_existing cwd linkPath rT fs =
  match fs !! nt with
  | Some (Link t) =>
      if String.eqb (resolve cwd [dirname linkPath; t]) rT then (Ok (Some true), fs)
      else (Ok None, strip nt fs)
  | _ => (Ok None, strip nt fs)
  end.
Proof.
  intros Hk Hnt Hs.
  unfold inspect_existing, try_catch, bind, ret, lstat, readlink, rm.
  rewrite Hk, entry_at_ne by exact Hnt.
  destruct (fs !! nt) as [[|c|t]|] eqn:E; cbn -[resolve dirname];
    rewrite ?(entry_at_ne _ nt Hnt), ?E; cbn -[resolve dirname].
  - reflexivity.
  - rewrite strip_delete by (done || congruence). reflexivity.
  - destruct (String.eqb _ rT); [reflexivity|]. rewrite ?(entry_at_ne _ nt Hnt), ?E.
    cbn -[resolve dirname]. rewrite strip_delete by (done || congruence). reflexivity.
  - rewrite strip_none by done. reflexivity.
Qed.
(** [createSymlink] in closed form, when the link's directory exists. *)
Lemma createSymlink_spec (sup : bool) (target linkPath : string) (nt : list string) (fs : FS) :
  key cwd linkPath = nt -> nt <> [] -> key cwd (dirname linkPath) = removelast nt ->
  P_sub nt fs -> good_base (strip nt fs) (removelast nt) ->
  createSymlink cwd sup target linkPath fs =
  if String.eqb (resolve cwd [target]) (resolve cwd [linkPath]) || correct_link fs target linkPath
  then (Ok true, fs)
  else if sup then (Ok true, <[nt := Link (relative cwd (dirname linkPath) target)]> (strip nt fs))
  else (Ok false, strip nt fs).
Proof.
  intros Hk Hnt Hdir Hsub Hgood.
  assert (Hstat : stat_follow cwd MAXSYMLINKS (strip nt fs) (removelast nt) = Some Dir).
  { destruct Hgood as [E|[_ E]]; [rewrite E; reflexivity|exact E]. }
  assert (Hmk : mkdir_p cwd (dirname linkPath) (strip nt fs) = (Ok tt, strip nt fs)).
  { unfold mkdir_p. rewrite Hdir. apply mkdir_noop, Hgood. }
  assert (Hsym : forall t, symlink cwd sup t linkPath (strip nt fs)
                 = if sup then (Ok tt, <[nt:=Link t]> (strip nt fs))
                   else (Throw "EPERM", strip nt fs)).
  { intros t. unfold symlink. rewrite Hk, entry_at_ne by exact Hnt.
    rewrite strip_lookup, under_refl, Hstat. destruct sup; reflexivity. }
  unfold createSymlink, try_catch, bind, ret.
  destruct (String.eqb (resolve cwd [target]) (resolve cwd [linkPath])) eqn:Esr;
    cbn [orb]; [reflexivity|].
  rewrite (inspect_spec linkPath (resolve cwd [target]) nt fs Hk Hnt Hsub).
  unfold correct_link. rewrite Hk.
  destruct (fs !! nt) as [[|c|t]|] eqn:E;
    [| |destruct (String.eqb (resolve cwd [dirname linkPath; t]) (resolve cwd [target]));
        [reflexivity|]|];
    rewrite Hmk, Hsym; destruct sup; reflexivity.
Qed.
Lemma under_skipn (rs k : list string) : under rs k = true -> k = rs ++ skipn (length rs) k.
Proof. intros U. apply under_spec in U as [j ->]. rewrite drop_app_length. reflexivity. Qed.

Lemma copy_keys_NoDup (rs rd : list string) (L : list (list string * Entry)) :
  NoDup L.*1 ->
  NoDup (omap (fun kv : list string * Entry =>
             if under rs kv.1
             then Some (rd ++ List.skipn (length rs) kv.1, copy_entry cwd kv.1 kv.2)
             else None) L).*1.
Proof.
  induction L as [|[k e] L IH]; intros HN; [constructor|].
  cbn in HN. apply NoDup_cons in HN as [Hk HN]. cbn [omap list_omap].
  cbn. destruct (under rs k) eqn:U; [|apply IH, HN].
  cbn. apply NoDup_cons. split; [|apply IH, HN].
  intros Hin. apply list_elem_of_fmap in Hin as [[k' v'] [Heq Hin]]. cbn in Heq.
  apply list_elem_of_omap in Hin as [[k0 e0] [Hin Hg]]. cbn in Hg.
  destruct (under rs k0) eqn:U0; [|discriminate]. injection Hg as Hk0 _. subst k'.
  rename Hk0 into Heq. apply app_inv_head in Heq.
  assert (k0 = k) as ->.
  { rewrite (under_skipn rs k0 U0), (under_skipn rs k U), Heq. reflexivity. }
  apply Hk. apply list_elem_of_fmap. exists (k, e0). split; [reflexivity|exact Hin].
Qed.
(** The copy of the tree at [rs] placed at [rd], entry by entry. *)
Lemma copy_tree_in (fs : FS) (rs rd j : list string) :
  copy_tree cwd fs rs rd !! (rd ++ j) = option_map (copy_entry cwd (rs ++ j)) (fs !! (rs ++ j)).
Proof.
  unfold copy_tree. destruct (fs !! (rs ++ j)) as [e|] eqn:E; cbn.
  - apply elem_of_list_to_map_1; [apply copy_keys_NoDup, NoDup_fst_map_to_list|].
    apply list_elem_of_omap. exists (rs ++ j, e). split; [apply elem_of_map_to_list, E|].
    cbn. rewrite under_app, drop_app_length. reflexivity.
  - apply not_elem_of_list_to_map_1. intros Hin.
    apply list_elem_of_fmap in Hin as [[k' v'] [Heq Hin]]. cbn in Heq. subst k'.
    apply list_elem_of_omap in Hin as [[k0 e0] [Hin Hg]]. cbn in Hg.
    destruct (under rs k0) eqn:U0; [|discriminate]. injection Hg as Hk _.
    apply app_inv_head in Hk. apply elem_of_map_to_list in Hin.
    rewrite (under_skipn rs k0 U0), Hk in Hin. congruence.
Qed.

Lemma copy_tree_out (fs : FS) (rs rd k : list string) :
  under rd k = false -> copy_tree cwd fs rs rd !! k = None.
Proof.
  intros Uk. unfold copy_tree. apply not_elem_of_list_to_map_1. intros Hin.
  apply list_elem_of_fmap in Hin as [[k' v'] [Heq Hin]]. cbn in Heq. subst k'.
  apply list_elem_of_omap in Hin as [[k0 e0] [Hin Hg]]. cbn in Hg.
  destruct (under rs k0); [|discriminate]. injection Hg as <- _.
  rewrite under_app in Uk. discriminate.
Qed.
Lemma under_short (k B : list string) (n : string) :
  k `prefix_of` B -> under (B ++ [n]) k = false.
Proof.
  intros Hp. apply prefix_length in Hp.
  destruct (under (B ++ [n]) k) eqn:U; [|reflexivity].
  apply under_spec in U as [j ->]. rewrite !length_app in Hp. cbn in Hp. lia.
Qed.

Lemma dir_good (fs : FS) (B : list string) : fs !! B = Some Dir -> good_base fs B.
Proof.
  intros H. destruct B as [|x B]; [left; reflexivity|right].
  split; [congruence|]. cbn. rewrite H. reflexivity.
Qed.

Lemma good_base_mono (fs fs' : FS) (B : list string) :
  good_base fs B -> (forall k v, fs !! k = Some v -> fs' !! k = Some v) -> good_base fs' B.
Proof.
  intros [HB|[H1 H2]] Hm; [left; exact HB|right]. split.
  - destruct (fs !! B) eqn:E; [|contradiction]. rewrite (Hm _ _ E). discriminate.
  - exact (stat_follow_mono fs fs' _ _ _ Hm H2).
Qed.

Lemma strip_sub (nt : list string) (fs : FS) (k : list string) (v : Entry) :
  strip nt fs !! k = Some v -> fs !! k = Some v.
Proof. rewrite strip_lookup. destruct (under nt k); [discriminate|auto]. Qed.

Lemma strip_insert (nt : list string) (e : Entry) (fs : FS) :
  strip nt (<[nt := e]> fs) = strip nt fs.
Proof.
  apply map_eq. intros k. rewrite !strip_lookup. destruct (under nt k) eqn:U; [reflexivity|].
  rewrite lookup_insert_ne; [reflexivity|]. intros ->. rewrite under_refl in U. discriminate.
Qed.

Lemma strip_strip (nt : list string) (fs : FS) : strip nt (strip nt fs) = strip nt fs.
Proof. apply map_eq. intros k. rewrite !strip_lookup. destruct (under nt k); reflexivity. Qed.

Lemma strip_union (nt : list string) (C fs : FS) :
  (forall k, under nt k = false -> C !! k = None) -> strip nt (C ∪ fs) = strip nt fs.
Proof.
  intros HC. apply map_eq. intros k. rewrite !strip_lookup.
  destruct (under nt k) eqn:U; [reflexivity|]. apply lookup_union_r, HC, U.
Qed.

#[global] Instance Entry_eq_dec : EqDecision Entry.
Proof. solve_decision. Defined.

(** Every strict, non-root prefix of a key holds a directory: the maps
    that describe a tree. *)
Definition parents_ok (fs : FS) (k : list string) : bool :=
  forallb (fun i => bool_decide (fs !! take i k = Some Dir)) (seq 1 (length k - 1)).

Definition wf (fs : FS) : bool := forallb (fun kv => parents_ok fs kv.1) (map_to_list fs).

Lemma wf_spec (fs : FS) (k : list string) (e : Entry) (p : list string) :
  wf fs = true -> fs !! k = Some e -> p `prefix_of` k -> p <> k -> p <> [] ->
  fs !! p = Some Dir.
Proof.
  unfold wf. intros H Hk [q ->] Hpk Hp. rewrite forallb_forall in H.
  specialize (H (p ++ q, e)). unfold parents_ok in H. cbn in H.
  rewrite forallb_forall in H.
  assert (Hq : q <> []) by (intros ->; apply Hpk; rewrite app_nil_r; reflexivity).
  specialize (H (proj1 (list_elem_of_In _ _) (proj2 (elem_of_map_to_list _ _ _) Hk)) (length p)).
  rewrite take_app_length in H. apply bool_decide_eq_true in H; [exact H|].
  apply in_seq. rewrite length_app.
  destruct p; [done|]. destruct q; [done|]. cbn. lia.
Qed.

End FSFacts.

(** The [try] block of [installToAgent], with its results [done_] and
    [fail]. *)
Definition install_core (cwd : string) (sup : bool) (canonicalPath agentBase agentSkillDir : string)
    (done_ : InstallMode -> InstallResult) (fail : string -> InstallResult) : M InstallResult :=
  try_catch
    (bind (mkdir_p cwd agentBase) (fun _ =>
     bind (createSymlink cwd sup canonicalPath agentSkillDir) (fun symlinkCreated =>
       if symlinkCreated then ret (done_ ModeSymlink)
       else
         bind (rm cwd agentSkillDir true true) (fun _ =>
         bind (cp cwd canonicalPath agentSkillDir) (fun _ =>
           ret (done_ ModeCopy))))))
    (fun code => ret (fail code)).

Lemma install_core_eq cwd sup canonicalPath agentBase agentSkillDir done_ fail fs :
  install_core cwd sup canonicalPath agentBase agentSkillDir done_ fail fs =
  match mkdir_p cwd agentBase fs with
  | (Throw c, f1) => (Ok (fail c), f1)
  | (Ok _, f1) =>
      match createSymlink cwd sup canonicalPath agentSkillDir f1 with
      | (Throw c, f2) => (Ok (fail c), f2)
      | (Ok true, f2) => (Ok (done_ ModeSymlink), f2)
      | (Ok false, f2) =>
          match rm cwd agentSkillDir true true f2 with
          | (Throw c, f3) => (Ok (fail c), f3)
          | (Ok _, f3) =>
              match cp cwd canonicalPath agentSkillDir f3 with
              | (Throw c, f4) => (Ok (fail c), f4)
              | (Ok _, f4) => (Ok (done_ ModeCopy), f4)
              end
          end
      end
  end.
Proof.
  unfold install_core, try_catch, bind, ret.
  destruct (mkdir_p cwd agentBase fs) as [[u|c] f1]; [|reflexivity].
  destruct (createSymlink cwd sup canonicalPath agentSkillDir f1) as [[[|]|c] f2]; [reflexivity| |reflexivity].
  destruct (rm cwd agentSkillDir true true f2) as [[u'|c] f3]; [|reflexivity].
  destruct (cp cwd canonicalPath agentSkillDir f3) as [[u''|c] f4]; reflexivity.
Qed.


Section Core.
Variable cwd : string.
Hypothesis Hcwd : is_abs cwd = true.
Variable sup : bool.
Variables canonicalPath agentBase agentSkillDir : string.
Variable done_ : InstallMode -> InstallResult.
Variable fail : string -> InstallResult.
Variable n : string.
Hypothesis Hdone : forall m, success (done_ m) = true.
Hypothesis Hfail : forall c, success (fail c) = false.
Hypothesis Hkey : key cwd agentSkillDir = key cwd agentBase ++ [n].
Hypothesis Hdir : key cwd (dirname agentSkillDir) = key cwd agentBase.

Lemma nt_ne : key cwd agentBase ++ [n] <> [].
Proof. destruct (key cwd agentBase); discriminate. Qed.

Lemma dir_removelast : key cwd (dirname agentSkillDir) = removelast (key cwd agentBase ++ [n]).
Proof. rewrite removelast_last. exact Hdir. Qed.

(** A state the installer reproduces: [fb] is it without the subtree at
    the skill directory, and the step that would rebuild that subtree
    gives it back. *)
Lemma install_stable (fs fb : FS) :
  good_base cwd fb (key cwd agentBase) -> strip (key cwd agentBase ++ [n]) fs = fb ->
  P_sub (key cwd agentBase ++ [n]) fs ->
  (forall k v, fb !! k = Some v -> fs !! k = Some v) ->
  ((String.eqb (resolve cwd [canonicalPath]) (resolve cwd [agentSkillDir])
    || correct_link cwd fs canonicalPath agentSkillDir) = false ->
   if sup then <[key cwd agentBase ++ [n] := Link (relative cwd (dirname agentSkillDir) canonicalPath)]> fb = fs
   else cp cwd canonicalPath agentSkillDir fb = (Ok tt, fs)) ->
  exists r2, install_core cwd sup canonicalPath agentBase agentSkillDir done_ fail fs = (Ok r2, fs)
             /\ success r2 = true.
Proof.
  intros Hgb Hs Hp Hsub Hre.
  rewrite install_core_eq. unfold mkdir_p.
  rewrite (mkdir_noop cwd fs _ (good_base_mono cwd fb fs _ Hgb Hsub)).
  rewrite (createSymlink_spec cwd sup canonicalPath agentSkillDir _ fs Hkey nt_ne dir_removelast Hp)
    by (rewrite removelast_last, Hs; exact Hgb).
  destruct (_ || _) eqn:E.
  { eexists. split; [reflexivity|apply Hdone]. }
  specialize (Hre eq_refl). destruct sup.
  - rewrite Hs, Hre. eexists. split; [reflexivity|apply Hdone].
  - rewrite Hs. unfold rm. rewrite Hkey, (entry_at_ne _ _ nt_ne).
    rewrite <- Hs, strip_lookup, under_refl. cbn [negb]. rewrite Hs, Hre.
    eexists. split; [reflexivity|apply Hdone].
Qed.
Lemma app_ne_self (l j : list string) : j <> [] -> l <> l ++ j.
Proof. intros Hj H. apply Hj. rewrite <- (app_nil_r l) in H at 1. apply app_inv_head in H. done. Qed.

(** After a successful run, the state is one the installer reproduces. *)
Lemma install_core_idem (fs0 fs1 : FS) (r1 : InstallResult) :
  wf fs0 = true ->
  install_core cwd sup canonicalPath agentBase agentSkillDir done_ fail fs0 = (Ok r1, fs1) ->
  success r1 = true ->
  exists r2, install_core cwd sup canonicalPath agentBase agentSkillDir done_ fail fs1 = (Ok r2, fs1)
             /\ success r2 = true.
Proof.
  intros Hwf Hrun Hs1.
  rewrite install_core_eq in Hrun. unfold mkdir_p in Hrun.
  destruct (mkdir_rev cwd fs0 (List.rev (key cwd agentBase))) as [[u|c] fa] eqn:Hmk;
    [|injection Hrun as <- <-; rewrite Hfail in Hs1; discriminate].
  destruct u. destruct (mkdir_ok cwd fs0 _ fa Hmk) as (Hm & Hnew & Hbase).
  rewrite rev_involutive in Hnew, Hbase.
  set (B := key cwd agentBase) in *. set (NT := B ++ [n]) in *.
  assert (Hpa : P_sub NT fa).
  { intros j v Hj Hv. destruct (fs0 !! (NT ++ j)) as [v'|] eqn:E0.
    - apply Hm. apply (wf_spec fs0 (NT ++ j) v' NT Hwf E0);
        [exists j; reflexivity|apply app_ne_self, Hj|exact nt_ne].
    - destruct (Hnew _ _ Hv E0) as (Hpre & _ & _). apply prefix_length in Hpre.
      unfold NT in Hpre. rewrite !length_app in Hpre. destruct j; [done|]. cbn in Hpre. lia. }
  assert (Hgb : good_base cwd (strip NT fa) B).
  { destruct (decide (B = [])) as [HB|HB]; [left; exact HB|].
    assert (HuB : under NT B = false) by (apply under_short; reflexivity).
    destruct Hbase as [HB0|[HD|(-> & HB1 & HB2)]].
    - exfalso. apply HB. apply (f_equal (@List.rev string)) in HB0. rewrite rev_involutive in HB0. exact HB0.
    - apply dir_good. rewrite strip_lookup, HuB. exact HD.
    - destruct (fs0 !! B) as [[| |]|] eqn:EB;
        [apply dir_good; rewrite strip_lookup, HuB; exact EB| | |contradiction].
      all: assert (Hid : strip NT fs0 = fs0).
      all: try (apply map_eq; intros k; rewrite strip_lookup; destruct (under NT k) eqn:U; [|reflexivity];
        destruct (fs0 !! k) as [e|] eqn:Ek; [|reflexivity]; exfalso;
        apply under_spec in U as [j ->];
        assert (HD : fs0 !! B = Some Dir) by
          (apply (wf_spec fs0 (NT ++ j) e B Hwf Ek); [exists ([n] ++ j); unfold NT; rewrite <- app_assoc; reflexivity
           |intros H; apply (f_equal length) in H; unfold NT in H; rewrite !length_app in H; cbn in H; lia
           |exact HB]);
        congruence).
      all: rewrite Hid; right; split; [rewrite EB; discriminate|exact HB2]. }
  rewrite (createSymlink_spec cwd sup canonicalPath agentSkillDir NT fa Hkey nt_ne dir_removelast Hpa)
    in Hrun by (unfold NT; rewrite removelast_last; exact Hgb).
  assert (Hfb_nt : forall k, under NT k = true -> strip NT fa !! k = None).
  { intros k U. rewrite strip_lookup, U. reflexivity. }
  destruct (_ || _) eqn:E.
  { injection Hrun as <- <-.
    apply (install_stable fa (strip NT fa)); [exact Hgb|reflexivity|exact Hpa|apply strip_sub|].
    intros E'. rewrite E in E'. discriminate. }
  apply orb_false_iff in E as [E1 E2].
  assert (Hsup : sup = true \/ sup = false) by (destruct sup; auto).
  destruct Hsup as [Hsup|Hsup]; rewrite Hsup in Hrun.
  { injection Hrun as <- <-.
    apply (install_stable _ (strip NT fa)); [exact Hgb|rewrite strip_insert, strip_strip; reflexivity| | |].
    - intros j v Hj Hv. rewrite lookup_insert_ne in Hv by apply app_ne_self, Hj.
      rewrite Hfb_nt in Hv by apply under_app. discriminate.
    - intros k v Hk. rewrite lookup_insert_ne; [exact Hk|]. intros <-.
      rewrite Hfb_nt in Hk by apply under_refl. discriminate.
    - intros E'. exfalso. apply orb_false_iff in E' as [_ E'].
      unfold correct_link in E'. rewrite Hkey, lookup_insert_eq in E'.
      rewrite (resolve_relative cwd Hcwd), String.eqb_refl in E'. discriminate. }
  unfold rm in Hrun. rewrite Hkey, (entry_at_ne _ _ nt_ne), Hfb_nt in Hrun by apply under_refl.
  cbv beta iota in Hrun.
  destruct (cp cwd canonicalPath agentSkillDir (strip NT fa)) as [[u|c] f4] eqn:Hcp;
    [|injection Hrun as <- <-; rewrite Hfail in Hs1; discriminate].
  injection Hrun as <- <-. destruct u. pose proof Hcp as Hcp0.
  set (fb := strip NT fa) in *. set (rs := key cwd canonicalPath) in *.
  unfold cp in Hcp. rewrite Hkey in Hcp. fold rs in Hcp.
  destruct (entry_at fb rs) as [e0|] eqn:Ers; [|discriminate].
  destruct (under rs NT) eqn:Urs; [discriminate|].
  injection Hcp as Hf4. subst f4.
  assert (Hrs0 : rs <> []).
  { intros Hr. rewrite Hr in Urs. unfold under in Urs. apply bool_decide_eq_false in Urs.
    apply Urs. exists NT. reflexivity. }
  assert (Hprs : P_sub rs fb).
  { intros j v Hj Hv.
    assert (U1 : under NT (rs ++ j) = false).
    { destruct (under NT (rs ++ j)) eqn:U; [|reflexivity]. rewrite Hfb_nt in Hv by exact U. discriminate. }
    assert (Hv' : fa !! (rs ++ j) = Some v) by (apply strip_sub in Hv; exact Hv).
    assert (U2 : under NT rs = false).
    { destruct (under NT rs) eqn:U; [|reflexivity]. apply under_spec in U as [i Hi].
      rewrite Hi, <- app_assoc, under_app in U1. discriminate. }
    unfold fb. rewrite strip_lookup, U2.
    destruct (fs0 !! (rs ++ j)) as [v'|] eqn:E0.
    - apply Hm. apply (wf_spec fs0 (rs ++ j) v' rs Hwf E0);
        [exists j; reflexivity|apply app_ne_self, Hj|exact Hrs0].
    - destruct (Hnew _ _ Hv' E0) as (Hpre & _ & _). exfalso.
      assert (HU : under rs NT = true).
      { apply under_spec. destruct Hpre as [q Hq]. exists (j ++ q ++ [n]).
        unfold NT. rewrite Hq. rewrite !app_assoc. reflexivity. }
      congruence. }
  apply (install_stable _ fb); [exact Hgb| | | |].
  - rewrite strip_union; [apply strip_strip|]. intros k U. apply copy_tree_out, U.
  - intros j v Hj Hv.
    rewrite lookup_union_l in Hv by (apply Hfb_nt, under_app).
    rewrite copy_tree_in in Hv. destruct (fb !! (rs ++ j)) as [e|] eqn:Ej; [|discriminate].
    pose proof (Hprs j e Hj Ej) as Hd.
    rewrite lookup_union_l by (apply Hfb_nt, under_refl).
    pose proof (copy_tree_in cwd fb rs NT []) as H0. rewrite !app_nil_r in H0.
    rewrite Hd in H0. exact H0.
  - intros k v Hk. rewrite lookup_union_r; [exact Hk|]. apply copy_tree_out.
    destruct (under NT k) eqn:U; [|reflexivity]. rewrite Hfb_nt in Hk by exact U. discriminate.
  - intros _. rewrite Hsup. exact Hcp0.
Qed.
(** Whether the link check of [createSymlink] keeps what is at the skill
    directory. *)
Definition link_kept (fs : FS) : bool :=
  String.eqb (resolve cwd [canonicalPath]) (resolve cwd [agentSkillDir])
  || correct_link cwd fs canonicalPath agentSkillDir.

(** The premises of [install_stable]. *)
Definition stable_state (fs fb : FS) : Prop :=
  good_base cwd fb (key cwd agentBase)
  /\ strip (key cwd agentBase ++ [n]) fs = fb
  /\ P_sub (key cwd agentBase ++ [n]) fs
  /\ (forall k v, fb !! k = Some v -> fs !! k = Some v)
  /\ (link_kept fs = false ->
      if sup then <[key cwd agentBase ++ [n] := Link (relative cwd (dirname agentSkillDir) canonicalPath)]> fb = fs
      else cp cwd canonicalPath agentSkillDir fb = (Ok tt, fs)).

(** The state after a successful run: [fb] is the file system after
    [mkdir_p] without the subtree at the skill directory. *)
Lemma install_post (fs0 fs1 : FS) (r1 : InstallResult) :
  wf fs0 = true ->
  install_core cwd sup canonicalPath agentBase agentSkillDir done_ fail fs0 = (Ok r1, fs1) ->
  success r1 = true ->
  stable_state fs1 (strip (key cwd agentBase ++ [n]) (snd (mkdir_p cwd agentBase fs0)))
  /\ ((r1 = done_ ModeSymlink /\ link_kept fs1 = true) \/ r1 = done_ ModeCopy).
Proof.
  intros Hwf Hrun Hs1. unfold stable_state, link_kept.
  rewrite install_core_eq in Hrun. unfold mkdir_p in *.
  destruct (mkdir_rev cwd fs0 (List.rev (key cwd agentBase))) as [[u|c] fa] eqn:Hmk;
    [|injection Hrun as <- <-; rewrite Hfail in Hs1; discriminate].
  cbn [snd]. destruct u. destruct (mkdir_ok cwd fs0 _ fa Hmk) as (Hm & Hnew & Hbase).
  rewrite rev_involutive in Hnew, Hbase.
  set (B := key cwd agentBase) in *. set (NT := B ++ [n]) in *.
  assert (Hpa : P_sub NT fa).
  { intros j v Hj Hv. destruct (fs0 !! (NT ++ j)) as [v'|] eqn:E0.
    - apply Hm. apply (wf_spec fs0 (NT ++ j) v' NT Hwf E0);
        [exists j; reflexivity|apply app_ne_self, Hj|exact nt_ne].
    - destruct (Hnew _ _ Hv E0) as (Hpre & _ & _). apply prefix_length in Hpre.
      unfold NT in Hpre. rewrite !length_app in Hpre. destruct j; [done|]. cbn in Hpre. lia. }
  assert (Hgb : good_base cwd (strip NT fa) B).
  { destruct (decide (B = [])) as [HB|HB]; [left; exact HB|].
    assert (HuB : under NT B = false) by (apply under_short; reflexivity).
    destruct Hbase as [HB0|[HD|(-> & HB1 & HB2)]].
    - exfalso. apply HB. apply (f_equal (@List.rev string)) in HB0. rewrite rev_involutive in HB0. exact HB0.
    - apply dir_good. rewrite strip_lookup, HuB. exact HD.
    - destruct (fs0 !! B) as [[| |]|] eqn:EB;
        [apply dir_good; rewrite strip_lookup, HuB; exact EB| | |contradiction].
      all: assert (Hid : strip NT fs0 = fs0).
      all: try (apply map_eq; intros k; rewrite strip_lookup; destruct (under NT k) eqn:U; [|reflexivity];
        destruct (fs0 !! k) as [e|] eqn:Ek; [|reflexivity]; exfalso;
        apply under_spec in U as [j ->];
        assert (HD : fs0 !! B = Some Dir) by
          (apply (wf_spec fs0 (NT ++ j) e B Hwf Ek); [exists ([n] ++ j); unfold NT; rewrite <- app_assoc; reflexivity
           |intros H; apply (f_equal length) in H; unfold NT in H; rewrite !length_app in H; cbn in H; lia
           |exact HB]);
        congruence).
      all: rewrite Hid; right; split; [rewrite EB; discriminate|exact HB2]. }
  rewrite (createSymlink_spec cwd sup canonicalPath agentSkillDir NT fa Hkey nt_ne dir_removelast Hpa)
    in Hrun by (unfold NT; rewrite removelast_last; exact Hgb).
  assert (Hfb_nt : forall k, under NT k = true -> strip NT fa !! k = None).
  { intros k U. rewrite strip_lookup, U. reflexivity. }
  destruct (_ || _) eqn:E.
  { injection Hrun as <- <-.
    split; [|left; split; [reflexivity|exact E]].
    split; [exact Hgb|]. split; [reflexivity|]. split; [exact Hpa|]. split; [apply strip_sub|].
    intros E'. rewrite E in E'. discriminate. }
  apply orb_false_iff in E as [E1 E2].
  assert (Hsup : sup = true \/ sup = false) by (destruct sup; auto).
  destruct Hsup as [Hsup|Hsup]; rewrite Hsup in Hrun.
  { injection Hrun as <- <-.
    assert (Hcl : correct_link cwd (<[NT:=Link (relative cwd (dirname agentSkillDir) canonicalPath)]> (strip NT fa))
                    canonicalPath agentSkillDir = true).
    { unfold correct_link. rewrite Hkey, lookup_insert_eq.
      rewrite (resolve_relative cwd Hcwd), String.eqb_refl. reflexivity. }
    split; [|left; split; [reflexivity|rewrite Hcl, orb_true_r; reflexivity]].
    split; [exact Hgb|]. split; [rewrite strip_insert, strip_strip; reflexivity|]. split; [|split].
    - intros j v Hj Hv. rewrite lookup_insert_ne in Hv by apply app_ne_self, Hj.
      rewrite Hfb_nt in Hv by apply under_app. discriminate.
    - intros k v Hk. rewrite lookup_insert_ne; [exact Hk|]. intros <-.
      rewrite Hfb_nt in Hk by apply under_refl. discriminate.
    - intros E'. exfalso. rewrite Hcl, orb_true_r in E'. discriminate. }
  unfold rm in Hrun. rewrite Hkey, (entry_at_ne _ _ nt_ne), Hfb_nt in Hrun by apply under_refl.
  cbv beta iota in Hrun.
  destruct (cp cwd canonicalPath agentSkillDir (strip NT fa)) as [[u|c] f4] eqn:Hcp;
    [|injection Hrun as <- <-; rewrite Hfail in Hs1; discriminate].
  injection Hrun as <- <-. destruct u. pose proof Hcp as Hcp0.
  set (fb := strip NT fa) in *. set (rs := key cwd canonicalPath) in *.
  unfold cp in Hcp. rewrite Hkey in Hcp. fold rs in Hcp.
  destruct (entry_at fb rs) as [e0|] eqn:Ers; [|discriminate].
  destruct (under rs NT) eqn:Urs; [discriminate|].
  injection Hcp as Hf4. subst f4.
  assert (Hrs0 : rs <> []).
  { intros Hr. rewrite Hr in Urs. unfold under in Urs. apply bool_decide_eq_false in Urs.
    apply Urs. exists NT. reflexivity. }
  assert (Hprs : P_sub rs fb).
  { intros j v Hj Hv.
    assert (U1 : under NT (rs ++ j) = false).
    { destruct (under NT (rs ++ j)) eqn:U; [|reflexivity]. rewrite Hfb_nt in Hv by exact U. discriminate. }
    assert (Hv' : fa !! (rs ++ j) = Some v) by (apply strip_sub in Hv; exact Hv).
    assert (U2 : under NT rs = false).
    { destruct (under NT rs) eqn:U; [|reflexivity]. apply under_spec in U as [i Hi].
      rewrite Hi, <- app_assoc, under_app in U1. discriminate. }
    unfold fb. rewrite strip_lookup, U2.
    destruct (fs0 !! (rs ++ j)) as [v'|] eqn:E0.
    - apply Hm. apply (wf_spec fs0 (rs ++ j) v' rs Hwf E0);
        [exists j; reflexivity|apply app_ne_self, Hj|exact Hrs0].
    - destruct (Hnew _ _ Hv' E0) as (Hpre & _ & _). exfalso.
      assert (HU : under rs NT = true).
      { apply under_spec. destruct Hpre as [q Hq]. exists (j ++ q ++ [n]).
        unfold NT. rewrite Hq. rewrite !app_assoc. reflexivity. }
      congruence. }
  split; [|right; reflexivity].
  split; [exact Hgb|]. split; [|split; [|split]].
  - rewrite strip_union; [apply strip_strip|]. intros k U. apply copy_tree_out, U.
  - intros j v Hj Hv.
    rewrite lookup_union_l in Hv by (apply Hfb_nt, under_app).
    rewrite copy_tree_in in Hv. destruct (fb !! (rs ++ j)) as [e|] eqn:Ej; [|discriminate].
    pose proof (Hprs j e Hj Ej) as Hd.
    rewrite lookup_union_l by (apply Hfb_nt, under_refl).
    pose proof (copy_tree_in cwd fb rs NT []) as H0. rewrite !app_nil_r in H0.
    rewrite Hd in H0. exact H0.
  - intros k v Hk. rewrite lookup_union_r; [exact Hk|]. apply copy_tree_out.
    destruct (under NT k) eqn:U; [|reflexivity]. rewrite Hfb_nt in Hk by exact U. discriminate.
  - intros _. rewrite Hsup. first [exact Hcp0 | reflexivity].
Qed.

End Core.

(** A small project tree: a cached skill [hello] with one file. *)
Definition c7_fs0 : Installer.FS :=
  list_to_map [(["home"], Installer.Dir); (["home"; "u"], Installer.Dir);
               (["home"; "u"; ".vett"], Installer.Dir);
               (["home"; "u"; ".vett"; "skills"], Installer.Dir);
               (["home"; "u"; ".vett"; "skills"; "hello"], Installer.Dir);
               (["home"; "u"; ".vett"; "skills"; "hello"; "SKILL.md"], Installer.File "# Hello")].

End InstallFacts.

(* ------------------------------------------------------------------ *)
(** ** Removing skills: [getAgentSkillPath], [removeFromAgent] *)

Module UninstallFacts.
Import Installer PathFacts InstallFacts.

Section Safe.
Variable cwd : string.
Hypothesis Hcwd : is_abs cwd = true.

(** A resolved path is already normal. *)
Lemma normalize_resolve (p : string) : normalize (resolve cwd [p]) = resolve cwd [p].
Proof.
  rewrite (resolve_eq cwd Hcwd). change (resolve_key cwd [p]) with (key cwd p).
  pose proof (key_clean cwd Hcwd p) as HK.
  destruct (key cwd p) as [|w K] eqn:EK; [reflexivity|].
  pose proof (clean_forall _ HK) as HK'.
  assert (HJ : JS.join (w :: K) "/" <> "") by (apply join_nonempty; [exact HK'|done]).
  unfold normalize.
  destruct (String.eqb_spec ("/" +:+ JS.join (w :: K) "/") "") as [H|_]; [discriminate|].
  rewrite is_abs_slash.
  assert (He : ends_with_sep ("/" +:+ JS.join (w :: K) "/") = false).
  { destruct (exists_last (l := w :: K) ltac:(done)) as (K' & m & HKm).
    rewrite HKm in HK' |- *. apply Forall_app in HK' as [HK1 HK2].
    apply Forall_cons in HK2 as [[Hm1 Hm2] _].
    destruct K' as [|x K'].
    - cbn [app]. change (JS.join [m] "/") with m. apply ends_noslash; assumption.
    - rewrite join_snoc by done. rewrite <- !StrFacts.append_assoc.
      apply ends_noslash; assumption. }
  rewrite He. unfold normalizeString, norm_segs. rewrite split_slash.
  rewrite (split_join _ HK' ltac:(done)). cbn [negb].
  change (fold_left (norm_step false) ("" :: w :: K) [])
    with (fold_left (norm_step false) (w :: K) (norm_step false [] "")).
  rewrite (step_skip false [] "") by (left; reflexivity).
  rewrite fold_clean by exact HK. rewrite app_nil_r, rev_involutive.
  destruct (String.eqb_spec (JS.join (w :: K) "/") "") as [H|_]; [contradiction|].
  reflexivity.
Qed.

(** [isPathSafe(base, join(base, n))] for a clean segment [n]: it fails
    only when [base] resolves to the root, where [resolve(base) + sep] is
    [//]. *)
Lemma isPathSafe_join (b n : string) :
  clean_seg n -> isPathSafe cwd b (join b n) = negb (String.eqb (resolve cwd [b]) "/").
Proof.
  intros Hn. pose proof Hn as (Hn1 & Hn2 & Hn3 & Hn4).
  unfold isPathSafe. rewrite !normalize_resolve.
  rewrite !(resolve_eq cwd Hcwd). change (resolve_key cwd [join b n]) with (key cwd (join b n)).
  change (resolve_key cwd [b]) with (key cwd b).
  rewrite (key_join cwd Hcwd b n Hn).
  pose proof (clean_forall _ (key_clean cwd Hcwd b)) as HK.
  destruct (key cwd b) as [|w K] eqn:EK.
  - cbn [app]. change (JS.join [n] "/") with n. change (JS.join [] "/") with "".
    destruct n as [|c t]; [done|].
    pose proof (noslash_cons c t Hn4) as Hc.
    change ("/" +:+ "") with "/". change ("/" +:+ String c t) with (String "/"%char (String c t)).
    unfold startsWith.
    destruct c as [[] [] [] [] [] [] [] []]; cbn in Hc |- *; first [reflexivity | discriminate Hc].
  - rewrite join_snoc by done.
    assert (HJ : JS.join (w :: K) "/" <> "") by (apply join_nonempty; [exact HK|done]).
    rewrite <- (StrFacts.append_assoc "/" (JS.join (w :: K) "/") ("/" +:+ n)).
    rewrite <- (StrFacts.append_assoc ("/" +:+ JS.join (w :: K) "/") "/" n).
    rewrite GitHubFacts.startsWith_app. cbn [orb].
    destruct (String.eqb_spec ("/" +:+ JS.join (w :: K) "/") "/") as [H|_]; [|reflexivity].
    exfalso. exact (slash_ne_slash _ HJ H).
Qed.


(** The converse of [wf_spec]. *)
Lemma wf_intro (fs : FS) :
  (forall k e p, fs !! k = Some e -> p `prefix_of` k -> p <> k -> p <> [] -> fs !! p = Some Dir) ->
  wf fs = true.
Proof.
  intros H. unfold wf. apply forallb_forall. intros [k e] Hin.
  apply list_elem_of_In, elem_of_map_to_list in Hin. cbn [fst].
  unfold parents_ok. apply forallb_forall. intros i Hi. apply in_seq in Hi.
  apply bool_decide_eq_true_2. apply (H k e); [exact Hin| | |].
  - exists (drop i k). symmetry. apply take_drop.
  - intros Heq. apply (f_equal length) in Heq. rewrite length_take in Heq. lia.
  - intros Heq. apply (f_equal length) in Heq. rewrite length_take in Heq. cbn in Heq. lia.
Qed.

(** Removing a subtree keeps a map a tree. *)
Lemma wf_strip (nt : list string) (fs : FS) : wf fs = true -> wf (strip nt fs) = true.
Proof.
  intros Hwf. apply wf_intro. intros k e p Hk Hp Hpk Hp0.
  rewrite strip_lookup in Hk |- *. destruct (under nt k) eqn:U; [discriminate|].
  destruct (under nt p) eqn:Up.
  - exfalso. apply under_spec in Up as [j ->]. destruct Hp as [q ->].
    rewrite <- app_assoc, under_app in U. discriminate.
  - exact (wf_spec fs k e p Hwf Hk Hp Hpk Hp0).
Qed.

(** In a tree, anything below a key hangs from a directory there. *)
Lemma wf_P_sub (nt : list string) (fs : FS) : wf fs = true -> nt <> [] -> P_sub nt fs.
Proof.
  intros Hwf Hnt j v Hj Hv.
  apply (wf_spec fs (nt ++ j) v nt Hwf Hv); [exists j; reflexivity|apply app_ne_self, Hj|exact Hnt].
Qed.

(** [rm(p, { recursive: true, force: true })] removes exactly the subtree at
    [p] when everything below [p] hangs from a directory at [p]. *)
Lemma rm_subtree (p : string) (nt : list string) (fs : FS) :
  key cwd p = nt -> nt <> [] -> P_sub nt fs -> rm cwd p true true fs = (Ok tt, strip nt fs).
Proof.
  intros Hk Hnt Hp. unfold rm. rewrite Hk, (entry_at_ne _ _ Hnt).
  destruct (fs !! nt) as [[| |]|] eqn:E; [reflexivity| | |].
  1,2: rewrite (strip_delete nt fs Hp) by (rewrite E; discriminate); reflexivity.
  rewrite (strip_none nt fs Hp E). reflexivity.
Qed.
End Safe.

Section Agent.
Variables (cwd : string) (sup : bool) (canonicalPath skillName : string) (agent : AgentConfig)
          (global : option bool) (cwd_opt : option string).

(** The skill directory is [join(agentBase, sanitizeName(skillName))]. *)
Lemma getAgentSkillPath_join (base dir : string) :
  getAgentSkillPath cwd skillName agent global cwd_opt = Some (base, dir) ->
  dir = join base (Sanitize.sanitizeName skillName).
Proof.
  unfold getAgentSkillPath. cbv zeta. destruct (_ && no_global agent); [discriminate|].
  intros H. injection H as <- <-. reflexivity.
Qed.

(** Past its two guards, [installToAgent] is its [try] block. *)
Lemma installToAgent_core (base dir : string) (fs : FS) :
  getAgentSkillPath cwd skillName agent global cwd_opt = Some (base, dir) ->
  isPathSafe cwd base dir = true ->
  installToAgent cwd sup canonicalPath skillName agent global cwd_opt fs =
  install_core cwd sup canonicalPath base dir
    (fun m => mkInstallResult (agent_name agent) (displayName agent) dir m true None)
    (fun code => mkInstallResult (agent_name agent) (displayName agent) dir ModeSymlink false (Some code))
    fs.
Proof.
  unfold getAgentSkillPath, installToAgent. cbv zeta. destruct (_ && no_global agent); [discriminate|].
  intros H. injection H as <- <-. intros ->. reflexivity.
Qed.

(** [removeFromAgent] once the agent supports the scope. *)
Lemma removeFromAgent_eq (base dir : string) (fs : FS) :
  getAgentSkillPath cwd skillName agent global cwd_opt = Some (base, dir) ->
  removeFromAgent cwd skillName agent global cwd_opt fs =
  if negb (isPathSafe cwd base dir) then (Ok (mkRemoveResult false (Some "Invalid skill name")), fs)
  else match rm cwd dir true true fs with
       | (Ok _, f) => (Ok (mkRemoveResult true None), f)
       | (Throw c, f) => (Ok (mkRemoveResult false (Some c)), f)
       end.
Proof.
  unfold getAgentSkillPath, removeFromAgent. cbv zeta. destruct (_ && no_global agent); [discriminate|].
  intros H. injection H as <- <-.
  destruct (negb _); [reflexivity|].
  unfold try_catch, bind, ret. destruct (rm _ _ _ _ fs) as [[]]; reflexivity.
Qed.

End Agent.

(** A successful install passed both guards. *)
Lemma installToAgent_success_path (cwd : string) (sup : bool) (canonicalPath skillName : string)
    (agent : AgentConfig) (global : option bool) (cwd_opt : option string) (fs fs' : FS) (r : InstallResult) :
  installToAgent cwd sup canonicalPath skillName agent global cwd_opt fs = (Ok r, fs') ->
  success r = true ->
  exists base dir, getAgentSkillPath cwd skillName agent global cwd_opt = Some (base, dir)
                   /\ isPathSafe cwd base dir = true.
Proof.
  unfold getAgentSkillPath, installToAgent. cbv zeta. destruct (_ && no_global agent).
  { intros H. injection H as <- <-. discriminate. }
  intros Hrun Hs. do 2 eexists. split; [reflexivity|].
  destruct (isPathSafe _ _ _); [reflexivity|]. injection Hrun as <- <-. discriminate.
Qed.

(** [removeFromAgent] on a tree, for an agent base other than the root:
    it succeeds, removes exactly the subtree at the skill directory, and
    leaves a tree. *)
Theorem removeFromAgent_removes_subtree (cwd skillName : string) (agent : AgentConfig)
    (global : option bool) (cwd_opt : option string) (base dir : string) (fs : FS) :
  is_abs cwd = true -> wf fs = true ->
  getAgentSkillPath cwd skillName agent global cwd_opt = Some (base, dir) ->
  resolve cwd [base] <> "/" ->
  removeFromAgent cwd skillName agent global cwd_opt fs
    = (Ok (mkRemoveResult true None), strip (key cwd dir) fs)
  /\ wf (strip (key cwd dir) fs) = true.
Proof.
  intros Habs Hwf Hg Hroot.
  pose proof (getAgentSkillPath_join _ _ _ _ _ _ _ Hg) as Hd.
  rewrite (removeFromAgent_eq _ _ _ _ _ _ _ _ Hg).
  rewrite Hd, (isPathSafe_join cwd Habs) by apply sanitize_clean.
  destruct (String.eqb_spec (resolve cwd [base]) "/") as [H|_]; [contradiction|]. cbn [negb].
  assert (Hk : key cwd (join base (Sanitize.sanitizeName skillName))
               = key cwd base ++ [Sanitize.sanitizeName skillName])
    by (apply key_join; [exact Habs|apply sanitize_clean]).
  split; [|apply wf_strip, Hwf].
  rewrite (rm_subtree cwd _ _ fs Hk) by (destruct (key cwd base); discriminate
                                     || (apply wf_P_sub; [exact Hwf|destruct (key cwd base); discriminate])).
  rewrite Hk. reflexivity.
Qed.

(** Removing a skill just installed: the result names the skill
    directory, the removal succeeds and leaves the file system as it was
    after the base directories were made, without the skill directory;
    no entry outside the skill directory is lost. *)
Theorem install_then_remove (cwd : string) (sup : bool) (canonicalPath skillName : string)
    (agent : AgentConfig) (global : option bool) (cwd_opt : option string)
    (base dir : string) (fs0 fs1 : FS) (r1 : InstallResult) :
  is_abs cwd = true -> wf fs0 = true ->
  getAgentSkillPath cwd skillName agent global cwd_opt = Some (base, dir) ->
  installToAgent cwd sup canonicalPath skillName agent global cwd_opt fs0 = (Ok r1, fs1) ->
  success r1 = true ->
  res_path r1 = dir
  /\ removeFromAgent cwd skillName agent global cwd_opt fs1
       = (Ok (mkRemoveResult true None), strip (key cwd dir) (snd (mkdir_p cwd base fs0)))
  /\ (forall k v, fs0 !! k = Some v -> under (key cwd dir) k = false ->
        strip (key cwd dir) (snd (mkdir_p cwd base fs0)) !! k = Some v).
Proof.
  intros Habs Hwf Hg Hrun Hs1.
  destruct (installToAgent_success_path _ _ _ _ _ _ _ _ _ _ Hrun Hs1) as (b' & d' & Hg' & Hps).
  rewrite Hg in Hg'. injection Hg' as <- <-.
  pose proof (getAgentSkillPath_join _ _ _ _ _ _ _ Hg) as Hd.
  set (nm := Sanitize.sanitizeName skillName) in Hd.
  assert (Hk : key cwd dir = key cwd base ++ [nm])
    by (rewrite Hd; apply key_join; [exact Habs|apply sanitize_clean]).
  assert (Hkd : key cwd (dirname dir) = key cwd base)
    by (rewrite Hd; apply key_dirname_join; [exact Habs|apply sanitize_clean]).
  rewrite (installToAgent_core _ _ _ _ _ _ _ _ _ fs0 Hg Hps) in Hrun.
  pose proof (fun Hf => install_post cwd Habs sup canonicalPath base dir _ _ nm Hf Hk Hkd
                         fs0 fs1 r1 Hwf Hrun Hs1) as HP.
  destruct (HP (fun c => eq_refl)) as [(Hgb & Hst & Hps1 & Hsub & _) Hr].
  split; [destruct Hr as [[-> _]| ->]; reflexivity|].
  split.
  - rewrite (removeFromAgent_eq _ _ _ _ _ _ _ _ Hg), Hps. cbn [negb].
    rewrite (rm_subtree cwd dir (key cwd base ++ [nm]) fs1 Hk) by
      (first [destruct (key cwd base); discriminate | exact Hps1]).
    rewrite Hst, Hk. reflexivity.
  - intros k v Hk0 Hu. rewrite strip_lookup, Hu.
    rewrite install_core_eq in Hrun. unfold mkdir_p in *.
    destruct (mkdir_rev cwd fs0 (List.rev (key cwd base))) as [[[]|c] fa] eqn:Hmk;
      [|injection Hrun as <- <-; discriminate].
    destruct (mkdir_ok cwd fs0 _ fa Hmk) as (Hm & _ & _). exact (Hm k v Hk0).
Qed.

(** After an install reported as a symlink, where the canonical path and
    the skill directory differ, [checkSymlinkStatus] finds the link with
    the right target: it reports [ok] or [broken], never [missing],
    [wrong_target] or [copy]. *)
Theorem install_symlink_status (cwd : string) (sup : bool) (canonicalPath skillName : string)
    (agent : AgentConfig) (global : option bool) (cwd_opt : option string)
    (fs0 fs1 : FS) (r1 : InstallResult) :
  is_abs cwd = true -> wf fs0 = true ->
  installToAgent cwd sup canonicalPath skillName agent global cwd_opt fs0 = (Ok r1, fs1) ->
  success r1 = true -> mode r1 = ModeSymlink ->
  resolve cwd [canonicalPath] <> resolve cwd [res_path r1] ->
  fst (checkSymlinkStatus cwd (res_path r1) canonicalPath fs1) = Ok ok
  \/ fst (checkSymlinkStatus cwd (res_path r1) canonicalPath fs1) = Ok broken.
Proof.
  intros Habs Hwf Hrun Hs1 Hm Hne.
  destruct (installToAgent_success_path _ _ _ _ _ _ _ _ _ _ Hrun Hs1) as (base & dir & Hg & Hps).
  pose proof (getAgentSkillPath_join _ _ _ _ _ _ _ Hg) as Hd.
  set (nm := Sanitize.sanitizeName skillName) in Hd.
  assert (Hk : key cwd dir = key cwd base ++ [nm])
    by (rewrite Hd; apply key_join; [exact Habs|apply sanitize_clean]).
  assert (Hkd : key cwd (dirname dir) = key cwd base)
    by (rewrite Hd; apply key_dirname_join; [exact Habs|apply sanitize_clean]).
  rewrite (installToAgent_core _ _ _ _ _ _ _ _ _ fs0 Hg Hps) in Hrun.
  pose proof (fun Hf => install_post cwd Habs sup canonicalPath base dir _ _ nm Hf Hk Hkd
                         fs0 fs1 r1 Hwf Hrun Hs1) as HP.
  destruct (HP (fun c => eq_refl)) as [_ [[-> Hl]| ->]]; [|discriminate Hm].
  cbn [res_path] in Hne |- *.
  unfold link_kept in Hl.
  destruct (String.eqb_spec (resolve cwd [canonicalPath]) (resolve cwd [dir])) as [H|_];
    [contradiction|]. cbn [orb] in Hl.
  rewrite InstallerFacts.checkSymlinkStatus_eq. cbn [fst].
  unfold correct_link in Hl. rewrite Hk in Hl |- *.
  rewrite entry_at_ne by (destruct (key cwd base); discriminate).
  destruct (fs1 !! (key cwd base ++ [nm])) as [[| |t]|]; try discriminate Hl.
  rewrite Hl. cbn [negb].
  destruct (bool_decide _); [left|right]; reflexivity.
Qed.

(** The traversal guard of [installToAgent] and [removeFromAgent]: with
    the sanitized name it fails only when the agent base resolves to the
    root. *)
Theorem agent_path_safe (cwd skillName : string) (agent : AgentConfig) (global : option bool)
    (cwd_opt : option string) (base dir : string) :
  is_abs cwd = true ->
  getAgentSkillPath cwd skillName agent global cwd_opt = Some (base, dir) ->
  isPathSafe cwd base dir = negb (String.eqb (resolve cwd [base]) "/").
Proof.
  intros Habs Hg. rewrite (getAgentSkillPath_join _ _ _ _ _ _ _ Hg).
  apply (isPathSafe_join cwd Habs), sanitize_clean.
Qed.

(** A run is determined by its result and final state. *)
Lemma run_pair {A} (m : M A) (fs : FS) (r : A) : fst (m fs) = Ok r -> m fs = (Ok r, snd (m fs)).
Proof. destruct (m fs) as [x f]. cbn. intros ->. reflexivity. Qed.

(** Instance: the name [../../etc] for Replit in [/home/u]. *)
Lemma agent_path_safe_witness :
  isPathSafe "/home/u" "/home/u/.agent/skills" "/home/u/.agent/skills/etc"
  = negb (String.eqb (resolve "/home/u" ["/home/u/.agent/skills"]) "/").
Proof.
  apply (agent_path_safe "/home/u" "../../etc" replit (Some false) None); vm_compute; reflexivity.
Defined.

(** The tree of [c7_fs0] with a global Cursor install of [hello] (a file
    and a sub-directory with a file) beside another Cursor skill. *)
Definition cursor_fs_rest : list (list string * Entry) :=
  [(["home"], Dir); (["home"; "u"], Dir);
   (["home"; "u"; ".vett"], Dir);
   (["home"; "u"; ".vett"; "skills"], Dir);
   (["home"; "u"; ".vett"; "skills"; "hello"], Dir);
   (["home"; "u"; ".vett"; "skills"; "hello"; "SKILL.md"], File "# Hello");
   (["home"; "u"; ".cursor"], Dir);
   (["home"; "u"; ".cursor"; "skills"], Dir);
   (["home"; "u"; ".cursor"; "skills"; "other"], Dir);
   (["home"; "u"; ".cursor"; "skills"; "other"; "SKILL.md"], File "# Other")].

Definition cursor_fs : FS :=
  list_to_map (cursor_fs_rest ++
    [(["home"; "u"; ".cursor"; "skills"; "hello"], Dir);
     (["home"; "u"; ".cursor"; "skills"; "hello"; "SKILL.md"], File "# Hello");
     (["home"; "u"; ".cursor"; "skills"; "hello"; "scripts"], Dir);
     (["home"; "u"; ".cursor"; "skills"; "hello"; "scripts"; "run.sh"], File "echo")]).

(** Instance: removing [Hello] globally for Cursor from [cursor_fs] drops
    the four entries of its skill directory and keeps the other skill. *)
Lemma removeFromAgent_removes_subtree_witness :
  removeFromAgent "/home/u" "Hello" (cursor "/home/u") None None cursor_fs
    = (Ok (mkRemoveResult true None), strip (key "/home/u" "/home/u/.cursor/skills/hello") cursor_fs)
  /\ wf (strip (key "/home/u" "/home/u/.cursor/skills/hello") cursor_fs) = true
  /\ strip (key "/home/u" "/home/u/.cursor/skills/hello") cursor_fs = list_to_map cursor_fs_rest.
Proof.
  split; [|split].
  1,2: apply (removeFromAgent_removes_subtree "/home/u" "Hello" (cursor "/home/u") None None
           "/home/u/.cursor/skills" "/home/u/.cursor/skills/hello" cursor_fs);
    [reflexivity|vm_compute; reflexivity|vm_compute; reflexivity|vm_compute; discriminate].
  apply (bool_decide_unpack _). vm_compute. reflexivity.
Defined.

(** Instance: a copied project install of [Hello] for Replit, then its
    removal. *)
Lemma install_then_remove_witness :
  let run := installToAgent "/home/u" false "/home/u/.vett/skills/hello" "Hello" replit (Some false) None in
  res_path (mkInstallResult "replit" "Replit" "/home/u/.agent/skills/hello" ModeCopy true None)
    = "/home/u/.agent/skills/hello"
  /\ removeFromAgent "/home/u" "Hello" replit (Some false) None (snd (run c7_fs0))
       = (Ok (mkRemoveResult true None),
          strip (key "/home/u" "/home/u/.agent/skills/hello")
                (snd (mkdir_p "/home/u" "/home/u/.agent/skills" c7_fs0)))
  /\ (forall k v, c7_fs0 !! k = Some v -> under (key "/home/u" "/home/u/.agent/skills/hello") k = false ->
        strip (key "/home/u" "/home/u/.agent/skills/hello")
              (snd (mkdir_p "/home/u" "/home/u/.agent/skills" c7_fs0)) !! k = Some v).
Proof.
  intros run.
  apply (install_then_remove "/home/u" false "/home/u/.vett/skills/hello" "Hello" replit (Some false) None
           "/home/u/.agent/skills" "/home/u/.agent/skills/hello" c7_fs0 (snd (run c7_fs0))
           (mkInstallResult "replit" "Replit" "/home/u/.agent/skills/hello" ModeCopy true None)).
  - reflexivity.
  - vm_compute. reflexivity.
  - vm_compute. reflexivity.
  - apply run_pair. vm_compute. reflexivity.
  - reflexivity.
Defined.

(** Instance: a symlinked project install of [Hello] for Replit. *)
Lemma install_symlink_status_witness :
  let run := installToAgent "/home/u" true "/home/u/.vett/skills/hello" "Hello" replit (Some false) None in
  fst (checkSymlinkStatus "/home/u" "/home/u/.agent/skills/hello" "/home/u/.vett/skills/hello"
         (snd (run c7_fs0))) = Ok ok
  \/ fst (checkSymlinkStatus "/home/u" "/home/u/.agent/skills/hello" "/home/u/.vett/skills/hello"
         (snd (run c7_fs0))) = Ok broken.
Proof.
  intros run.
  apply (install_symlink_status "/home/u" true "/home/u/.vett/skills/hello" "Hello" replit (Some false) None
           c7_fs0 (snd (run c7_fs0))
           (mkInstallResult "replit" "Replit" "/home/u/.agent/skills/hello" ModeSymlink true None)).
  - reflexivity.
  - vm_compute. reflexivity.
  - apply run_pair. vm_compute. reflexivity.
  - reflexivity.
  - reflexivity.
  - vm_compute. discriminate.
Defined.

End UninstallFacts.

(* ------------------------------------------------------------------ *)
(** ** C7: installing twice *)

(** C7 fails as stated: an agent without a global directory (Replit),
    with [global] left to its default [true], makes the call return
    [success = false] without touching the file system, on the first call
    and on every later one. *)
Lemma C7_counterexample :
  let run := Installer.installToAgent "/home/u" true "/home/u/.vett/skills/hello" "hello"
               Installer.replit None None in
  run ∅ = (Installer.Ok (Installer.mkInstallResult "replit" "Replit" "" Installer.ModeSymlink false
                           (Some "Replit does not support global skill installation")), ∅).
Proof. vm_compute. reflexivity. Qed.

(** C7 (amended): for an absolute [process.cwd()] and a file system shaped
    as a tree (every proper prefix of an entry's key is a directory), when
    a first [installToAgent] call succeeds, a second call with identical
    inputs on the resulting file system also succeeds and leaves it
    exactly as the first call left it (a correct symlink or an identical
    copy is found in place), whether or not symlinks are supported. *)
Theorem C7_install_idempotent (process_cwd : string) (sup : bool)
    (canonicalPath skillName : string) (agent : Installer.AgentConfig)
    (global : option bool) (cwd_opt : option string) (fs0 fs1 : Installer.FS)
    (r1 : Installer.InstallResult) :
  Installer.is_abs process_cwd = true ->
  InstallFacts.wf fs0 = true ->
  Installer.installToAgent process_cwd sup canonicalPath skillName agent global cwd_opt fs0
    = (Installer.Ok r1, fs1) ->
  Installer.success r1 = true ->
  exists r2,
    Installer.installToAgent process_cwd sup canonicalPath skillName agent global cwd_opt fs1
      = (Installer.Ok r2, fs1)
    /\ Installer.success r2 = true.
Proof.
  intros Habs Hwf Hrun Hs1.
  unfold Installer.installToAgent in *. cbv zeta in *.
  destruct (_ && Installer.no_global agent) eqn:Hg.
  { injection Hrun as <- <-. discriminate. }
  match type of Hrun with
  | context [Installer.isPathSafe _ ?b ?d] => set (skillDir := d) in *; set (base := b) in *
  end.
  destruct (negb (Installer.isPathSafe process_cwd base skillDir)) eqn:Hp.
  { injection Hrun as <- <-. discriminate. }
  pose (done_ := fun m => Installer.mkInstallResult (Installer.agent_name agent)
                   (Installer.displayName agent) skillDir m true None).
  pose (fail := fun code => Installer.mkInstallResult (Installer.agent_name agent)
                   (Installer.displayName agent) skillDir Installer.ModeSymlink false (Some code)).
  change (InstallFacts.install_core process_cwd sup canonicalPath base skillDir done_ fail fs0
          = (Installer.Ok r1, fs1)) in Hrun.
  change (exists r2, InstallFacts.install_core process_cwd sup canonicalPath base skillDir done_ fail fs1
          = (Installer.Ok r2, fs1) /\ Installer.success r2 = true).
  refine (InstallFacts.install_core_idem process_cwd Habs sup canonicalPath base skillDir done_ fail
            (Sanitize.sanitizeName skillName) _ _ _ _ fs0 fs1 r1 Hwf Hrun Hs1).
  - intros m. reflexivity.
  - intros c. reflexivity.
  - apply PathFacts.key_join; [exact Habs|apply PathFacts.sanitize_clean].
  - apply PathFacts.key_dirname_join; [exact Habs|apply PathFacts.sanitize_clean].
Qed.

(** Instance of [C7_install_idempotent]: a project install of [Hello]
    for Replit where symlinks fail, so the skill is copied. *)
Lemma C7_install_idempotent_witness :
  let run := Installer.installToAgent "/home/u" false "/home/u/.vett/skills/hello" "Hello"
               Installer.replit (Some false) None in
  exists r2, run (snd (run InstallFacts.c7_fs0)) = (Installer.Ok r2, snd (run InstallFacts.c7_fs0))
             /\ Installer.success r2 = true.
Proof.
  intros run.
  apply (C7_install_idempotent "/home/u" false "/home/u/.vett/skills/hello" "Hello"
           Installer.replit (Some false) None InstallFacts.c7_fs0 (snd (run InstallFacts.c7_fs0))
           (Installer.mkInstallResult "replit" "Replit" "/home/u/.agent/skills/hello"
              Installer.ModeCopy true None)).
  - reflexivity.
  - vm_compute. reflexivity.
  - vm_compute. reflexivity.
  - reflexivity.
Defined.

(* ------------------------------------------------------------------ *)
(** ** The index of installed skills (apps/cli/src/config.ts):
       [getInstalledSkill] against [addInstalledSkill] and
       [removeInstalledSkill] *)

Module IndexLookup.
Import Index.

(** [getInstalledSkill(owner, repo, name)] on the loaded index:
    [Array.prototype.find] with the key comparison. *)
Definition getInstalledSkill (o : string) (r : option string) (n : string)
    (installedSkills : list InstalledSkill) : option InstalledSkill :=
  List.find (same_key o r n) installedSkills.

Lemma find_insert_first {A} (p : A -> bool) (l : list A) (i : nat) (x : A) :
  findIndex p l = Some i -> p x = true -> List.find p (<[i := x]> l) = Some x.
Proof.
  revert i. induction l as [|y l IH]; intros i; cbn [findIndex]; [discriminate|].
  destruct (p y) eqn:Hy.
  - intros [= <-] Hx. cbn. rewrite Hx. reflexivity.
  - destruct (findIndex p l) as [j|] eqn:Hj; cbn; [|discriminate].
    intros [= <-] Hx. cbn. rewrite Hy. apply IH; auto.
Qed.

Lemma findIndex_insert_first {A} (p : A -> bool) (l : list A) (i : nat) (x : A) :
  findIndex p l = Some i -> p x = true -> findIndex p (<[i := x]> l) = Some i.
Proof.
  revert i. induction l as [|y l IH]; intros i; cbn [findIndex]; [discriminate|].
  destruct (p y) eqn:Hy.
  - intros [= <-] Hx. cbn. rewrite Hx. reflexivity.
  - destruct (findIndex p l) as [j|] eqn:Hj; cbn; [|discriminate].
    intros [= <-] Hx. change (<[S j := x]> (y :: l)) with (y :: <[j := x]> l).
    cbn [findIndex]. rewrite Hy, (IH j eq_refl Hx). reflexivity.
Qed.

Lemma find_insert_other {A} (p : A -> bool) (l : list A) (i : nat) (x y : A) :
  l !! i = Some y -> p y = false -> p x = false -> List.find p (<[i := x]> l) = List.find p l.
Proof.
  revert i. induction l as [|z l IH]; intros [|i]; cbn; try discriminate.
  - intros [= ->] Hy Hx. rewrite Hx, Hy. reflexivity.
  - intros Hi Hy Hx. destruct (p z); [reflexivity|]. apply (IH i Hi Hy Hx).
Qed.

Lemma filter_insert_other {A} (p : A -> bool) (l : list A) (i : nat) (x y : A) :
  l !! i = Some y -> p y = false -> p x = false -> List.filter p (<[i := x]> l) = List.filter p l.
Proof.
  revert i. induction l as [|z l IH]; intros [|i]; try discriminate.
  - intros [= ->] Hy Hx. cbn. rewrite Hx, Hy. reflexivity.
  - intros Hi Hy Hx. change (<[S i := x]> (z :: l)) with (z :: <[i := x]> l).
    cbn [List.filter]. rewrite (IH i Hi Hy Hx). reflexivity.
Qed.

Lemma find_app {A} (p : A -> bool) (l l' : list A) :
  List.find p (l ++ l') = match List.find p l with Some y => Some y | None => List.find p l' end.
Proof. induction l as [|y l IH]; cbn; [reflexivity|]. destruct (p y); [reflexivity|exact IH]. Qed.

Lemma findIndex_snoc_none {A} (p : A -> bool) (l : list A) (x : A) :
  findIndex p l = None -> p x = true -> findIndex p (l ++ [x]) = Some (length l).
Proof.
  induction l as [|y l IH]; cbn; [intros _ ->; reflexivity|].
  destruct (p y); [discriminate|]. destruct (findIndex p l); [discriminate|].
  intros _ Hx. rewrite (IH eq_refl Hx). reflexivity.
Qed.

Lemma insert_snoc {A} (l : list A) (x y : A) : <[length l := y]> (l ++ [x]) = l ++ [y].
Proof.
  induction l as [|z l IH]; [reflexivity|].
  change (<[S (length l) := y]> (z :: l ++ [x]) = z :: l ++ [y]).
  change (<[S (length l) := y]> (z :: l ++ [x])) with (z :: <[length l := y]> (l ++ [x])).
  rewrite IH. reflexivity.
Qed.

Lemma find_none_In {A} (p : A -> bool) (l : list A) :
  (forall x, In x l -> p x = false) -> List.find p l = None.
Proof.
  induction l as [|y l IH]; cbn; intros H; [reflexivity|].
  rewrite (H y (or_introl eq_refl)). apply IH. auto.
Qed.

Lemma same_key_self (s : InstalledSkill) : same_key (owner s) (repo s) (name s) s = true.
Proof. unfold same_key. rewrite !bool_decide_eq_true_2; reflexivity. Qed.

Lemma same_key_other (o : string) (r : option string) (n : string) (s : InstalledSkill) :
  (owner s, repo s, name s) <> (o, r, n) -> same_key o r n s = false.
Proof.
  intros Hne. unfold same_key. destruct (bool_decide (owner s = o)) eqn:E1; [|reflexivity].
  destruct (bool_decide (repo s = r)) eqn:E2; [|reflexivity].
  destruct (bool_decide (name s = n)) eqn:E3; [|reflexivity].
  apply bool_decide_eq_true in E1, E2, E3. subst. contradiction.
Qed.

(** The index entry at the skill's key is [s] after it was added. *)
Theorem getInstalledSkill_add (s : InstalledSkill) (l : list InstalledSkill) :
  getInstalledSkill (owner s) (repo s) (name s) (addInstalledSkill s l) = Some s.
Proof.
  unfold getInstalledSkill, addInstalledSkill.
  destruct (findIndex _ l) as [i|] eqn:Hi.
  - apply find_insert_first; [exact Hi|apply same_key_self].
  - rewrite find_app, find_none_In by (apply IndexFacts.findIndex_None, Hi). cbn.
    rewrite same_key_self. reflexivity.
Qed.

(** After [removeInstalledSkill] no entry is found at the removed key. *)
Theorem getInstalledSkill_remove (o : string) (r : option string) (n : string) (l : list InstalledSkill) :
  getInstalledSkill o r n (removeInstalledSkill o r n l) = None.
Proof.
  unfold getInstalledSkill, removeInstalledSkill. apply find_none_In.
  intros x Hx. apply filter_In in Hx as [_ Hx]. destruct (same_key o r n x); [discriminate|reflexivity].
Qed.

(** Adding or removing a skill leaves the lookup of every other key as it was. *)
Theorem getInstalledSkill_other (s : InstalledSkill) (o : string) (r : option string) (n : string)
    (l : list InstalledSkill) :
  (owner s, repo s, name s) <> (o, r, n) ->
  getInstalledSkill o r n (addInstalledSkill s l) = getInstalledSkill o r n l
  /\ getInstalledSkill o r n (removeInstalledSkill (owner s) (repo s) (name s) l)
     = getInstalledSkill o r n l.
Proof.
  intros Hne. unfold getInstalledSkill. split.
  - unfold addInstalledSkill. destruct (findIndex _ l) as [i|] eqn:Hi.
    + destruct (IndexFacts.findIndex_Some _ _ _ Hi) as (y & Hy & Hky).
      apply (find_insert_other _ _ _ _ y Hy); [|apply same_key_other, Hne].
      apply IndexFacts.same_key_true in Hky. apply same_key_other.
      unfold skill_key in Hky. rewrite Hky. exact Hne.
    + rewrite find_app. destruct (List.find _ l); [reflexivity|]. cbn.
      rewrite same_key_other by exact Hne. reflexivity.
  - unfold removeInstalledSkill. induction l as [|y l IH]; cbn; [reflexivity|].
    destruct (same_key (owner s) (repo s) (name s) y) eqn:Hy; cbn.
    + apply IndexFacts.same_key_true in Hy. unfold skill_key in Hy.
      rewrite (same_key_other o r n y) by (rewrite Hy; exact Hne). exact IH.
    + destruct (same_key o r n y); [reflexivity|exact IH].
Qed.

(** Removing a skill just added leaves what removing it alone leaves. *)
Theorem remove_after_add (s : InstalledSkill) (l : list InstalledSkill) :
  removeInstalledSkill (owner s) (repo s) (name s) (addInstalledSkill s l)
  = removeInstalledSkill (owner s) (repo s) (name s) l.
Proof.
  unfold removeInstalledSkill, addInstalledSkill.
  destruct (findIndex _ l) as [i|] eqn:Hi.
  - destruct (IndexFacts.findIndex_Some _ _ _ Hi) as (y & Hy & Hky).
    apply (filter_insert_other _ _ _ _ y Hy); [rewrite Hky; reflexivity|rewrite same_key_self; reflexivity].
  - rewrite List.filter_app. cbn. rewrite same_key_self. cbn. apply app_nil_r.
Qed.

(** Adding two records with one key keeps the second only. *)
Theorem add_last_wins (s s' : InstalledSkill) (l : list InstalledSkill) :
  skill_key s' = skill_key s ->
  addInstalledSkill s (addInstalledSkill s' l) = addInstalledSkill s l.
Proof.
  intros Hk. unfold skill_key in Hk. injection Hk as Ho Hr Hn.
  unfold addInstalledSkill at 2. rewrite Ho, Hr, Hn.
  unfold addInstalledSkill. destruct (findIndex _ l) as [i|] eqn:Hi.
  - rewrite (findIndex_insert_first _ _ _ _ Hi).
    + rewrite list_insert_insert, decide_True by reflexivity. reflexivity.
    + rewrite <- Ho, <- Hr, <- Hn. apply same_key_self.
  - rewrite (findIndex_snoc_none _ _ _ Hi).
    + apply insert_snoc.
    + rewrite <- Ho, <- Hr, <- Hn. apply same_key_self.
Qed.

(** Two records of one repository, [lint] and [fmt]. *)
Definition lint_skill : InstalledSkill :=
  mkInstalledSkill "acme" (Some "tools") "lint" "1.0.0" "2026-01-01T00:00:00.000Z" "/home/u/.vett/skills/acme/tools/lint".
Definition fmt_skill : InstalledSkill :=
  mkInstalledSkill "acme" (Some "tools") "fmt" "2.1.0" "2026-01-02T00:00:00.000Z" "/home/u/.vett/skills/acme/tools/fmt".

(** Instance of [getInstalledSkill_other]: adding or removing [lint]
    leaves the lookup of [fmt]. *)
Lemma getInstalledSkill_other_witness :
  getInstalledSkill "acme" (Some "tools") "fmt" (addInstalledSkill lint_skill [fmt_skill])
    = getInstalledSkill "acme" (Some "tools") "fmt" [fmt_skill]
  /\ getInstalledSkill "acme" (Some "tools") "fmt" (removeInstalledSkill "acme" (Some "tools") "lint" [fmt_skill])
    = getInstalledSkill "acme" (Some "tools") "fmt" [fmt_skill].
Proof. apply (getInstalledSkill_other lint_skill "acme" (Some "tools") "fmt" [fmt_skill]). vm_compute. discriminate. Defined.

(** Instance of [add_last_wins]: [lint] at version 1.0.0, then 1.1.0. *)
Lemma add_last_wins_witness :
  addInstalledSkill (mkInstalledSkill "acme" (Some "tools") "lint" "1.1.0" "2026-02-01T00:00:00.000Z"
                       "/home/u/.vett/skills/acme/tools/lint")
    (addInstalledSkill lint_skill [fmt_skill])
  = addInstalledSkill (mkInstalledSkill "acme" (Some "tools") "lint" "1.1.0" "2026-02-01T00:00:00.000Z"
                         "/home/u/.vett/skills/acme/tools/lint") [fmt_skill].
Proof. apply add_last_wins. reflexivity. Defined.

End IndexLookup.

(* ------------------------------------------------------------------ *)
(** ** Reading the stored index and config (apps/cli/src/config.ts):
       [isRecord], [normalizeIndex], [normalizeConfig] over the values of
       [JSON.parse] *)

Module IndexNorm.
Import Registry.

(** [isRecord(value)]: [typeof value === 'object' && value !== null], so
    objects and arrays. *)
Definition isRecord (v : json) : bool :=
  match v with JObj _ | JArr _ => true | _ => false end.

(** [value.k] on a record; an array has none of the keys read here. *)
Definition prop (v : json) (k : string) : option json :=
  match v with JObj fs => get_field k fs | _ => None end.

Definition INDEX_SCHEMA_VERSION : Z := 1.

(** [VettIndex]; the entries of [installedSkills] are taken as read. *)
Record VettIndex := mkVettIndex { schemaVersion : Z; installedSkills : list json }.

Definition DEFAULT_INDEX : VettIndex := mkVettIndex INDEX_SCHEMA_VERSION [].

(** [normalizeIndex(raw)], [raw] the result of [readJsonFile] ([None]
    for [undefined]); JSON numbers are taken as integers. *)
Definition normalizeIndex (raw : option json) : VettIndex * bool :=
  match raw with
  | Some r =>
      if negb (isRecord r) then (DEFAULT_INDEX, true)
      else
        let changed := false in
        let schemaVersion := match prop r "schemaVersion" with
                             | Some (JNum z) => z
                             | _ => (INDEX_SCHEMA_VERSION - 1)%Z end in
        let changed := if negb (Z.eqb schemaVersion INDEX_SCHEMA_VERSION) then true else changed in
        let installedSkills := match prop r "installedSkills" with
                               | Some (JArr xs) => xs
                               | _ => installedSkills DEFAULT_INDEX end in
        let changed := match prop r "installedSkills" with
                       | Some (JArr _) | None => changed
                       | Some _ => true end in
        (mkVettIndex INDEX_SCHEMA_VERSION installedSkills, changed)
  | None => (DEFAULT_INDEX, true)
  end.

(** What [saveIndex] writes, as [JSON.parse] reads it back. *)
Definition index_json (i : VettIndex) : json :=
  JObj [("schemaVersion", JNum (schemaVersion i)); ("installedSkills", JArr (installedSkills i))].

(** The index [normalizeIndex] returns, once saved, is read back
    unchanged and reported as not changed. *)
Theorem normalizeIndex_stored (raw : option json) :
  normalizeIndex (Some (index_json (fst (normalizeIndex raw)))) = (fst (normalizeIndex raw), false).
Proof.
  assert (H : forall xs, normalizeIndex (Some (index_json (mkVettIndex 1 xs))) = (mkVettIndex 1 xs, false))
    by reflexivity.
  destruct raw as [r|]; [|apply H]. cbn [normalizeIndex].
  destruct (negb (isRecord r)); [apply H|]. cbv zeta. apply H.
Qed.

(** [normalizeIndex] reports no change exactly when the file holds an
    object with schema version 1 and [installedSkills] absent or an array. *)
Theorem normalizeIndex_unchanged (raw : option json) :
  snd (normalizeIndex raw) = false <->
  exists r, raw = Some r /\ isRecord r = true /\ prop r "schemaVersion" = Some (JNum 1)
            /\ (prop r "installedSkills" = None \/ exists xs, prop r "installedSkills" = Some (JArr xs)).
Proof.
  split.
  - destruct raw as [r|]; cbn [normalizeIndex]; [|discriminate].
    destruct (isRecord r) eqn:Hr; cbn [negb]; [|discriminate]. cbv zeta.
    intros H. exists r. split; [reflexivity|]. split; [exact Hr|]. cbn [snd] in H.
    assert (Hs : prop r "schemaVersion" = Some (JNum 1)).
    { unfold INDEX_SCHEMA_VERSION in H.
      destruct (prop r "installedSkills") as [[]|]; try discriminate H;
        (destruct (prop r "schemaVersion") as [[| |z| | |]|];
         match type of H with context [Z.eqb ?a ?b] =>
           destruct (Z.eqb_spec a b) as [E|E]; [|discriminate H] end;
         [lia|lia|subst; reflexivity|lia|lia|lia|lia]). }
    split; [exact Hs|].
    destruct (prop r "installedSkills") as [[]|]; try discriminate H; eauto.
  - intros (r & -> & Hr & Hs & Hi). cbn [normalizeIndex]. rewrite Hr. cbv zeta. cbn [negb].
    rewrite Hs. cbn. destruct Hi as [->|[xs ->]]; reflexivity.
Qed.

End IndexNorm.

Module ConfigNorm.
Import Registry IndexNorm.

Definition CONFIG_SCHEMA_VERSION : Z := 1.

Record Telemetry := mkTelemetry { enabled : bool; deviceId : string }.

Record VettConfig := mkVettConfig {
  schemaVersion : Z;
  installDir : string;
  registryUrl : string;
  telemetry : Telemetry
}.

(** The object [normalizeConfig] returns; [None] for an absent
    [legacyInstalledSkills]. *)
Record Normalized := mkNormalized {
  config : VettConfig;
  legacyInstalledSkills : option (list json);
  changed : bool
}.

Section Defaults.
(** [SKILLS_DIR], [getDefaultRegistryUrl()] and the value [randomUUID()]
    returns at this call. *)
Variables (SKILLS_DIR defaultRegistryUrl randomUUID : string).

(** [normalizeConfig(raw)].  The device id pattern
    [/^[0-9a-f]{8}-[0-9a-f]{4}-[0-9a-f]{4}-[0-9a-f]{4}-[0-9a-f]{12}$/i] is
    [uuid_ok]; a string it accepts is not empty, so [!deviceId] is its
    absence. *)
Definition normalizeConfig (raw : option json) : Normalized :=
  let fresh := mkNormalized (mkVettConfig CONFIG_SCHEMA_VERSION SKILLS_DIR defaultRegistryUrl
                               (mkTelemetry true randomUUID)) None true in
  match raw with
  | None => fresh
  | Some r =>
      if negb (isRecord r) then fresh
      else
        let changed := false in
        let '(legacyInstalledSkills, changed) :=
          match prop r "installedSkills" with
          | Some (JArr xs) => (Some xs, true)
          | _ => (None, changed) end in
        let schemaVersion := match prop r "schemaVersion" with
                             | Some (JNum z) => z
                             | _ => (CONFIG_SCHEMA_VERSION - 1)%Z end in
        let changed := if negb (Z.eqb schemaVersion CONFIG_SCHEMA_VERSION) then true else changed in
        let installDir := match prop r "installDir" with
                          | Some (JStr s) => s | _ => SKILLS_DIR end in
        let changed := match prop r "installDir" with
                       | Some (JStr _) | None => changed | Some _ => true end in
        let registryUrl := match prop r "registryUrl" with
                           | Some (JStr s) => s | _ => defaultRegistryUrl end in
        let changed := match prop r "registryUrl" with
                       | Some (JStr _) | None => changed | Some _ => true end in
        let '(telemetryEnabled, deviceId, changed) :=
          match prop r "telemetry" with
          | Some t =>
              if isRecord t then
                let '(telemetryEnabled, changed) :=
                  match prop t "enabled" with
                  | Some (JBool b) => (b, changed)
                  | Some _ => (true, true)
                  | None => (true, changed) end in
                let deviceId := match prop t "deviceId" with
                                | Some (JStr d) => if uuid_ok d then Some d else None
                                | _ => None end in
                (telemetryEnabled, deviceId, changed)
              else (true, None, true)
          | None => (true, None, changed)
          end in
        let '(deviceId, changed) :=
          match deviceId with Some d => (d, changed) | None => (randomUUID, true) end in
        mkNormalized (mkVettConfig CONFIG_SCHEMA_VERSION installDir registryUrl
                        (mkTelemetry telemetryEnabled deviceId))
                     legacyInstalledSkills changed
  end.

End Defaults.

(** What [saveConfig] writes, as [JSON.parse] reads it back. *)
Definition config_json (c : VettConfig) : json :=
  JObj [("schemaVersion", JNum (schemaVersion c)); ("installDir", JStr (installDir c));
        ("registryUrl", JStr (registryUrl c));
        ("telemetry", JObj [("enabled", JBool (enabled (telemetry c)));
                            ("deviceId", JStr (deviceId (telemetry c)))])].

Lemma normalizeConfig_shape S R U raw :
  uuid_ok U = true ->
  schemaVersion (config (normalizeConfig S R U raw)) = 1%Z
  /\ uuid_ok (deviceId (telemetry (config (normalizeConfig S R U raw)))) = true.
Proof.
  intros HU. destruct raw as [r|]; cbn [normalizeConfig]; [|auto].
  destruct (negb (isRecord r)); [auto|]. cbv zeta.
  destruct (prop r "installedSkills") as [[]|]; cbn [fst snd];
  (destruct (prop r "telemetry") as [t|]; [destruct (isRecord t)|]);
  try (destruct (prop t "enabled") as [[]|]);
  try (destruct (prop t "deviceId") as [[]|]);
  try (match goal with |- context [uuid_ok ?d] => is_var d; destruct (uuid_ok d) eqn:Hd end);
  cbn; auto.
Qed.

(** With a well-formed fresh device id, the config [normalizeConfig]
    returns, once saved, is read back unchanged, with no legacy skills
    and reported as not changed. *)
Theorem normalizeConfig_stored (S R U : string) (raw : option json) :
  uuid_ok U = true ->
  normalizeConfig S R U (Some (config_json (config (normalizeConfig S R U raw))))
  = mkNormalized (config (normalizeConfig S R U raw)) None false.
Proof.
  intros HU. destruct (normalizeConfig_shape S R U raw HU) as [Hs Hd].
  destruct (config (normalizeConfig S R U raw)) as [sv dir url [en d]].
  cbn in Hs, Hd |- *. subst sv. rewrite Hd. reflexivity.
Qed.

(** A stored well-formed device id is kept; telemetry stays enabled
    unless [enabled] is stored as a boolean. *)
Theorem normalizeConfig_keeps_deviceId (S R U : string) (r t : json) (d : string) :
  prop r "telemetry" = Some t -> prop t "deviceId" = Some (JStr d) -> uuid_ok d = true ->
  telemetry (config (normalizeConfig S R U (Some r)))
  = mkTelemetry (match prop t "enabled" with Some (JBool b) => b | _ => true end) d.
Proof.
  intros Ht Hd Hu.
  assert (Hr : isRecord r = true) by (destruct r; try discriminate Ht; reflexivity).
  assert (Htr : isRecord t = true) by (destruct t; try discriminate Hd; reflexivity).
  cbn [normalizeConfig]. rewrite Hr. cbn [negb]. cbv zeta. rewrite Ht, Htr, Hd, Hu.
  destruct (prop r "installedSkills") as [[]|]; cbn [fst snd];
    destruct (prop t "enabled") as [[]|]; reflexivity.
Qed.

(** A sample device id, of the form [randomUUID()] returns. *)
Definition sample_uuid : string := "123e4567-e89b-42d3-a456-426614174000".

(** Instance of [normalizeConfig_stored]: the config made for a missing
    file is stored and read back unchanged. *)
Lemma normalizeConfig_stored_witness :
  normalizeConfig "/home/u/.vett/skills" "https://vett.sh" sample_uuid
    (Some (config_json (config (normalizeConfig "/home/u/.vett/skills" "https://vett.sh" sample_uuid None))))
  = mkNormalized (config (normalizeConfig "/home/u/.vett/skills" "https://vett.sh" sample_uuid None)) None false.
Proof. apply normalizeConfig_stored. vm_compute. reflexivity. Defined.

(** Instance of [normalizeConfig_keeps_deviceId]: telemetry turned off
    with a stored id. *)
Lemma normalizeConfig_keeps_deviceId_witness :
  let t := JObj [("enabled", JBool false); ("deviceId", JStr sample_uuid)] in
  telemetry (config (normalizeConfig "/home/u/.vett/skills" "https://vett.sh"
                       "00000000-0000-4000-8000-000000000000" (Some (JObj [("telemetry", t)]))))
  = mkTelemetry false sample_uuid.
Proof.
  intros t. apply (normalizeConfig_keeps_deviceId _ _ _ (JObj [("telemetry", t)]) t sample_uuid);
    vm_compute; reflexivity.
Defined.

End ConfigNorm.

(* ------------------------------------------------------------------ *)
(** ** Where skills are stored (apps/cli/src/config.ts): [SKILLS_DIR],
       [getSkillDir], with node's variadic [path.join] *)

Module SkillDirs.
Import JS Installer PathFacts.

Section Normalize.
Variable cwd : string.
Hypothesis Hcwd : is_abs cwd = true.

Lemma split_trailing (J : string) : split (J +:+ "/") "/"%char = split J "/"%char ++ [""].
Proof. change (J +:+ "/") with (J +:+ "/" +:+ ""). rewrite split_app. reflexivity. Qed.

(** [path.normalize] does not change what a path resolves to. *)
Lemma key_normalize (x : string) : key cwd (normalize x) = key cwd x.
Proof.
  rewrite !(key_stack cwd Hcwd). f_equal.
  unfold normalize. destruct (String.eqb_spec x "") as [->|Hx]; [reflexivity|].
  unfold normalizeString, norm_segs.
  set (a := is_abs x). set (F := fold_left (norm_step (negb a)) (split x "/"%char) []).
  pose proof (fold_any_ok (negb a) x) as HF. fold F in HF.
  assert (Hs : stack_of (S_cwd cwd) x
               = fold_left (norm_step false) (List.rev F) (if a then [] else S_cwd cwd)).
  { unfold stack_of. fold a. destruct a.
    - rewrite (fold_clean false (List.rev F) []).
      + rewrite rev_involutive, app_nil_r. reflexivity.
      + apply Forall_rev. apply fold_false_clean; [constructor|apply split_noslash_all].
    - symmetry. apply fold_rel_norm, split_noslash_all. }
  rewrite Hs.
  destruct (String.eqb_spec (JS.join (List.rev F) "/") "") as [E|E].
  - assert (HF0 : List.rev F = []).
    { destruct (List.rev F) as [|w l] eqn:El; [reflexivity|].
      exfalso. refine (join_nonempty (w :: l) _ ltac:(done) E). rewrite <- El. apply Forall_rev, HF. }
    rewrite HF0. destruct a; [reflexivity|]. destruct (ends_with_sep x); reflexivity.
  - assert (HR : Forall (fun s => s <> "" /\ noslash s) (List.rev F)) by apply Forall_rev, HF.
    assert (HN : List.rev F <> []) by (intros H; apply E; rewrite H; reflexivity).
    assert (Hsp : split (JS.join (List.rev F) "/") "/"%char = List.rev F) by (apply split_join; assumption).
    assert (Hna : is_abs (JS.join (List.rev F) "/") = false) by (apply join_not_abs, HR).
    destruct (ends_with_sep x); destruct a; unfold stack_of.
    + rewrite is_abs_slash, split_slash, split_trailing, Hsp. cbn [fold_left].
      rewrite fold_left_app. reflexivity.
    + rewrite is_abs_app, Hna by exact E. rewrite split_trailing, Hsp, fold_left_app. reflexivity.
    + rewrite is_abs_slash, split_slash, Hsp. reflexivity.
    + rewrite Hna, Hsp. reflexivity.
Qed.

Lemma filter_nonempty_clean (segs : list string) :
  Forall clean_seg segs -> filter_nonempty segs = segs.
Proof.
  induction segs as [|w segs IH]; intros H; [reflexivity|].
  apply Forall_cons in H as [(Hw & _) H]. unfold filter_nonempty in *. cbn [List.filter].
  destruct (String.eqb_spec w ""); [contradiction|]. cbn [negb]. rewrite IH by exact H. reflexivity.
Qed.

Lemma key_slash_join (b : string) (segs : list string) :
  b <> "" -> segs <> [] -> Forall clean_seg segs ->
  key cwd (b +:+ "/" +:+ JS.join segs "/") = key cwd b ++ segs.
Proof.
  intros Hb Hn Hc. pose proof (clean_forall _ Hc) as Hc'.
  rewrite !(key_stack cwd Hcwd). unfold stack_of.
  rewrite is_abs_app by exact Hb. rewrite split_app, (split_join _ Hc' Hn), fold_left_app.
  rewrite fold_clean by exact Hc. rewrite rev_app_distr, rev_involutive. reflexivity.
Qed.

Lemma key_join_segs (segs : list string) :
  segs <> [] -> Forall clean_seg segs -> key cwd (JS.join segs "/") = key cwd "" ++ segs.
Proof.
  intros Hn Hc. pose proof (clean_forall _ Hc) as Hc'.
  rewrite !(key_stack cwd Hcwd). unfold stack_of.
  rewrite (join_not_abs _ Hc'), (split_join _ Hc' Hn), fold_clean by exact Hc.
  cbn [is_abs]. change (split "" "/"%char) with [""]. cbn [fold_left].
  rewrite rev_app_distr, rev_involutive. reflexivity.
Qed.
End Normalize.

(** [path.join(...args)]: the non-empty arguments joined with [/], then
    [normalize]; [.] when none is left. *)
Definition joinAll (args : list string) : string :=
  let joined := JS.join (filter_nonempty args) "/" in
  if String.eqb joined "" then "." else normalize joined.

Section JoinAll.
Variable cwd : string.
Hypothesis Hcwd : is_abs cwd = true.

Lemma key_joinAll (b : string) (segs : list string) :
  Forall clean_seg segs -> key cwd (joinAll (b :: segs)) = key cwd b ++ segs.
Proof.
  intros Hc. pose proof (clean_forall _ Hc) as Hc'. unfold joinAll, filter_nonempty.
  cbn [List.filter]. fold (filter_nonempty segs). rewrite (filter_nonempty_clean _ Hc).
  destruct (String.eqb_spec b "") as [->|Hb]; cbn [negb].
  - destruct segs as [|w segs'].
    + cbn [JS.join String.eqb]. rewrite app_nil_r, !(key_stack cwd Hcwd). reflexivity.
    + assert (HJ : JS.join (w :: segs') "/" <> "") by (apply join_nonempty; [exact Hc'|done]).
      destruct (String.eqb_spec (JS.join (w :: segs') "/") "") as [E|_]; [contradiction|].
      rewrite (key_normalize cwd Hcwd). apply (key_join_segs cwd Hcwd); [done|exact Hc].
  - destruct segs as [|w segs'].
    + cbn [JS.join]. destruct (String.eqb_spec b "") as [E|_]; [contradiction|].
      rewrite (key_normalize cwd Hcwd), app_nil_r. reflexivity.
    + rewrite join_cons by done.
      destruct (String.eqb_spec (b +:+ "/" +:+ JS.join (w :: segs') "/") "") as [E|_].
      { destruct b; [contradiction|discriminate]. }
      rewrite (key_normalize cwd Hcwd). apply (key_slash_join cwd Hcwd); [exact Hb|done|exact Hc].
Qed.
End JoinAll.

Lemma seg_char_noslash (s : string) : forall_chars Schemas.seg_char s = true -> noslash s.
Proof.
  apply GitHubFacts.forall_chars_impl. intros c Hc.
  destruct c as [[] [] [] [] [] [] [] []]; vm_compute in Hc |- *; first [reflexivity | discriminate Hc].
Qed.

Lemma safe_clean (s : string) : Schemas.isSafePathSegment s = true -> clean_seg s.
Proof.
  unfold Schemas.isSafePathSegment.
  destruct (String.eqb_spec s "") as [|H1]; [discriminate|].
  destruct (String.eqb_spec s ".") as [|H2]; [discriminate|].
  destruct (String.eqb_spec s "..") as [|H3]; [discriminate|]. cbn [orb].
  destruct (includes s ".."); [discriminate|].
  destruct (Schemas.allowlist s) eqn:Ha; [|discriminate]. intros _.
  split; [exact H1|]. split; [exact H2|]. split; [exact H3|].
  apply seg_char_noslash. destruct s; [contradiction|exact Ha].
Qed.

(** [SKILLS_DIR = join(join(homedir(), '.vett'), 'skills')]. *)
Definition SKILLS_DIR (home : string) : string := join (join home ".vett") "skills".

(** [getSkillDir(owner, repo, name)]: [repo ? ... : ...] skips a [null]
    or empty repository. *)
Definition getSkillDir (home owner : string) (repo : option string) (name : string) : string :=
  match repo with
  | Some r => if String.eqb r "" then joinAll [SKILLS_DIR home; owner; name]
              else joinAll [SKILLS_DIR home; owner; r; name]
  | None => joinAll [SKILLS_DIR home; owner; name]
  end.

Definition repo_safe (repo : option string) : Prop :=
  match repo with Some r => Schemas.isSafePathSegment r = true | None => True end.

Definition repo_segs (repo : option string) : list string :=
  match repo with Some r => [r] | None => [] end.

(** With path-safe owner, repository and name, the skill directory is
    [<home>/.vett/skills/<owner>[/<repo>]/<name>], segment by segment. *)
Theorem getSkillDir_key (cwd home owner : string) (repo : option string) (name : string) :
  is_abs cwd = true ->
  Schemas.isSafePathSegment owner = true -> repo_safe repo -> Schemas.isSafePathSegment name = true ->
  key cwd (getSkillDir home owner repo name)
  = key cwd home ++ [".vett"; "skills"; owner] ++ repo_segs repo ++ [name].
Proof.
  intros Habs Ho Hr Hn.
  assert (HS : key cwd (SKILLS_DIR home) = key cwd home ++ [".vett"; "skills"]).
  { unfold SKILLS_DIR. rewrite (key_join cwd Habs) by (repeat split; done).
    rewrite (key_join cwd Habs) by (repeat split; done). rewrite <- app_assoc. reflexivity. }
  pose proof (safe_clean _ Ho) as Co. pose proof (safe_clean _ Hn) as Cn.
  destruct repo as [r|]; cbn [getSkillDir repo_segs repo_safe] in *.
  - pose proof (safe_clean _ Hr) as Cr.
    destruct (String.eqb_spec r "") as [->|_]; [destruct Cr as [[] _]; reflexivity|].
    rewrite (key_joinAll cwd Habs) by (repeat (apply List.Forall_cons; [assumption|]); apply List.Forall_nil).
    rewrite HS, <- app_assoc. reflexivity.
  - rewrite (key_joinAll cwd Habs) by (repeat (apply List.Forall_cons; [assumption|]); apply List.Forall_nil).
    rewrite HS, <- app_assoc. reflexivity.
Qed.

(** Two skills with path-safe identities get the same directory only if
    their owner, repository and name agree. *)
Theorem getSkillDir_injective (cwd home : string) (o : string) (r : option string) (n : string)
    (o' : string) (r' : option string) (n' : string) :
  is_abs cwd = true ->
  Schemas.isSafePathSegment o = true -> repo_safe r -> Schemas.isSafePathSegment n = true ->
  Schemas.isSafePathSegment o' = true -> repo_safe r' -> Schemas.isSafePathSegment n' = true ->
  key cwd (getSkillDir home o r n) = key cwd (getSkillDir home o' r' n') ->
  o = o' /\ r = r' /\ n = n'.
Proof.
  intros Habs Ho Hr Hn Ho' Hr' Hn'.
  rewrite (getSkillDir_key cwd home o r n Habs Ho Hr Hn), (getSkillDir_key cwd home o' r' n' Habs Ho' Hr' Hn').
  intros H. apply app_inv_head in H. cbn [app] in H. injection H as <- H.
  destruct r as [x|], r' as [y|]; cbn in H.
  - injection H as <- <-. auto.
  - injection H as _ H. discriminate H.
  - injection H as _ H. discriminate H.
  - injection H as <-. auto.
Qed.

(** A skill without a repository lies in the parent directory of the
    skills of the repository that bears its name. *)
Theorem getSkillDir_nested (cwd home o r n : string) :
  is_abs cwd = true ->
  Schemas.isSafePathSegment o = true -> Schemas.isSafePathSegment r = true ->
  Schemas.isSafePathSegment n = true ->
  key cwd (getSkillDir home o (Some r) n) = key cwd (getSkillDir home o None r) ++ [n].
Proof.
  intros Habs Ho Hr Hn.
  rewrite (getSkillDir_key cwd home o (Some r) n Habs Ho Hr Hn),
          (getSkillDir_key cwd home o None r Habs Ho I Hr).
  cbn [repo_segs]. rewrite <- !app_assoc. reflexivity.
Qed.

(** Instance of [getSkillDir_key]: [acme/tools/lint]. *)
Lemma getSkillDir_key_witness :
  key "/" (getSkillDir "/home/u" "acme" (Some "tools") "lint")
  = key "/" "/home/u" ++ [".vett"; "skills"; "acme"] ++ repo_segs (Some "tools") ++ ["lint"].
Proof. apply getSkillDir_key; vm_compute; reflexivity. Defined.

(** Instance of [getSkillDir_injective]: [acme/tools/lint] against itself. *)
Lemma getSkillDir_injective_witness :
  "acme" = "acme" /\ Some "tools" = Some "tools" /\ "lint" = "lint".
Proof.
  apply (getSkillDir_injective "/" "/home/u" "acme" (Some "tools") "lint" "acme" (Some "tools") "lint");
    vm_compute; reflexivity.
Defined.

(** Instance of [getSkillDir_nested]: [acme/tools/lint] lies in the
    directory of [acme/tools]. *)
Lemma getSkillDir_nested_witness :
  key "/" (getSkillDir "/home/u" "acme" (Some "tools") "lint")
  = key "/" (getSkillDir "/home/u" "acme" None "tools") ++ ["lint"].
Proof. apply getSkillDir_nested; vm_compute; reflexivity. Defined.

End SkillDirs.

(* ------------------------------------------------------------------ *)
(** ** Skill identifiers (packages/core/src/url-parser.ts):
       [isValidSkillId] on the identities [parseSkillUrl] builds *)

Module SkillIds.
Import Installer PathFacts.

(** [isValidSkillId(id)] (packages/core/src/url-parser.ts). *)
Definition isValidSkillId (id : string) : bool :=
  let parts := split id "/"%char in
  if length parts <? 2 then false
  else if negb (includes (List.hd "" parts) ".") then false
  else if existsb (fun p => String.eqb p "") parts then false
  else true.

Definition good (s : string) : Prop := s <> "" /\ noslash s.

Lemma lower_noslash_char (c : ascii) :
  negb (Ascii.eqb c "/"%char) = true -> negb (Ascii.eqb (lower_char c) "/"%char) = true.
Proof. destruct c as [[] [] [] [] [] [] [] []]; vm_compute; first [reflexivity | discriminate]. Qed.

Lemma lower_noslash (s : string) : noslash s -> noslash (toLowerCase s).
Proof.
  unfold noslash. induction s as [|c s IH]; cbn; [done|].
  intros H. apply andb_prop in H as [Hc Hs]. rewrite lower_noslash_char, IH; done.
Qed.

Lemma lower_nonempty' (s : string) : s <> "" -> toLowerCase s <> "".
Proof. destruct s; cbn; done. Qed.

Lemma lower_good (s : string) : good s -> good (toLowerCase s).
Proof. intros [H1 H2]. split; [apply lower_nonempty', H1 | apply lower_noslash, H2]. Qed.

Lemma strip_noslash (x s : string) : noslash s -> noslash (strip_suffix x s).
Proof. apply CharsFacts.forall_chars_strip_suffix. Qed.

(** A list whose elements are all good except the last, which has no slash. *)
Definition last_ok (L : list string) : Prop :=
  exists L' x, L = L' ++ [x] /\ Forall good L' /\ noslash x.

Lemma map_last_ok (f : string -> string) (M : list string) :
  M <> [] -> Forall good M -> (forall x, noslash x -> noslash (f x)) ->
  last_ok (Parser.map_last f M).
Proof.
  intros Hne HM Hf. unfold Parser.map_last.
  destruct (List.rev M) as [|x r] eqn:E.
  - exfalso. apply Hne. rewrite <- (rev_involutive M), E. reflexivity.
  - exists (List.rev r), (f x). split; [reflexivity|].
    assert (HR : Forall good (List.rev M)) by (apply List.Forall_rev, HM).
    rewrite E in HR. apply Forall_cons in HR as [[_ Hx] Hr].
    split; [apply List.Forall_rev, Hr | apply Hf, Hx].
Qed.

Lemma normalizeSkillPath_ok (SP : list string) :
  SP <> [] -> Forall good SP ->
  exists L, last_ok L /\ Parser.normalizeSkillPath SP = JS.join L "/".
Proof.
  intros Hne HSP. unfold Parser.normalizeSkillPath.
  destruct SP as [|p0 ps]; [done|].
  assert (HN : last_ok (Parser.map_last (strip_suffix ".md") (List.map toLowerCase (p0 :: ps)))).
  { apply map_last_ok; [done| |apply strip_noslash].
    apply Forall_fmap. eapply Forall_impl; [exact HSP|]. intros s Hs. apply lower_good, Hs. }
  destruct (Parser.map_last _ _) as [|w [|w' rest]] eqn:E; try (eexists; split; [exact HN|reflexivity]).
  destruct (String.eqb w "skills"); [|eexists; split; [exact HN|reflexivity]].
  exists (w' :: rest). split; [|reflexivity].
  destruct HN as (L' & x & HL & HF & Hx).
  destruct L' as [|a L'']; [destruct rest; discriminate HL|].
  injection HL as -> HL. exists L'', x. split; [exact HL|]. split; [|exact Hx].
  apply Forall_cons in HF as [_ HF]. exact HF.
Qed.

Lemma filter_good (s : string) : Forall good (filter_nonempty (split s "/"%char)).
Proof.
  unfold filter_nonempty. pose proof (split_noslash_all s) as H.
  induction H as [|w ws Hw Hws IH]; cbn; [constructor|].
  destruct (String.eqb_spec w ""); cbn; [exact IH|]. constructor; [split; done|exact IH].
Qed.

Lemma join_app2 (A L : list string) :
  A <> [] -> L <> [] -> JS.join (A ++ L) "/" = JS.join A "/" +:+ "/" +:+ JS.join L "/".
Proof.
  intros HA HL. induction A as [|a A IH]; [done|]. destruct A as [|a' A'].
  - cbn [app]. apply join_cons, HL.
  - rewrite <- app_comm_cons, join_cons by (destruct A'; done).
    rewrite (join_cons a (a' :: A')) by done. rewrite IH by done.
    rewrite !StrFacts.append_assoc. reflexivity.
Qed.

Lemma split_good_join (L : list string) :
  L <> [] -> Forall noslash L -> split (JS.join L "/") "/"%char = L.
Proof.
  intros HL HF. unfold split. apply (GitHubFacts.split_on_join _ "/"%char); [reflexivity|exact HL|].
  exact HF.
Qed.

Lemma valid_gen (o : string) (M : list string) :
  good o -> M <> [] -> Forall noslash M ->
  isValidSkillId (JS.join ("github.com" :: o :: M) "/")
  = negb (existsb (fun p => String.eqb p "") M).
Proof.
  intros [Ho Hos] HM HF. unfold isValidSkillId.
  rewrite split_good_join by (first [done | constructor; [reflexivity|constructor; [exact Hos|exact HF]]]).
  destruct M as [|m M]; [done|].
  cbn [length List.hd]. change (includes "github.com" ".") with true.
  change (S (S (S (length M))) <? 2) with false. cbv iota.
  change (existsb (fun p => String.eqb p "") ("github.com" :: o :: m :: M))
    with (String.eqb "github.com" "" || String.eqb o "" || existsb (fun p => String.eqb p "") (m :: M)).
  apply String.eqb_neq in Ho. rewrite Ho. cbn [orb negb].
  destruct (existsb _ _); reflexivity.
Qed.

Lemma existsb_good (L : list string) : Forall good L -> existsb (fun p => String.eqb p "") L = false.
Proof.
  induction 1 as [|w L [Hw _] _ IH]; [reflexivity|]. cbn. apply String.eqb_neq in Hw. rewrite Hw. exact IH.
Qed.

Lemma endsWith_join_last (L' : list string) (x : string) :
  Forall good L' -> noslash x -> JS.join (L' ++ [x]) "/" <> "" ->
  endsWith (JS.join (L' ++ [x]) "/") "/" = negb (negb (String.eqb x "")).
Proof.
  intros HL Hx Hne. destruct (String.eqb_spec x "") as [->|Hx0].
  - destruct L' as [|a L']; [done|].
    rewrite join_snoc by done. rewrite StrFacts.append_nil_r. apply GitHubFacts.endsWith_app.
  - destruct L' as [|a L'].
    + apply (ends_noslash "" x Hx0 Hx).
    + rewrite join_snoc by done. rewrite <- StrFacts.append_assoc. apply ends_noslash; done.
Qed.

(** The identity [parseGitHostUrl] builds for owner [o], repository [r]
    and sub-path [SP]. *)
Lemma valid_github (o r : string) (SP : list string) :
  good o -> noslash r -> Forall good SP ->
  let skill := Parser.normalizeSkillPath SP in
  isValidSkillId (JS.join (["github.com"; o; r] ++ (if String.eqb skill "" then [] else [skill])) "/") = true
  <-> r <> "" /\ (String.eqb skill "" = false -> endsWith skill "/" = false).
Proof.
  intros Ho Hr HSP. cbv zeta.
  assert (Hbase : isValidSkillId (JS.join ["github.com"; o; r] "/") = true <-> r <> "").
  { rewrite (valid_gen o [r]) by (first [done | constructor; [exact Hr|constructor]]).
    cbn. destruct (String.eqb_spec r ""); cbn; intuition congruence. }
  destruct (String.eqb (Parser.normalizeSkillPath SP) "") eqn:Es.
  { cbn [app]. rewrite Hbase. intuition discriminate. }
  assert (HSPne : SP <> []) by (intros ->; discriminate Es).
  destruct (normalizeSkillPath_ok SP HSPne HSP) as (L & (L' & x & -> & HL' & Hx) & Hj).
  rewrite Hj in Es |- *. apply String.eqb_neq in Es as Es'.
  assert (HJ : JS.join (["github.com"; o; r] ++ [JS.join (L' ++ [x]) "/"]) "/"
               = JS.join ("github.com" :: o :: r :: L' ++ [x]) "/").
  { rewrite (join_snoc ["github.com"; o; r]) by done.
    change ("github.com" :: o :: r :: L' ++ [x]) with (["github.com"; o; r] ++ (L' ++ [x])).
    rewrite (join_app2 ["github.com"; o; r] (L' ++ [x])) by first [done | intros Hn; apply app_eq_nil in Hn as [_ Hn]; discriminate]. reflexivity. }
  rewrite HJ, (valid_gen o (r :: L' ++ [x])).
  2: exact Ho. 2: done.
  2: { constructor; [exact Hr|]. apply Forall_app. split; [|constructor; [exact Hx|constructor]].
       eapply Forall_impl; [exact HL'|]. intros s [_ Hs]. exact Hs. }
  rewrite (endsWith_join_last L' x HL' Hx Es').
  change (existsb (fun p => String.eqb p "") (r :: L' ++ [x]))
    with (String.eqb r "" || existsb (fun p => String.eqb p "") (L' ++ [x])).
  rewrite existsb_app, existsb_good by exact HL'. cbn [existsb orb].
  rewrite orb_false_r.
  destruct (String.eqb_spec r ""), (String.eqb_spec x ""); cbn; intuition congruence.
Qed.

Lemma parseClawHubUrl_host (u : URL.url) (src : string) (p : Parser.ParsedSkillUrl) :
  Parser.parseClawHubUrl u src = Parser.Ok p -> Parser.host p = "clawhub.ai".
Proof.
  unfold Parser.parseClawHubUrl.
  destruct (filter_nonempty _) as [|p0 [|p1 [|p2 rest]]]; [| |destruct (negb _)|];
    try (intros H; injection H as <-; reflexivity);
    destruct (option_map _ _) as [[|c t]|]; intros H; try discriminate H; injection H as <-; reflexivity.
Qed.

Lemma parseHttpUrl_host (h : string) (parts : list string) (src : string) :
  Parser.host (Parser.parseHttpUrl h parts src) = h.
Proof.
  unfold Parser.parseHttpUrl, Parser.parseHttpPath.
  destruct (Parser.index_of _ _) as [i|]; [destruct (_ && _)|];
    match goal with |- context [match ?M with pair _ _ => _ end] => destruct M end; reflexivity.
Qed.

Section Parse.
Context {idna : URL.DomainToASCII}.

(** A source that [parseSkillUrl] reads as a github.com source is parsed
    by [parseGitHostUrl] on the non-empty segments of its path. *)
Lemma parseSkillUrl_github_parts (raw : string) (p : Parser.ParsedSkillUrl) :
  Parser.parseSkillUrl raw = Parser.Ok p -> Parser.host p = "github.com" ->
  exists parts, Forall good parts /\ Parser.parseGitHostUrl "github.com" parts raw = Parser.Ok p.
Proof.
  unfold Parser.parseSkillUrl.
  destruct (if startsWith (trim raw) "git@" then _ else _) as [m|n]; [discriminate|].
  destruct (URL.parse _) as [u|]; [|discriminate]. cbv zeta.
  destruct (String.eqb_spec (Parser.normalizeHost (URL.url_host u)) "github.com") as [Eh|Nh].
  { rewrite Eh. intros H _. eexists. split; [apply filter_good|exact H]. }
  destruct (String.eqb _ "clawhub.ai").
  { intros H Hh. rewrite (parseClawHubUrl_host _ _ _ H) in Hh. discriminate Hh. }
  intros H Hh. injection H as <-. rewrite parseHttpUrl_host in Hh. contradiction.
Qed.

Lemma some_skill_iff (k : string) :
  (forall s, (if String.eqb k "" then None else Some k) = Some s -> endsWith s "/" = false)
  <-> (String.eqb k "" = false -> endsWith k "/" = false).
Proof.
  destruct (String.eqb k ""); split.
  - discriminate.
  - intros _ s Hs. discriminate Hs.
  - intros H _. apply H. reflexivity.
  - intros H s Hs. injection Hs as <-. apply H. reflexivity.
Qed.

(** The identity of a github.com source passes [isValidSkillId] exactly
    when its repository is not empty and its skill does not end in a
    slash. *)
Theorem github_id_valid (raw : string) (p : Parser.ParsedSkillUrl) :
  Parser.parseSkillUrl raw = Parser.Ok p -> Parser.host p = "github.com" ->
  (isValidSkillId (Parser.id p) = true
   <-> Parser.repo p <> Some "" /\ (forall s, Parser.skill p = Some s -> endsWith s "/" = false)).
Proof.
  intros H Hh. destruct (parseSkillUrl_github_parts raw p H Hh) as (parts & HF & Hg). clear H Hh.
  unfold Parser.parseGitHostUrl in Hg.
  destruct parts as [|p0 [|p1 more]]; try discriminate Hg.
  apply Forall_cons in HF as [H0 HF]. apply Forall_cons in HF as [[_ H1] HF].
  pose proof (lower_good p0 H0) as Ho.
  pose proof (lower_noslash _ (strip_noslash ".git" p1 H1)) as Hr.
  assert (Hrepo : forall r, Some r <> Some "" <-> r <> "") by (intros r; split; congruence).
  assert (Hgen : forall SP ref path, Forall good SP ->
    Parser.Ok (Parser.mkParsed "github.com"
      (JS.join (["github.com"; toLowerCase p0; toLowerCase (Parser.stripGitSuffix p1)]
                ++ (if String.eqb (Parser.normalizeSkillPath SP) "" then []
                    else [Parser.normalizeSkillPath SP])) "/")
      (toLowerCase p0) (Some (toLowerCase (Parser.stripGitSuffix p1)))
      (if String.eqb (Parser.normalizeSkillPath SP) "" then None
       else Some (Parser.normalizeSkillPath SP)) path ref raw) = Parser.Ok p ->
    isValidSkillId (Parser.id p) = true
    <-> Parser.repo p <> Some "" /\ (forall s, Parser.skill p = Some s -> endsWith s "/" = false)).
  { intros SP ref path HSP E. injection E as <-. cbn [Parser.id Parser.repo Parser.skill].
    rewrite Hrepo, some_skill_iff. apply valid_github; assumption. }
  destruct more as [|rt after]; [|destruct (String.eqb rt "tree" || String.eqb rt "blob")].
  - exact (Hgen [] _ _ (List.Forall_nil _) Hg).
  - refine (Hgen (List.tl after) _ _ _ Hg).
    destruct after as [|a after]; [constructor|]. apply Forall_cons in HF as [_ HF]. apply Forall_cons in HF as [_ HF]. exact HF.
  - exact (Hgen (rt :: after) _ _ HF Hg).
Qed.

End Parse.

(** Instance of [github_id_valid]: a skill in a sub-directory. *)
Lemma github_id_valid_witness :
  exists p, @Parser.parseSkillUrl URL.no_idna "https://github.com/acme/tools/tree/main/a/b" = Parser.Ok p
  /\ (isValidSkillId (Parser.id p) = true
      <-> Parser.repo p <> Some "" /\ (forall s, Parser.skill p = Some s -> endsWith s "/" = false)).
Proof.
  eexists. split; [vm_compute; reflexivity|].
  apply (@github_id_valid URL.no_idna "https://github.com/acme/tools/tree/main/a/b");
    vm_compute; reflexivity.
Defined.

(** A source the parser accepts whose identity [isValidSkillId] rejects:
    a repository segment [.git] leaves an empty repository. *)
Lemma github_empty_repo {idna : URL.DomainToASCII} :
  exists p, Parser.parseSkillUrl "github.com/acme/.git" = Parser.Ok p
  /\ Parser.repo p = Some "" /\ isValidSkillId (Parser.id p) = false.
Proof. eexists. split; [vm_compute; reflexivity|]. split; vm_compute; reflexivity. Qed.

End SkillIds.
